(** * lever-ui-eventbus: a shallow embedding of the dispatch core

    The development follows the TypeScript sources
      - [src/utils/type-resolver.ts]  (class [TypeResolver]),
      - [src/event-bus.ts]            (class [EventBus]),
      - [src/async-event-bus.ts]      (class [AsyncEventBus]),
      - [src/dead-event.ts]           (class [DeadEvent]),
    and, for what the React hooks do with the bus,
      - [src/integrations/react/hooks.ts].

    JavaScript values are modelled with object identity, prototype chains
    and own data properties, which is what the resolver inspects.  The
    objects of the client program (classes, prototypes, events, handler
    functions) form a fixed graph; the bus adds [DeadEvent] instances to
    it.  Arrays returned by the resolver live in a store and are handed
    out by reference, because the resolver's cache aliases them.

    Handler bodies are client code: a body is the list of calls it makes
    to the public API of the bus, ending early when it throws.  The state
    is threaded through a state-and-exception monad.  Two things in it are
    not JavaScript: the [trace], a log of the calls the dispatcher makes to
    code it does not own, kept so that statements can say who was called
    with what; and the fuel, which bounds the resolver's loop and the
    nesting of posts, a run that exhausts it being [Diverge]. *)

From Stdlib Require Import ssreflect.
From stdpp Require Import gmap strings list.

Set Warnings "-register-all,-rewrite-rw".
Open Scope string_scope.
Open Scope nat_scope.
Open Scope list_scope.

(** ** JavaScript values *)

Definition loc := nat.

(** Object identities: the objects of the client program live in a static
    object graph (the heap [H] below, indexed by [loc]); the only objects
    the bus itself allocates are [DeadEvent] instances, numbered in
    allocation order. *)
Inductive ident :=
| IObj (l : loc)
| IDead (n : nat).

Inductive value :=
| VUndefined
| VNull
| VBool (b : bool)
| VNum (z : Z)          (* an integer-valued number *)
| VNaN
| VStr (s : string)
| VSymbol (n : nat)
| VBigInt (z : Z)
| VRef (i : ident).

Abbreviation VObj l := (VRef (IObj l)).
Abbreviation VDead n := (VRef (IDead n)).

#[global] Instance ident_eq_dec : EqDecision ident.
Proof. solve_decision. Defined.

#[global] Instance value_eq_dec : EqDecision value.
Proof. solve_decision. Defined.

#[global] Instance ident_countable : Countable ident.
Proof.
  refine (inj_countable'
            (λ i, match i with IObj l => inl l | IDead n => inr n end)
            (λ s, match s with inl l => IObj l | inr n => IDead n end) _).
  by intros [].
Defined.

(** What a thrown thing can be: a value thrown by client code, or a
    [TypeError] raised by the language itself. *)
Inductive exn :=
| ExnValue (v : value)
| ExnTypeError (msg : string).

(** Client code, as far as the bus is concerned: the calls a function body
    makes to the bus, in order.  [AUnsubscribe ty rid] is a call of the
    [unsubscribe] closure that [subscribe] returned for record [rid]
    under [ty]. *)
Inductive action :=
| ASubscribe (ty fn : value)
| AUnsubscribe (ty : value) (rid : nat)
| AUnsubscribeAll (ty : value)
| AClear
| APost (ev : value)
| AThrow (e : value).

(** An ordinary object: its [[Prototype]], its body when it is callable,
    and its own data properties. *)
Record obj := Obj {
  o_proto : option loc;
  o_call : option (value → list action);
  o_props : list (string * value)
}.

Definition heap := list obj.

(** The intrinsics the code mentions or reaches. *)
Record realm := Realm {
  r_Object : loc;            (* the constructor [Object] *)
  r_DeadEvent : loc;         (* the class [DeadEvent] *)
  r_DeadEventProto : loc;    (* [DeadEvent.prototype] *)
  r_BooleanProto : loc;
  r_NumberProto : loc;
  r_StringProto : loc;
  r_SymbolProto : loc;
  r_BigIntProto : loc
}.

Section Language.
Variable H : heap.
Variable R : realm.

(** [!v] is [negb (truthy v)]. *)
Definition truthy (v : value) : bool :=
  match v with
  | VUndefined | VNull | VNaN => false
  | VBool b => b
  | VNum z => negb (z =? 0)%Z
  | VStr s => negb (bool_decide (s = ""))
  | VBigInt z => negb (z =? 0)%Z
  | VSymbol _ | VRef _ => true
  end.

(** [v == null] *)
Definition is_nullish (v : value) : bool :=
  match v with VUndefined | VNull => true | _ => false end.

Definition callable (v : value) : bool :=
  match v with
  | VObj l => match H !! l with
              | Some o => bool_decide (is_Some (o_call o))
              | None => false
              end
  | _ => false
  end.

(** [typeof v === 'object'] *)
Definition typeof_object (v : value) : bool :=
  match v with
  | VNull => true
  | VRef _ => negb (callable v)
  | _ => false
  end.

Fixpoint own_prop (key : string) (ps : list (string * value)) : option value :=
  match ps with
  | [] => None
  | (k, v) :: ps' => if bool_decide (k = key) then Some v else own_prop key ps'
  end.

(** Property lookup along the prototype chain, starting at object [o].
    Prototype chains are acyclic in JavaScript, so the number of objects
    bounds the walk. *)
Fixpoint lookup_chain (n : nat) (o : option loc) (key : string) : value :=
  match n, o with
  | S n', Some l =>
      match H !! l with
      | Some ob =>
          match own_prop key (o_props ob) with
          | Some v => v
          | None => lookup_chain n' (o_proto ob) key
          end
      | None => VUndefined
      end
  | _, _ => VUndefined
  end.

Definition lookup_from (o : option loc) (key : string) : value :=
  lookup_chain (S (length H)) o key.

Definition proto_of_ident (i : ident) : option loc :=
  match i with
  | IObj l => H !! l ≫= o_proto
  | IDead _ => Some (r_DeadEventProto R)
  end.

(** [Object.getPrototypeOf(v)]: [None] is the [TypeError] on [null] and
    [undefined]; primitives answer with their wrapper prototype. *)
Definition getPrototypeOf (v : value) : option (option loc) :=
  match v with
  | VUndefined | VNull => None
  | VBool _ => Some (Some (r_BooleanProto R))
  | VNum _ | VNaN => Some (Some (r_NumberProto R))
  | VStr _ => Some (Some (r_StringProto R))
  | VSymbol _ => Some (Some (r_SymbolProto R))
  | VBigInt _ => Some (Some (r_BigIntProto R))
  | VRef i => Some (proto_of_ident i)
  end.

(** [v.key] for a [v] that is neither [null] nor [undefined], and a [key]
    other than the two fields [source] and [event] of a [DeadEvent]
    instance (which the dispatcher never reads). *)
Definition get_prop (v : value) (key : string) : value :=
  match v with
  | VObj l => lookup_from (Some l) key
  | _ => match getPrototypeOf v with
         | Some o => lookup_from o key
         | None => VUndefined
         end
  end.

(** [v ?? null] *)
Definition or_null (v : value) : value :=
  if is_nullish v then VNull else v.

(** [event instanceof DeadEvent]: is [DeadEvent.prototype] on the
    prototype chain of [event]? *)
Fixpoint on_chain (n : nat) (o : option loc) (target : loc) : bool :=
  match n, o with
  | S n', Some l =>
      if bool_decide (l = target) then true
      else on_chain n' (H !! l ≫= o_proto) target
  | _, _ => false
  end.

Definition instanceof_DeadEvent (v : value) : bool :=
  match v with
  | VRef i => on_chain (S (length H)) (proto_of_ident i) (r_DeadEventProto R)
  | _ => false
  end.

(** *** The loop of [TypeResolver.getTypesFor]

    [[
      while (ctor && ctor !== Object) {
        out.push(ctor);
        const proto = Object.getPrototypeOf(ctor.prototype);
        ctor = proto?.constructor ?? null;
      }
    ]] *)
Inductive walk_res :=
| WOk (out : list value)
| WThrow (e : exn)
| WDiverge.

Definition loop_guard (ctor : value) : bool :=
  truthy ctor && negb (bool_decide (ctor = VObj (r_Object R))).

(** One turn of the loop body: the next [ctor], or the [TypeError] of
    [Object.getPrototypeOf]. *)
Definition next_ctor (ctor : value) : option value :=
  match getPrototypeOf (get_prop ctor "prototype") with
  | None => None
  | Some proto =>
      Some (or_null (match proto with
                     | None => VUndefined
                     | Some p => lookup_from (Some p) "constructor"
                     end))
  end.

Fixpoint walk (fuel : nat) (ctor : value) : walk_res :=
  if loop_guard ctor then
    match fuel with
    | 0 => WDiverge
    | S n =>
        match next_ctor ctor with
        | None => WThrow (ExnTypeError "Cannot convert undefined or null to object")
        | Some ctor' =>
            match walk n ctor' with
            | WOk out => WOk (ctor :: out)
            | r => r
            end
        end
    end
  else WOk [].

(** [(event as { constructor?: Constructor })?.constructor ?? null] *)
Definition first_ctor (event : value) : value :=
  or_null (get_prop event "constructor").

End Language.

(** ** The state of the program *)

(** [HandlerRec]: a fresh object per [subscribe]; its identity is [rec_id]. *)
Record hrec := HandlerRec { rec_id : nat; rec_fn : value }.

(** [SubscriberExceptionContext] *)
Record exn_ctx := ExnCtx {
  ctx_event : value;
  ctx_eventType : value;
  ctx_handler : value;
  ctx_eventBus : value
}.

(** The closure [() => super.deliver(fn, type, event)] handed to the
    executor: it is determined by what it captures. *)
Record task := Task { task_fn : value; task_type : value; task_event : value }.

(** The observation log.  It is a call tree: every call the dispatcher
    makes to code it does not own is one node, which holds what happened
    during that call and how the call ended.
      - [THandler fn ty ev inner out]: [deliver(fn, ty, ev)] called [fn(ev)];
      - [TReport e c inner out]: the exception handler was called with [(e, c)];
      - [TPost ev inner out]: [post(ev)] was called (by a handler, or by the
        bus for a [DeadEvent]);
      - [TSubmit t inner out]: the executor was called with task [t]. *)
Inductive tev :=
| THandler (fn ty ev : value) (inner : list tev) (out : option exn)
| TReport (e : exn) (c : exn_ctx) (inner : list tev) (out : option exn)
| TPost (ev : value) (inner : list tev) (out : exn + nat)
| TSubmit (t : task) (inner : list tev) (out : option exn).

Record world := World {
  (* fields of the bus *)
  registry : list (value * list hrec);   (* Map<Constructor, Set<HandlerRec>> *)
  typeCache : gmap ident nat;            (* WeakMap<object, Constructor[]> *)
  next_rec : nat;                        (* identity of the next HandlerRec *)
  (* the store *)
  arrays : list (list value);            (* arrays, by reference *)
  dead : list (value * value);           (* DeadEvent instances: source, event *)
  (* tasks accepted by a queueing executor, oldest first *)
  queue : list task;
  (* observation *)
  trace : list tev
}.

Definition set_registry (x : list (value * list hrec)) (w : world) : world :=
  World x (typeCache w) (next_rec w) (arrays w) (dead w) (queue w) (trace w).
Definition set_typeCache (x : gmap ident nat) (w : world) : world :=
  World (registry w) x (next_rec w) (arrays w) (dead w) (queue w) (trace w).
Definition set_next_rec (x : nat) (w : world) : world :=
  World (registry w) (typeCache w) x (arrays w) (dead w) (queue w) (trace w).
Definition set_arrays (x : list (list value)) (w : world) : world :=
  World (registry w) (typeCache w) (next_rec w) x (dead w) (queue w) (trace w).
Definition set_dead (x : list (value * value)) (w : world) : world :=
  World (registry w) (typeCache w) (next_rec w) (arrays w) x (queue w) (trace w).
Definition set_queue (x : list task) (w : world) : world :=
  World (registry w) (typeCache w) (next_rec w) (arrays w) (dead w) x (trace w).
Definition set_trace (x : list tev) (w : world) : world :=
  World (registry w) (typeCache w) (next_rec w) (arrays w) (dead w) (queue w) x.

(** A bus with nothing subscribed, as its constructor leaves it. *)
Definition new_world : world := World [] ∅ 0 [] [] [] [].

(** ** Computations: state, exceptions, and running out of fuel *)

Inductive res (A : Type) :=
| Ok (a : A) (w : world)
| Throw (e : exn) (w : world)
| Diverge.
Arguments Ok {A} a w.
Arguments Throw {A} e w.
Arguments Diverge {A}.

Definition M (A : Type) : Type := world → res A.

#[global] Instance M_ret : MRet M := λ A a w, Ok a w.
#[global] Instance M_bind : MBind M := λ A B f m w,
  match m w with
  | Ok a w' => f a w'
  | Throw e w' => Throw e w'
  | Diverge => Diverge
  end.

Definition throw {A} (e : exn) : M A := λ w, Throw e w.
Definition get_world : M world := λ w, Ok w w.
Definition modify (f : world → world) : M unit := λ w, Ok tt (f w).

(** [try { m } catch (err) { h err }] *)
Definition try_catch {A} (m : M A) (h : exn → M A) : M A := λ w,
  match m w with
  | Throw e w' => h e w'
  | r => r
  end.

(** [framed mk m] runs the call [m] and logs it as one node [mk inner out]. *)
Definition framed {A} (mk : list tev → exn + A → tev) (m : M A) : M A := λ w,
  match m (set_trace [] w) with
  | Ok a w' => Ok a (set_trace (trace w ++ [mk (trace w') (inr a)]) w')
  | Throw e w' => Throw e (set_trace (trace w ++ [mk (trace w') (inl e)]) w')
  | Diverge => Diverge
  end.

Definition thrown {A} (r : exn + A) : option exn :=
  match r with inl e => Some e | inr _ => None end.

(** ** [TypeResolver] *)

Section Resolver.
Variable H : heap.
Variable R : realm.

Definition array_at (w : world) (r : nat) : list value :=
  default [] (arrays w !! r).

(** A new array with contents [l]; the result is its reference. *)
Definition alloc_array (l : list value) : M nat := λ w,
  Ok (length (arrays w)) (set_arrays (arrays w ++ [l]) w).

(** [l.includes(x)] *)
Definition includes (x : value) (l : list value) : bool :=
  bool_decide (x ∈ l).

Definition getTypesFor (fuel : nat) (event : value) (hasObjectHandler : bool)
  : M nat := λ w,
  if negb (truthy event) || negb (typeof_object H event) then alloc_array [] w
  else
    match event with
    | VRef i =>
        match typeCache w !! i with
        | Some cached =>
            if hasObjectHandler
               && negb (includes (VObj (r_Object R)) (array_at w cached))
            then alloc_array (array_at w cached ++ [VObj (r_Object R)]) w
            else Ok cached w
        | None =>
            match walk H R fuel (first_ctor H R event) with
            | WOk out0 =>
                let out := if hasObjectHandler
                           then out0 ++ [VObj (r_Object R)] else out0 in
                let r := length (arrays w) in
                Ok r (set_typeCache (<[i := r]> (typeCache w))
                        (set_arrays (arrays w ++ [out]) w))
            | WThrow e => Throw e w
            | WDiverge => Diverge
            end
        end
    | _ => alloc_array [] w
    end.

Definition clearCache : M unit := modify (set_typeCache ∅).

End Resolver.

(** ** [EventBus] and [AsyncEventBus] *)

(** What the executor of an [AsyncEventBus] does with a task: keep it for
    later ([queueMicrotask], [setTimeout], a hand-stepped queue), or call it
    on the spot ([task => task()]). *)
Inductive executor := ExecQueue | ExecInline.

Inductive bus_kind := SyncBus | AsyncBus (ex : executor).

(** The exception handler given to the constructor:
    [defaultExceptionHandler] only logs to the console. *)
Inductive reporter :=
| DefaultReporter
| CustomReporter (body : exn → exn_ctx → list action).

Record bus := Bus {
  self : loc;
  kind : bus_kind;
  exceptionHandler : reporter
}.

(** *** [Map<Constructor, Set<HandlerRec>>], both insertion-ordered *)

Fixpoint reg_get (k : value) (reg : list (value * list hrec)) : option (list hrec) :=
  match reg with
  | [] => None
  | (k', s) :: reg' => if bool_decide (k' = k) then Some s else reg_get k reg'
  end.

Definition reg_has (k : value) (reg : list (value * list hrec)) : bool :=
  bool_decide (is_Some (reg_get k reg)).

Fixpoint reg_set (k : value) (s : list hrec) (reg : list (value * list hrec))
  : list (value * list hrec) :=
  match reg with
  | [] => [(k, s)]
  | (k', s') :: reg' =>
      if bool_decide (k' = k) then (k, s) :: reg' else (k', s') :: reg_set k s reg'
  end.

Definition reg_delete (k : value) (reg : list (value * list hrec))
  : list (value * list hrec) :=
  filter (λ e : value * list hrec, e.1 ≠ k) reg.

Definition set_add (r : hrec) (s : list hrec) : list hrec :=
  if bool_decide (rec_id r ∈ rec_id <$> s) then s else s ++ [r].

Definition set_delete (rid : nat) (s : list hrec) : list hrec :=
  filter (λ r : hrec, rec_id r ≠ rid) s.

(** *** Subscription management *)

(** The [Subscription] returned by [subscribe] is the closure over
    [(type, rec)]. *)
Definition subscribe (type handler : value) : M (value * nat) := λ w,
  let set := default [] (reg_get type (registry w)) in
  let rec := HandlerRec (next_rec w) handler in
  Ok (type, rec_id rec)
     (set_next_rec (S (next_rec w))
        (set_registry (reg_set type (set_add rec set) (registry w)) w)).

Definition unsubscribe (sub : value * nat) : M unit := λ w,
  match reg_get sub.1 (registry w) with
  | None => Ok tt w
  | Some current =>
      let current' := set_delete sub.2 current in
      let reg' := reg_set sub.1 current' (registry w) in
      Ok tt (set_registry
               (if length current' =? 0 then reg_delete sub.1 reg' else reg') w)
  end.

Definition unsubscribeAll (type : value) : M nat := λ w,
  let count := from_option length 0 (reg_get type (registry w)) in
  Ok count (set_registry (reg_delete type (registry w)) w).

Definition getSubscriptionCount (type : value) : M nat := λ w,
  Ok (from_option length 0 (reg_get type (registry w))) w.

Definition getActiveEventTypes : M (list value) := λ w,
  Ok (filter (λ type, 0 < from_option length 0 (reg_get type (registry w)))
        (fst <$> registry w)) w.

Definition clear : M nat :=
  w ← get_world;
  let total := foldl (λ total set, total + length set) 0 (snd <$> registry w) in
  modify (set_registry []) ;;
  clearCache ;;
  mret total.

(** *** Dispatch *)

(** The two loops of [post] that fill [handlersToCall] and count
    [delivered]. *)
Definition collect_set (type : value) (set : list hrec)
    (acc : list (value * value) * nat) : list (value * value) * nat :=
  foldl (λ acc rec, (acc.1 ++ [(rec_fn rec, type)], S acc.2)) acc set.

Definition collect (reg : list (value * list hrec)) (types : list value)
  : list (value * value) * nat :=
  foldl (λ acc type,
           match reg_get type reg with
           | None => acc
           | Some set => if length set =? 0 then acc else collect_set type set acc
           end) ([], 0) types.

Section Dispatch.
Variable H : heap.
Variable R : realm.
Variable B : bus.

(** How many more turns the resolver's loop may take. *)
Variable fuel : nat.
(** [this.post], for the calls made while one [post] is running. *)
Variable self_post : value → M nat.

Definition exec1 (a : action) : M unit :=
  match a with
  | ASubscribe ty fn => subscribe ty fn ≫= λ _, mret tt
  | AUnsubscribe ty rid => unsubscribe (ty, rid)
  | AUnsubscribeAll ty => unsubscribeAll ty ≫= λ _, mret tt
  | AClear => clear ≫= λ _, mret tt
  | APost ev => framed (TPost ev) (self_post ev) ≫= λ _, mret tt
  | AThrow e => throw (ExnValue e)
  end.

Fixpoint exec (body : list action) : M unit :=
  match body with
  | [] => mret tt
  | a :: body' => exec1 a ≫= λ _, exec body'
  end.

(** [fn(arg)] *)
Definition invoke (fn arg : value) : M unit :=
  match fn with
  | VObj l =>
      match H !! l ≫= o_call with
      | Some body => exec (body arg)
      | None => throw (ExnTypeError "fn is not a function")
      end
  | _ => throw (ExnTypeError "fn is not a function")
  end.

(** [this.exceptionHandler(err, ctx)] *)
Definition report (err : exn) (ctx : exn_ctx) : M unit :=
  framed (λ inner out, TReport err ctx inner (thrown out))
    match exceptionHandler B with
    | DefaultReporter => mret tt
    | CustomReporter body => exec (body err ctx)
    end.

(** [EventBus.prototype.deliver] *)
Definition base_deliver (fn type event : value) : M unit :=
  try_catch
    (framed (λ inner out, THandler fn type event inner (thrown out))
       (invoke fn event))
    (λ err, report err (ExnCtx event type fn (VObj (self B)))).

(** [this.executor(task)] *)
Definition run_executor (ex : executor) (t : task) : M unit :=
  framed (λ inner out, TSubmit t inner (thrown out))
    match ex with
    | ExecQueue => modify (λ w, set_queue (queue w ++ [t]) w)
    | ExecInline => base_deliver (task_fn t) (task_type t) (task_event t)
    end.

(** [this.deliver]: [AsyncEventBus] overrides it. *)
Definition deliver (fn type event : value) : M unit :=
  match kind B with
  | SyncBus => base_deliver fn type event
  | AsyncBus ex => run_executor ex (Task fn type event)
  end.

(** [for (const handler of handlersToCall) this.deliver(...)] *)
Fixpoint deliver_all (handlersToCall : list (value * value)) (event : value)
  : M unit :=
  match handlersToCall with
  | [] => mret tt
  | handler :: rest =>
      deliver handler.1 handler.2 event ≫= λ _, deliver_all rest event
  end.

(** [new DeadEvent(this, event)] *)
Definition new_DeadEvent (event : value) : M value := λ w,
  Ok (VDead (length (dead w))) (set_dead (dead w ++ [(VObj (self B), event)]) w).

Definition post_step (event : value) : M nat :=
  if is_nullish event then mret 0
  else
    w0 ← get_world;
    types ← getTypesFor H R fuel event (reg_has (VObj (r_Object R)) (registry w0));
    w1 ← get_world;
    let '(handlersToCall, delivered) := collect (registry w1) (array_at w1 types) in
    deliver_all handlersToCall event ;;
    (if (delivered =? 0) && negb (instanceof_DeadEvent H R event)
     then d ← new_DeadEvent event;
          framed (TPost d) (self_post d) ;; mret tt
     else mret tt) ;;
    mret delivered.

(** A queued task, when the scheduler gets to it. *)
Definition run_task (t : task) : M unit :=
  base_deliver (task_fn t) (task_type t) (task_event t).

End Dispatch.

(** [post] with a bound on the nesting of posts and on the resolver's loop. *)
Fixpoint post (H : heap) (R : realm) (B : bus) (fuel : nat) : value → M nat :=
  match fuel with
  | 0 => λ _ _, Diverge
  | S n => post_step H R B n (post H R B n)
  end.

(** * Vocabulary of the statements *)

Section ResolverSpec.
Variable H : heap.
Variable R : realm.

(** The loop in big-step form: [ctor_chain c l] when the loop started at
    [c] pushes exactly [l] and stops. *)
Inductive ctor_chain : value → list value → Prop :=
| chain_stop c :
    loop_guard R c = false → ctor_chain c []
| chain_step c c' l :
    loop_guard R c = true → next_ctor H R c = Some c' →
    ctor_chain c' l → ctor_chain c (c :: l).

(** The events the resolver looks at: [event] is truthy and
    [typeof event === 'object']. *)
Definition is_object_event (event : value) : bool :=
  truthy event && typeof_object H event.

(** A cache that is root-exclusive: no cached list holds the root. *)
Definition cache_root_exclusive (w : world) : Prop :=
  ∀ i r, typeCache w !! i = Some r → VObj (r_Object R) ∉ array_at w r.

End ResolverSpec.

(** ** Snapshots and what a delivery leaves in the log *)

(** The (handler, type) pairs a [post] is to deliver to: for every resolved
    type in order, the handlers registered under it in insertion order. *)
Definition snapshot (reg : list (value * list hrec)) (types : list value)
  : list (value * value) :=
  types ≫= λ type, (λ rec, (rec_fn rec, type)) <$> default [] (reg_get type reg).

Definition tasks_of (event : value) (hs : list (value * value)) : list task :=
  (λ h, Task h.1 h.2 event) <$> hs.

(** The (handler, type) pair a top-level node of the log was aimed at. *)
Definition target_of (t : tev) : option (value * value) :=
  match t with
  | THandler fn ty _ _ _ => Some (fn, ty)
  | TSubmit t _ _ => Some (task_fn t, task_type t)
  | TReport _ _ _ _ | TPost _ _ _ => None
  end.

Definition is_post (t : tev) : bool :=
  match t with TPost _ _ _ => true | _ => false end.

Section DeliverySpec.
Variable B : bus.
Variable event : value.

Definition ctx_for (fn type : value) : exn_ctx :=
  ExnCtx event type fn (VObj (self B)).

(** [delivered hs tr]: the log [tr] is what delivering [event] to the
    snapshot [hs] leaves when every delivery comes back: one call per
    pair, in order; on the synchronous bus a call that threw is followed
    by exactly one report, which returned; on the deferred bus the call
    is the submission of the task. *)
Inductive delivered : list (value * value) → list tev → Prop :=
| delivered_nil :
    delivered [] []
| delivered_returned fn ty hs tr inner :
    kind B = SyncBus → delivered hs tr →
    delivered ((fn, ty) :: hs) (THandler fn ty event inner None :: tr)
| delivered_caught fn ty hs tr inner e inner' :
    kind B = SyncBus → delivered hs tr →
    delivered ((fn, ty) :: hs)
      (THandler fn ty event inner (Some e)
         :: TReport e (ctx_for fn ty) inner' None :: tr)
| delivered_submitted ex fn ty hs tr inner :
    kind B = AsyncBus ex → (ex = ExecQueue → inner = []) → delivered hs tr →
    delivered ((fn, ty) :: hs) (TSubmit (Task fn ty event) inner None :: tr).

(** On the deferred bus: the node that submitting the task for the pair
    [h] leaves.  A queueing executor runs nothing inside the call. *)
Definition submission (ex : executor) (h : value * value) (t : tev) : Prop :=
  ∃ inner,
    t = TSubmit (Task h.1 h.2 event) inner None
    ∧ (ex = ExecQueue → inner = []).

(** [escaped fn ty e tr]: the log of a delivery to [(fn, ty)] out of
    which [e] came flying: the handler threw and the report of that threw
    [e], or the executor threw [e]. *)
Inductive escaped (fn ty : value) (e : exn) : list tev → Prop :=
| escaped_report inner e0 inner' :
    kind B = SyncBus →
    escaped fn ty e
      [THandler fn ty event inner (Some e0);
       TReport e0 (ctx_for fn ty) inner' (Some e)]
| escaped_executor inner :
    kind B = AsyncBus ExecInline →
    escaped fn ty e [TSubmit (Task fn ty event) inner (Some e)].

End DeliverySpec.

Section PostSpec.
Variable H : heap.
Variable R : realm.
Variable B : bus.
Variable self_post : value → M nat.

(** The last step of [post]: with nothing delivered and an event that is
    not a [DeadEvent], wrap the event and post the wrapper. *)
Definition dead_step (event : value) (delivered : nat) : M nat := λ w2,
  if (delivered =? 0) && negb (instanceof_DeadEvent H R event)
  then
    match framed (TPost (VDead (length (dead w2))))
            (self_post (VDead (length (dead w2))))
            (set_dead (dead w2 ++ [(VObj (self B), event)]) w2) with
    | Ok _ w3 => Ok delivered w3
    | Throw e w3 => Throw e w3
    | Diverge => Diverge
    end
  else Ok delivered w2.

End PostSpec.

(** ** Classes, and the cache as the bus keeps it *)

Section ClassSpec.
Variable H : heap.
Variable R : realm.

(** [c] is a class other than [Object], with [c.prototype] the object
    [p], whose own [constructor] property is [c]. *)
Definition class_at (c : value) (p : loc) : Prop :=
  loop_guard R c = true
  ∧ get_prop H R c "prototype" = VObj p
  ∧ ∃ o, H !! p = Some o ∧ own_prop "constructor" (o_props o) = Some c.

(** [class B extends A]: the prototype of [B.prototype] is [A.prototype]. *)
Definition extends (B A : value) : Prop :=
  ∃ pB pA, class_at B pB ∧ class_at A pA ∧ H !! pB ≫= o_proto = Some pA.

(** [B] is [A] or derives from it, directly or not. *)
Definition derives (B A : value) : Prop := rtc extends B A.

(** [new B(...)]: an object that is not callable, whose prototype is
    [B.prototype], and that has no [constructor] property of its own. *)
Definition instance_of (i : ident) (B : value) : Prop :=
  ∃ pB,
    class_at B pB
    ∧ proto_of_ident H R i = Some pB
    ∧ callable H (VRef i) = false
    ∧ match i with
      | IObj l => ∃ o, H !! l = Some o ∧ own_prop "constructor" (o_props o) = None
      | IDead _ => True
      end.

(** Every cached list is what the loop gives for its object, with or
    without the root at the end. *)
Definition cache_ok (w : world) : Prop :=
  ∀ i r, typeCache w !! i = Some r →
    ∃ chain,
      ctor_chain H R (first_ctor H R (VRef i)) chain
      ∧ (arrays w !! r = Some chain
         ∨ arrays w !! r = Some (chain ++ [VObj (r_Object R)])).

End ClassSpec.

(** [preserves P m]: the computation [m] keeps the invariant [P], however
    it ends. *)
Definition preserves {A} (P : world → Prop) (m : M A) : Prop :=
  ∀ w, P w → match m w with
             | Ok _ w' | Throw _ w' => P w'
             | Diverge => True
             end.

(** ** When a call comes back *)

(** [ends t m]: the computation [m] always comes back; it may come back
    with an exception only when [t] is set. *)
Definition ends {A} (t : bool) (m : M A) : Prop :=
  ∀ w, match m w with
       | Ok _ _ => True
       | Throw _ _ => t = true
       | Diverge => False
       end.

(** A body that posts nothing (and, unless [t] is set, throws nothing). *)
Definition tame (t : bool) (body : list action) : Prop :=
  Forall (λ a, match a with
               | APost _ => False
               | AThrow _ => t = true
               | _ => True
               end) body.

(** No function of the program posts from its body. *)
Definition quiet_heap (H : heap) : Prop :=
  ∀ l o body arg, H !! l = Some o → o_call o = Some body → tame true (body arg).

Definition quiet_reporter (t : bool) (B : bus) : Prop :=
  match exceptionHandler B with
  | DefaultReporter => True
  | CustomReporter body => ∀ e c, tame t (body e c)
  end.

(** The resolver's loop, started for [event], ends within [n] turns. *)
Definition resolves (H : heap) (R : realm) (n : nat) (event : value) : Prop :=
  is_object_event H event = false
  ∨ ∃ chain, ctor_chain H R (first_ctor H R event) chain ∧ length chain ≤ n.

(** ** The registry as the bus keeps it *)

(** The handlers subscribed under [type], in insertion order. *)
Definition handlers_of (w : world) (type : value) : list hrec :=
  default [] (reg_get type (registry w)).

(** What [Map] and [Set] give and what [subscribe] and [unsubscribe] keep:
    a type is a key at most once, no set is empty, a set holds a record at
    most once, and every record was made before the next one will be. *)
Definition reg_wf (w : world) : Prop :=
  NoDup (fst <$> registry w)
  ∧ ∀ type set, (type, set) ∈ registry w →
      set ≠ []
      ∧ NoDup (rec_id <$> set)
      ∧ ∀ rec, rec ∈ set → rec_id rec < next_rec w.

(** ** Class declarations *)

Section HierarchySpec.
Variable H : heap.
Variable R : realm.

(** [class c { }], with no [extends] clause (or with [extends null]): the
    loop of the resolver stops after [c]. *)
Definition base_class (c : value) : Prop :=
  ∃ p c', class_at H R c p
          ∧ next_ctor H R c = Some c' ∧ loop_guard R c' = false.

(** [hierarchy c cs]: [cs] lists [c] and the classes it derives from, each
    one extending the next, the last one extending nothing. *)
Inductive hierarchy : value → list value → Prop :=
| hierarchy_base c :
    base_class c → hierarchy c [c]
| hierarchy_extends c c' cs :
    extends H R c c' → hierarchy c' cs → hierarchy c (c :: cs).

End HierarchySpec.

(** ** The React hooks

    The hooks hold their state in cells that React keeps for the component
    ([useRef], [useState]); the functions below are the closures the hooks
    hand to React, with the cell passed in and out.  All of them work on
    the one bus of the enclosing provider. *)

(** Calls made one after the other, each from the state the one before it
    left and with the value it returned: [l.reduce(f, acc)] for an [f] that
    works on the bus. *)
Fixpoint reduce {A B} (f : B → A → M B) (l : list A) (acc : B) : M B :=
  match l with
  | [] => mret acc
  | x :: l' => f acc x ≫= reduce f l'
  end.

(** [useEventSubscription]: the effect of the hook, its cleanup, and the
    cleanup of the unmount effect.  [current] is [subscriptionRef.current]. *)
Definition subscription_effect (type handler : value)
    (current : option (value * nat)) : M (option (value * nat)) :=
  (match current with
   | Some sub => unsubscribe sub
   | None => mret tt
   end) ;;
  sub ← subscribe type handler;
  mret (Some sub).

Definition subscription_cleanup (current : option (value * nat))
  : M (option (value * nat)) :=
  match current with
  | Some sub => unsubscribe sub ;; mret None
  | None => mret current
  end.

Definition unmount_cleanup (current : option (value * nat))
  : M (option (value * nat)) :=
  match current with
  | Some sub => unsubscribe sub ;; mret current
  | None => mret current
  end.

(** [held w0 current w]: the registry of [w] is that of [w0] but for the
    one record of the subscription in [current], if that is still there. *)
Definition held (w0 : world) (current : option (value * nat)) (w : world)
  : Prop :=
  reg_wf w
  ∧ ∀ w', subscription_cleanup current w = Ok None w' →
          registry w' = registry w0.

(** What React may call, in the order it calls it. *)
Inductive hook_call :=
| RunEffect (type handler : value)
| RunCleanup
| RunUnmountCleanup.

Definition hook_step (current : option (value * nat)) (c : hook_call)
  : M (option (value * nat)) :=
  match c with
  | RunEffect type handler => subscription_effect type handler current
  | RunCleanup => subscription_cleanup current
  | RunUnmountCleanup => unmount_cleanup current
  end.

(** [xs.slice(0, end)], for an integer [end]. *)
Definition slice_to {A} (end_ : Z) (xs : list A) : list A :=
  let len := Z.of_nat (length xs) in
  let final := if (end_ <? 0)%Z then Z.max (len + end_) 0 else Z.min end_ len in
  take (Z.to_nat final) xs.

(** [useEventCollection]: the update it gives to [setEvents] for an event,
    [[
      currentEvents => {
        const newEvents = [event, ...currentEvents];
        return newEvents.slice(0, maxSize);
      }
    ]] *)
Definition collect_event (maxSize : Z) (event : value)
    (currentEvents : list value) : list value :=
  let newEvents := event :: currentEvents in
  slice_to maxSize newEvents.

(** ** What a delivery does to the state

    The relations below say what a call of the dispatcher into client code
    does, in terms of the code that is called: the body of the handler is
    run on the event, and, when it throws, the body of the exception
    handler is run on the error and the context. *)

Section CallSpec.
Variable H : heap.
Variable B : bus.
Variable self_post : value → M nat.

(** The code of the function [fn], when [fn] is one. *)
Definition body_of (fn : value) : option (value → list action) :=
  match fn with
  | VObj l => H !! l ≫= o_call
  | _ => None
  end.

(** [handler_ran fn ty event w out w']: [fn(event)] was called in the state
    [w], for the type [ty]: the body of [fn] ran with [event] as its
    argument and returned ([out = None]) or threw [out]; [w'] is the state
    it left, with the call in the log. *)
Inductive handler_ran (fn ty event : value) (w : world)
  : option exn → world → Prop :=
| handler_returned body w1 :
    body_of fn = Some body →
    exec self_post (body event) (set_trace [] w) = Ok tt w1 →
    handler_ran fn ty event w None
      (set_trace (trace w ++ [THandler fn ty event (trace w1) None]) w1)
| handler_threw body e w1 :
    body_of fn = Some body →
    exec self_post (body event) (set_trace [] w) = Throw e w1 →
    handler_ran fn ty event w (Some e)
      (set_trace (trace w ++ [THandler fn ty event (trace w1) (Some e)]) w1)
| handler_not_a_function :
    body_of fn = None →
    handler_ran fn ty event w (Some (ExnTypeError "fn is not a function"))
      (set_trace
         (trace w ++ [THandler fn ty event []
                        (Some (ExnTypeError "fn is not a function"))]) w).

(** [reporter_ran err ctx w out w']: the exception handler of the bus was
    called with [(err, ctx)] in the state [w]: the default one only logs;
    a custom one has its body run on [err] and [ctx]. *)
Inductive reporter_ran (err : exn) (ctx : exn_ctx) (w : world)
  : option exn → world → Prop :=
| reporter_default :
    exceptionHandler B = DefaultReporter →
    reporter_ran err ctx w None
      (set_trace (trace w ++ [TReport err ctx [] None]) w)
| reporter_returned body w1 :
    exceptionHandler B = CustomReporter body →
    exec self_post (body err ctx) (set_trace [] w) = Ok tt w1 →
    reporter_ran err ctx w None
      (set_trace (trace w ++ [TReport err ctx (trace w1) None]) w1)
| reporter_threw body e w1 :
    exceptionHandler B = CustomReporter body →
    exec self_post (body err ctx) (set_trace [] w) = Throw e w1 →
    reporter_ran err ctx w (Some e)
      (set_trace (trace w ++ [TReport err ctx (trace w1) (Some e)]) w1).

(** [isolated_call fn ty event w out w']: what
    [EventBus.prototype.deliver(fn, ty, event)] does from [w]: the handler
    runs; an error it throws goes to the exception handler, once, with the
    context of this call, and only what the exception handler throws comes
    out. *)
Inductive isolated_call (fn ty event : value) (w : world)
  : option exn → world → Prop :=
| call_returned w' :
    handler_ran fn ty event w None w' →
    isolated_call fn ty event w None w'
| call_reported e w1 out w' :
    handler_ran fn ty event w (Some e) w1 →
    reporter_ran e (ExnCtx event ty fn (VObj (self B))) w1 out w' →
    isolated_call fn ty event w out w'.

(** [delivery fn ty event w out w']: what [this.deliver(fn, ty, event)]
    does from [w] on the bus [B]: the isolated call itself on the
    synchronous bus; on the deferred bus the call of the executor, which
    keeps the task for later or makes the isolated call on the spot. *)
Inductive delivery (fn ty event : value) (w : world)
  : option exn → world → Prop :=
| delivery_direct out w' :
    kind B = SyncBus →
    isolated_call fn ty event w out w' →
    delivery fn ty event w out w'
| delivery_queued :
    kind B = AsyncBus ExecQueue →
    delivery fn ty event w None
      (set_trace (trace w ++ [TSubmit (Task fn ty event) [] None])
         (set_queue (queue w ++ [Task fn ty event]) w))
| delivery_inline out w1 :
    kind B = AsyncBus ExecInline →
    isolated_call fn ty event (set_trace [] w) out w1 →
    delivery fn ty event w out
      (set_trace (trace w ++ [TSubmit (Task fn ty event) (trace w1) out]) w1).

(** [dispatched event hs w w']: the deliveries of [event] to the pairs
    [hs], one after the other from [w], each one returning, end in [w']. *)
Inductive dispatched (event : value)
  : list (value * value) → world → world → Prop :=
| dispatched_nil w :
    dispatched event [] w w
| dispatched_cons fn ty hs w w1 w' :
    delivery fn ty event w None w1 →
    dispatched event hs w1 w' →
    dispatched event ((fn, ty) :: hs) w w'.

End CallSpec.

(** * A program to run

    The object graph of a small client program, after the classes of the
    test suite ([Base], [Sub extends Base], a plain object, handlers made
    with [vi.fn()]), laid out as the language lays it out: a class is a
    function object whose [prototype] property points to an object whose
    [constructor] property points back. *)

Module Js.
Definition Object := 0.
Definition ObjectProto := 1.
Definition FunctionProto := 2.
Definition Function := 3.
Definition DeadEvent := 4.
Definition DeadEventProto := 5.
Definition Base := 6.
Definition BaseProto := 7.
Definition Sub := 8.
Definition SubProto := 9.
Definition aBase := 10.        (* new Base('A') *)
Definition aSub := 11.         (* new Sub('poly') *)
Definition noop := 12.         (* vi.fn() *)
Definition failing := 13.      (* () => { throw 'fail' } *)
Definition plain := 14.        (* { any: 'thing' } *)
Definition odd := 15.          (* { constructor: 5 } *)
Definition theBus := 16.
Definition deadFn := 17.       (* Object.setPrototypeOf(function () {}, DeadEvent.prototype) *)
Definition joiner := 18.       (* () => { bus.subscribe(Base, noop) } *)
Definition leaver := 19.       (* () => { sub0.unsubscribe() } *)
Definition Number := 20.
Definition NumberProto := 21.
Definition Boolean := 22.
Definition BooleanProto := 23.
Definition String := 24.
Definition StringProto := 25.
Definition Symbol := 26.
Definition SymbolProto := 27.
Definition BigInt := 28.
Definition BigIntProto := 29.
Definition Loop := 30.         (* function Loop() {} *)
Definition LoopProto := 31.    (* Loop.prototype = Object.create(loopBase) *)
Definition loopBase := 32.     (* { constructor: Loop } *)
Definition aLoop := 33.        (* new Loop() *)
Definition other := 34.        (* another vi.fn() *)
Definition echo := 35.         (* e => { throw e } *)
Definition relabelled := 36.   (* Object.assign(new Sub('x'), { constructor: Object }) *)
Definition subFn := 37.        (* Object.setPrototypeOf(function () {}, Sub.prototype) *)
End Js.

Definition js_function (proto : loc) (body : value → list action)
    (props : list (string * value)) : obj :=
  Obj (Some proto) (Some body) props.

Definition js_class (parent prototype : loc) : obj :=
  js_function parent (λ _, []) [("prototype", VObj prototype)].

Definition js_prototype (parent : loc) (ctor : loc) : obj :=
  Obj (Some parent) None [("constructor", VObj ctor)].

Definition test_heap : heap := [
  (* Object *)         js_class Js.FunctionProto Js.ObjectProto;
  (* ObjectProto *)    Obj None None [("constructor", VObj Js.Object)];
  (* FunctionProto *)  js_function Js.ObjectProto (λ _, []) [("constructor", VObj Js.Function)];
  (* Function *)       js_class Js.FunctionProto Js.FunctionProto;
  (* DeadEvent *)      js_class Js.FunctionProto Js.DeadEventProto;
  (* DeadEventProto *) js_prototype Js.ObjectProto Js.DeadEvent;
  (* Base *)           js_class Js.FunctionProto Js.BaseProto;
  (* BaseProto *)      js_prototype Js.ObjectProto Js.Base;
  (* Sub *)            js_class Js.Base Js.SubProto;
  (* SubProto *)       js_prototype Js.BaseProto Js.Sub;
  (* aBase *)          Obj (Some Js.BaseProto) None [("id", VStr "A")];
  (* aSub *)           Obj (Some Js.SubProto) None [("id", VStr "poly")];
  (* noop *)           js_function Js.FunctionProto (λ _, []) [];
  (* failing *)        js_function Js.FunctionProto (λ _, [AThrow (VStr "fail")]) [];
  (* plain *)          Obj (Some Js.ObjectProto) None [("any", VStr "thing")];
  (* odd *)            Obj (Some Js.ObjectProto) None [("constructor", VNum 5)];
  (* theBus *)         Obj (Some Js.ObjectProto) None [];
  (* deadFn *)         js_function Js.DeadEventProto (λ _, []) [];
  (* joiner *)         js_function Js.FunctionProto
                         (λ _, [ASubscribe (VObj Js.Base) (VObj Js.noop)]) [];
  (* leaver *)         js_function Js.FunctionProto
                         (λ _, [AUnsubscribe (VObj Js.Base) 1]) [];
  (* Number *)         js_class Js.FunctionProto Js.NumberProto;
  (* NumberProto *)    js_prototype Js.ObjectProto Js.Number;
  (* Boolean *)        js_class Js.FunctionProto Js.BooleanProto;
  (* BooleanProto *)   js_prototype Js.ObjectProto Js.Boolean;
  (* String *)         js_class Js.FunctionProto Js.StringProto;
  (* StringProto *)    js_prototype Js.ObjectProto Js.String;
  (* Symbol *)         js_class Js.FunctionProto Js.SymbolProto;
  (* SymbolProto *)    js_prototype Js.ObjectProto Js.Symbol;
  (* BigInt *)         js_class Js.FunctionProto Js.BigIntProto;
  (* BigIntProto *)    js_prototype Js.ObjectProto Js.BigInt;
  (* Loop *)           js_class Js.FunctionProto Js.LoopProto;
  (* LoopProto *)      Obj (Some Js.loopBase) None [];
  (* loopBase *)       js_prototype Js.ObjectProto Js.Loop;
  (* aLoop *)          Obj (Some Js.LoopProto) None [];
  (* other *)          js_function Js.FunctionProto (λ _, []) [];
  (* echo *)           js_function Js.FunctionProto (λ e, [AThrow e]) [];
  (* relabelled *)     Obj (Some Js.SubProto) None
                         [("id", VStr "x"); ("constructor", VObj Js.Object)];
  (* subFn *)          js_function Js.SubProto (λ _, []) []
].

Definition test_realm : realm :=
  Realm Js.Object Js.DeadEvent Js.DeadEventProto
        Js.BooleanProto Js.NumberProto Js.StringProto Js.SymbolProto
        Js.BigIntProto.

Definition sync_bus : bus := Bus Js.theBus SyncBus DefaultReporter.

Definition queued_bus : bus := Bus Js.theBus (AsyncBus ExecQueue) DefaultReporter.

(** A bus whose exception handler throws what it is given. *)
Definition rethrowing (err : exn) (ctx : exn_ctx) : list action :=
  [AThrow (VStr "reporter failed")].

Definition loud_bus : bus := Bus Js.theBus SyncBus (CustomReporter rethrowing).

Definition loud_queued_bus : bus :=
  Bus Js.theBus (AsyncBus ExecQueue) (CustomReporter rethrowing).

(** The deferred bus [new AsyncEventBus(task => task(), rethrowing)]. *)
Definition loud_inline_bus : bus :=
  Bus Js.theBus (AsyncBus ExecInline) (CustomReporter rethrowing).

(** A bus whose exception handler drops the handlers of the type that
    failed: [(err, ctx) => ctx.eventBus.unsubscribeAll(ctx.eventType)]. *)
Definition muting (err : exn) (ctx : exn_ctx) : list action :=
  [AUnsubscribeAll (ctx_eventType ctx)].

Definition muting_bus : bus := Bus Js.theBus SyncBus (CustomReporter muting).

(** The state a run ends in. *)
Definition final {A} (r : res A) : world :=
  match r with
  | Ok _ w | Throw _ w => w
  | Diverge => new_world
  end.

(** The state after a sequence of calls on a new bus. *)
Definition after {A} (m : M A) : world := final (m new_world).

(** The bus of the test "supports polymorphic dispatch", with a failing
    handler under [Sub]. *)
Definition poly_world : world :=
  after (subscribe (VObj Js.Base) (VObj Js.noop) ;;
         subscribe (VObj Js.Sub) (VObj Js.failing)).

(** That bus after one post of [new Sub('poly')], log emptied. *)
Definition poly_world_again : world :=
  set_trace []
    (final (post test_heap test_realm sync_bus 3 (VObj Js.aSub) poly_world)).

Definition dead_listener_world : world :=
  after (subscribe (VObj Js.DeadEvent) (VObj Js.noop)).

Definition root_world : world :=
  after (subscribe (VObj Js.Object) (VObj Js.noop)).

Definition failing_world : world :=
  after (subscribe (VObj Js.Base) (VObj Js.failing)).

(** [failing] under [Sub], then [echo] and [noop] under [Base]. *)
Definition echo_world : world :=
  after (subscribe (VObj Js.Sub) (VObj Js.failing) ;;
         subscribe (VObj Js.Base) (VObj Js.echo) ;;
         subscribe (VObj Js.Base) (VObj Js.noop)).

(** * Facts *)

(** ** Computations *)

Lemma bind_Ok {A B} (m : M A) (f : A → M B) w b w' :
  (m ≫= f) w = Ok b w' ↔ ∃ a w1, m w = Ok a w1 ∧ f a w1 = Ok b w'.
Proof.
  unfold mbind, M_bind. split.
  - destruct (m w) as [a w1| |]; [eauto | done | done].
  - by intros (a & w1 & -> & ?).
Qed.

Lemma bind_Throw {A B} (m : M A) (f : A → M B) w e w' :
  (m ≫= f) w = Throw e w'
  ↔ m w = Throw e w' ∨ ∃ a w1, m w = Ok a w1 ∧ f a w1 = Throw e w'.
Proof.
  unfold mbind, M_bind. split.
  - destruct (m w) as [a w1| |]; naive_solver.
  - intros [-> | (a & w1 & -> & ?)]; done.
Qed.

Lemma framed_trace {A} mk (m : M A) w :
  match framed mk m w with
  | Ok a w' => ∃ inner, trace w' = trace w ++ [mk inner (inr a)]
  | Throw e w' => ∃ inner, trace w' = trace w ++ [mk inner (inl e)]
  | Diverge => True
  end.
Proof. unfold framed. destruct (m _); simpl; eauto. Qed.

(** ** The resolver's loop *)

Section ResolverFacts.
Variable H : heap.
Variable R : realm.

Lemma walk_sound fuel c l : walk H R fuel c = WOk l → ctor_chain H R c l.
Proof.
  revert c l. induction fuel as [|n IH]; intros c l; simpl.
  - destruct (loop_guard R c) eqn:G; [done|].
    intros [= <-]. by constructor.
  - destruct (loop_guard R c) eqn:G.
    + destruct (next_ctor H R c) as [c'|] eqn:N; [|done].
      destruct (walk H R n c') as [out| |] eqn:W; [|done|done].
      intros [= <-]. econstructor; eauto.
    + intros [= <-]. by constructor.
Qed.

Lemma walk_complete c l :
  ctor_chain H R c l → ∀ fuel, length l ≤ fuel → walk H R fuel c = WOk l.
Proof.
  induction 1 as [c G | c c' l G N _ IH]; intros fuel Hf.
  - destruct fuel; simpl; by rewrite G.
  - destruct fuel as [|n]; simpl in *; [lia|].
    rewrite G N IH; [lia | done].
Qed.

Lemma ctor_chain_det c l1 l2 : ctor_chain H R c l1 → ctor_chain H R c l2 → l1 = l2.
Proof.
  intros C1. revert l2. induction C1 as [c G | c c' l G N _ IH]; intros l2 C2.
  - inversion C2; subst; [done | congruence].
  - inversion C2 as [|? c2 ? ? N2 C2']; subst; [congruence|].
    rewrite N in N2. injection N2 as <-. f_equal. by apply IH.
Qed.

Lemma ctor_chain_guard c l x : ctor_chain H R c l → x ∈ l → loop_guard R x = true.
Proof.
  induction 1 as [|c c' l G N _ IH]; [by intros ?%elem_of_nil|].
  intros [->|?]%elem_of_cons; auto.
Qed.

Lemma ctor_chain_no_Object c l : ctor_chain H R c l → VObj (r_Object R) ∉ l.
Proof.
  intros C Hin. apply (ctor_chain_guard _ _ _ C) in Hin.
  unfold loop_guard in Hin.
  by rewrite bool_decide_eq_true_2 // andb_false_r in Hin.
Qed.

(** Restarting the loop at a constructor it has pushed gives the rest of
    the list. *)
Lemma ctor_chain_from c l x :
  ctor_chain H R c l → x ∈ l →
  ∃ l', ctor_chain H R x l' ∧ length l' ≤ length l.
Proof.
  induction 1 as [|c c' l G N C IH]; [by intros ?%elem_of_nil|].
  intros [->|Hin]%elem_of_cons.
  - exists (c :: l). split; [by econstructor | done].
  - destruct (IH Hin) as (l' & ? & ?). exists l'. split; [done | simpl; lia].
Qed.

(** The loop is a deterministic iteration, so a run that ends cannot
    pass through the same constructor twice. *)
Lemma ctor_chain_NoDup c l : ctor_chain H R c l → NoDup l.
Proof.
  induction 1 as [|c c' l G N C IH]; [constructor|].
  constructor; [|done].
  intros Hin. destruct (ctor_chain_from _ _ _ C Hin) as (l' & C' & Hlen).
  assert (l' = c :: l) as -> by (eapply ctor_chain_det; [done | by econstructor]).
  simpl in Hlen. lia.
Qed.

(** *** [getTypesFor], case by case *)

Lemma is_object_event_ref event :
  is_object_event H event = true → ∃ i, event = VRef i.
Proof.
  unfold is_object_event.
  destruct event; simpl; rewrite ?andb_false_r; try done; eauto.
Qed.

Lemma getTypesFor_unsupported fuel event flag w :
  is_object_event H event = false →
  getTypesFor H R fuel event flag w
  = Ok (length (arrays w)) (set_arrays (arrays w ++ [[]]) w).
Proof.
  unfold is_object_event, getTypesFor. intros E.
  destruct (truthy event), (typeof_object H event); done.
Qed.

Lemma getTypesFor_hit fuel i flag w cached :
  is_object_event H (VRef i) = true →
  typeCache w !! i = Some cached →
  getTypesFor H R fuel (VRef i) flag w
  = if flag && negb (includes (VObj (r_Object R)) (array_at w cached))
    then Ok (length (arrays w))
           (set_arrays (arrays w ++ [array_at w cached ++ [VObj (r_Object R)]]) w)
    else Ok cached w.
Proof.
  unfold is_object_event, getTypesFor. intros E ->.
  destruct (truthy _), (typeof_object H _); done.
Qed.

Lemma getTypesFor_miss fuel i flag w :
  is_object_event H (VRef i) = true →
  typeCache w !! i = None →
  getTypesFor H R fuel (VRef i) flag w
  = match walk H R fuel (first_ctor H R (VRef i)) with
    | WOk out0 =>
        let out := if flag then out0 ++ [VObj (r_Object R)] else out0 in
        Ok (length (arrays w))
           (set_typeCache (<[i := length (arrays w)]> (typeCache w))
              (set_arrays (arrays w ++ [out]) w))
    | WThrow e => Throw e w
    | WDiverge => Diverge
    end.
Proof.
  unfold is_object_event, getTypesFor. intros E ->.
  destruct (truthy _), (typeof_object H _); done.
Qed.

Lemma array_at_alloc w l r :
  array_at (set_arrays (arrays w ++ [l]) w) r
  = if bool_decide (r = length (arrays w)) then l
    else array_at w r.
Proof.
  unfold array_at; simpl. case_bool_decide as E.
  - subst. by rewrite lookup_app_r // Nat.sub_diag.
  - destruct (decide (r < length (arrays w))).
    + by rewrite lookup_app_l.
    + rewrite (lookup_ge_None_2 (arrays w ++ [l])); [rewrite length_app /=; lia|].
      rewrite (lookup_ge_None_2 (arrays w)); [lia | done].
Qed.

Lemma array_at_set_typeCache c w r :
  array_at (set_typeCache c w) r = array_at w r.
Proof. done. Qed.

(** The resolver touches nothing but its cache and the array store, and
    never overwrites an array. *)
Lemma getTypesFor_frame fuel event flag w r w' :
  getTypesFor H R fuel event flag w = Ok r w' →
  registry w' = registry w ∧ next_rec w' = next_rec w ∧ dead w' = dead w
  ∧ queue w' = queue w ∧ trace w' = trace w
  ∧ ∃ new, arrays w' = arrays w ++ new.
Proof.
  destruct (is_object_event H event) eqn:E.
  - destruct (is_object_event_ref _ E) as [i ->].
    destruct (typeCache w !! i) as [cached|] eqn:C.
    + rewrite (getTypesFor_hit _ _ _ _ _ E C).
      destruct (_ && _); intros [= <- <-]; simpl; repeat split; eauto.
      exists []. by rewrite app_nil_r.
    + rewrite (getTypesFor_miss _ _ _ _ E C).
      destruct (walk _ _ _ _); [|done|done].
      intros [= <- <-]; simpl; repeat split; eauto.
  - rewrite getTypesFor_unsupported //.
    intros [= <- <-]; simpl; repeat split; eauto.
Qed.

Lemma getTypesFor_Throw fuel event flag w e w' :
  getTypesFor H R fuel event flag w = Throw e w' → w' = w.
Proof.
  destruct (is_object_event H event) eqn:E.
  - destruct (is_object_event_ref _ E) as [i ->].
    destruct (typeCache w !! i) as [cached|] eqn:C.
    + rewrite (getTypesFor_hit _ _ _ _ _ E C). by destruct (_ && _).
    + rewrite (getTypesFor_miss _ _ _ _ E C).
      destruct (walk _ _ _ _); [done| |done]. by intros [= _ <-].
  - by rewrite getTypesFor_unsupported.
Qed.

End ResolverFacts.

(** ** Dispatch *)

Lemma collect_set_spec type set acc :
  collect_set type set acc
  = (acc.1 ++ ((λ rec, (rec_fn rec, type)) <$> set), acc.2 + length set).
Proof.
  unfold collect_set. revert acc.
  induction set as [|r set IH]; intros [hs n]; simpl.
  - by rewrite app_nil_r Nat.add_0_r.
  - rewrite IH /=. f_equal; [by rewrite -app_assoc | lia].
Qed.

Lemma collect_spec reg types :
  collect reg types = (snapshot reg types, length (snapshot reg types)).
Proof.
  unfold collect, snapshot.
  enough (G : ∀ acc : list (value * value) * nat,
             foldl (λ acc type,
                      match reg_get type reg with
                      | None => acc
                      | Some set =>
                          if length set =? 0 then acc else collect_set type set acc
                      end) acc types
             = (acc.1 ++ (types ≫= λ type,
                            (λ rec, (rec_fn rec, type)) <$> default [] (reg_get type reg)),
                acc.2 + length (types ≫= λ type,
                            (λ rec, (rec_fn rec, type)) <$> default [] (reg_get type reg))))
    by apply G.
  induction types as [|ty types IH]; intros [hs n].
  - cbn. by rewrite app_nil_r Nat.add_0_r.
  - cbn [foldl]. rewrite IH bind_cons length_app length_fmap.
    destruct (reg_get ty reg) as [[|r set]|]; cbn [default fst snd].
    + done.
    + rewrite collect_set_spec. cbn [fst snd Nat.eqb length].
      rewrite -app_assoc. f_equal. unfold id. simpl. lia.
    + done.
Qed.

Section DispatchFacts.
Variable H : heap.
Variable R : realm.
Variable B : bus.
Variable fuel : nat.
Variable self_post : value → M nat.

Lemma base_deliver_Ok fn ty ev w u w' :
  base_deliver H B self_post fn ty ev w = Ok u w' →
  (∃ inner, trace w' = trace w ++ [THandler fn ty ev inner None])
  ∨ (∃ inner e inner',
       trace w' = trace w ++ [THandler fn ty ev inner (Some e);
                              TReport e (ctx_for B ev fn ty) inner' None]).
Proof.
  unfold base_deliver, try_catch.
  pose proof (framed_trace
                (λ inner out, THandler fn ty ev inner (thrown out))
                (invoke H self_post fn ev) w) as F.
  destruct (framed _ _ w) as [a w1|e w1|]; [| |done].
  - intros [= -> ->]. left. destruct F as [inner ->]. eauto.
  - intros Hr. right. destruct F as [inner F].
    pose proof (framed_trace
                  (λ inner out, TReport e (ExnCtx ev ty fn (VObj (self B)))
                                  inner (thrown out))
                  match exceptionHandler B with
                  | DefaultReporter => mret tt
                  | CustomReporter body => exec self_post (body e (ExnCtx ev ty fn (VObj (self B))))
                  end w1) as F2.
    unfold report in Hr. rewrite Hr in F2. destruct F2 as [inner' F2].
    exists inner, e, inner'. by rewrite F2 F -app_assoc.
Qed.

Lemma base_deliver_Throw fn ty ev w e w' :
  base_deliver H B self_post fn ty ev w = Throw e w' →
  ∃ inner e0 inner',
    trace w' = trace w ++ [THandler fn ty ev inner (Some e0);
                           TReport e0 (ctx_for B ev fn ty) inner' (Some e)].
Proof.
  unfold base_deliver, try_catch.
  pose proof (framed_trace
                (λ inner out, THandler fn ty ev inner (thrown out))
                (invoke H self_post fn ev) w) as F.
  destruct (framed _ _ w) as [a w1|e0 w1|]; [done| |done].
  intros Hr. destruct F as [inner F].
  pose proof (framed_trace
                (λ inner out, TReport e0 (ExnCtx ev ty fn (VObj (self B)))
                                inner (thrown out))
                match exceptionHandler B with
                | DefaultReporter => mret tt
                | CustomReporter body => exec self_post (body e0 (ExnCtx ev ty fn (VObj (self B))))
                end w1) as F2.
  unfold report in Hr. rewrite Hr in F2. destruct F2 as [inner' F2].
  exists inner, e0, inner'. by rewrite F2 F -app_assoc.
Qed.

(** A queueing executor only stores the task. *)
Lemma run_executor_queue t w :
  run_executor H B self_post ExecQueue t w
  = Ok tt (set_trace (trace w ++ [TSubmit t [] None])
             (set_queue (queue w ++ [t]) w)).
Proof. by destruct w. Qed.

Lemma deliver_Ok fn ty ev w u w' :
  deliver H B self_post fn ty ev w = Ok u w' →
  ∃ tr, trace w' = trace w ++ tr ∧ delivered B ev [(fn, ty)] tr.
Proof.
  unfold deliver. destruct (kind B) as [|ex] eqn:K.
  - intros [(inner & ->) | (inner & e & inner' & ->)]%base_deliver_Ok;
      eexists; (split; [done|]).
    + apply delivered_returned; [done | constructor].
    + apply delivered_caught; [done | constructor].
  - destruct ex.
    + rewrite run_executor_queue. intros [= _ <-]; simpl.
      eexists; split; [done|].
      by eapply delivered_submitted; [done | | constructor].
    + intros Hr.
      pose proof (framed_trace
                    (λ inner out, TSubmit (Task fn ty ev) inner (thrown out))
                    (base_deliver H B self_post fn ty ev) w) as F.
      unfold run_executor in Hr. simpl in Hr. rewrite Hr in F.
      destruct F as [inner ->]. eexists; split; [done|].
      by eapply delivered_submitted; [done | | constructor].
Qed.

Lemma deliver_Throw fn ty ev w e w' :
  deliver H B self_post fn ty ev w = Throw e w' →
  ∃ tr, trace w' = trace w ++ tr ∧ escaped B ev fn ty e tr.
Proof.
  unfold deliver. destruct (kind B) as [|ex] eqn:K.
  - intros (inner & e0 & inner' & ->)%base_deliver_Throw.
    eexists; split; [done|]. by constructor.
  - destruct ex.
    + by rewrite run_executor_queue.
    + intros Hr.
      pose proof (framed_trace
                    (λ inner out, TSubmit (Task fn ty ev) inner (thrown out))
                    (base_deliver H B self_post fn ty ev) w) as F.
      unfold run_executor in Hr. simpl in Hr. rewrite Hr in F.
      destruct F as [inner ->]. eexists; split; [done|]. by constructor.
Qed.

Lemma delivered_app ev hs1 hs2 tr1 tr2 :
  delivered B ev hs1 tr1 → delivered B ev hs2 tr2 →
  delivered B ev (hs1 ++ hs2) (tr1 ++ tr2).
Proof.
  induction 1; intros D2; simpl; [done| | |];
    econstructor; eauto.
Qed.

Lemma deliver_all_Ok hs ev w u w' :
  deliver_all H B self_post hs ev w = Ok u w' →
  ∃ tr, trace w' = trace w ++ tr ∧ delivered B ev hs tr.
Proof.
  revert w. induction hs as [|[fn ty] hs IH]; intros w; simpl.
  - intros [= _ <-]. exists []. split; [by rewrite app_nil_r | constructor].
  - intros (? & w1 & (tr1 & E1 & D1)%deliver_Ok & (tr2 & E2 & D2)%IH)%bind_Ok.
    exists (tr1 ++ tr2). split; [by rewrite E2 E1 app_assoc|].
    by apply (delivered_app ev [(fn, ty)] hs).
Qed.

Lemma deliver_all_Throw hs ev w e w' :
  deliver_all H B self_post hs ev w = Throw e w' →
  ∃ hs1 fn ty hs2 tr last,
    hs = hs1 ++ (fn, ty) :: hs2
    ∧ trace w' = trace w ++ tr ++ last
    ∧ delivered B ev hs1 tr
    ∧ escaped B ev fn ty e last.
Proof.
  revert w. induction hs as [|[fn ty] hs IH]; intros w; simpl; [done|].
  intros [(last & E & X)%deliver_Throw
         | (? & w1 & (tr1 & E1 & D1)%deliver_Ok & Hrest)]%bind_Throw.
  - exists [], fn, ty, hs, [], last. repeat split; [done | constructor | done].
  - apply IH in Hrest as (hs1 & fn' & ty' & hs2 & tr & last & -> & E2 & D2 & X).
    exists ((fn, ty) :: hs1), fn', ty', hs2, (tr1 ++ tr), last.
    repeat split; [by rewrite E2 E1 !app_assoc | | done].
    by apply (delivered_app ev [(fn, ty)] hs1).
Qed.

Lemma post_step_eq event w :
  is_nullish event = false →
  post_step H R B fuel self_post event w
  = match getTypesFor H R fuel event
            (reg_has (VObj (r_Object R)) (registry w)) w with
    | Ok types w1 =>
        let snap := snapshot (registry w) (array_at w1 types) in
        match deliver_all H B self_post snap event w1 with
        | Ok _ w2 => dead_step H R B self_post event (length snap) w2
        | Throw e w2 => Throw e w2
        | Diverge => Diverge
        end
    | Throw e w1 => Throw e w1
    | Diverge => Diverge
    end.
Proof.
  intros N. unfold post_step. rewrite N.
  unfold mbind, M_bind, get_world; simpl.
  destruct (getTypesFor _ _ _ _ _ w) as [types w1|e w1|] eqn:G; [|done|done].
  destruct (getTypesFor_frame _ _ _ _ _ _ _ _ G) as (-> & _).
  rewrite collect_spec.
  destruct (deliver_all _ _ _ _ _ w1) as [[] w2|e w2|]; [|done|done].
  unfold dead_step, new_DeadEvent, mret, M_ret.
  destruct (_ && _); [|done].
  by destruct (framed _ _ _).
Qed.

End DispatchFacts.

(** ** What [post] does, in terms of the log *)

Lemma delivered_targets B ev hs tr :
  delivered B ev hs tr → omap target_of tr = hs.
Proof. induction 1; simpl; by f_equal. Qed.

Lemma delivered_not_post B ev hs tr :
  delivered B ev hs tr → Forall (λ t, is_post t = false) tr.
Proof. induction 1; repeat constructor; done. Qed.

Lemma delivered_queued B ev hs tr :
  kind B = AsyncBus ExecQueue → delivered B ev hs tr →
  tr = (λ t, TSubmit t [] None) <$> tasks_of ev hs.
Proof.
  intros K. induction 1 as [| | |ex fn ty hs tr inner K' Hin _ IH];
    [done | congruence | congruence |].
  rewrite K in K'. injection K' as <-. rewrite Hin //. simpl. by f_equal.
Qed.

Lemma instanceof_DeadEvent_dead H R n : instanceof_DeadEvent H R (VDead n) = true.
Proof. simpl. by rewrite bool_decide_eq_true_2. Qed.

Lemma snapshot_nil reg types :
  (∀ ty, ty ∈ types → default [] (reg_get ty reg) = []) →
  snapshot reg types = [].
Proof.
  unfold snapshot. induction types as [|ty types IH]; intros Hn; [done|].
  rewrite bind_cons Hn; [by left|]. apply IH. intros ty' ?. apply Hn. by right.
Qed.

Lemma elem_of_snapshot reg types ty set rec :
  ty ∈ types → reg_get ty reg = Some set → rec ∈ set →
  (rec_fn rec, ty) ∈ snapshot reg types.
Proof.
  intros Hty Hget Hrec. unfold snapshot. apply list_elem_of_bind.
  exists ty. split; [|done]. rewrite Hget /=.
  apply list_elem_of_fmap. by exists rec.
Qed.

Section PostFacts.
Variable H : heap.
Variable R : realm.
Variable B : bus.
Variable fuel : nat.
Variable self_post : value → M nat.

Lemma dead_step_skip event delivered w :
  (delivered =? 0) && negb (instanceof_DeadEvent H R event) = false →
  dead_step H R B self_post event delivered w = Ok delivered w.
Proof. unfold dead_step. by intros ->. Qed.

Lemma dead_step_wrap event w :
  instanceof_DeadEvent H R event = false →
  dead_step H R B self_post event 0 w
  = match self_post (VDead (length (dead w)))
            (set_trace [] (set_dead (dead w ++ [(VObj (self B), event)]) w)) with
    | Ok d w2 =>
        Ok 0 (set_trace
                (trace w ++ [TPost (VDead (length (dead w))) (trace w2) (inr d)])
                w2)
    | Throw e w2 =>
        Throw e (set_trace
                   (trace w ++ [TPost (VDead (length (dead w))) (trace w2) (inl e)])
                   w2)
    | Diverge => Diverge
    end.
Proof.
  unfold dead_step, framed. intros ->. simpl.
  by destruct (self_post _ _).
Qed.

Lemma dead_step_Ok event n w d w' :
  dead_step H R B self_post event n w = Ok d w' →
  d = n
  ∧ ((w' = w ∧ (n =? 0) && negb (instanceof_DeadEvent H R event) = false)
     ∨ (n = 0 ∧ instanceof_DeadEvent H R event = false
        ∧ ∃ inner d', trace w' = trace w
                        ++ [TPost (VDead (length (dead w))) inner (inr d')])).
Proof.
  unfold dead_step.
  destruct ((n =? 0) && negb (instanceof_DeadEvent H R event)) eqn:C.
  - apply andb_prop in C as [->%Nat.eqb_eq ?%negb_true_iff].
    pose proof (framed_trace (TPost (VDead (length (dead w))))
                  (self_post (VDead (length (dead w))))
                  (set_dead (dead w ++ [(VObj (self B), event)]) w)) as F.
    destruct (framed _ _ _) as [d' w3| |]; [|done|done].
    intros [= <- <-]. split; [done|]. right. destruct F as [inner F]. eauto 6.
  - intros [= <- <-]. eauto.
Qed.

Lemma dead_step_Throw event n w e w' :
  dead_step H R B self_post event n w = Throw e w' →
  n = 0 ∧ ∃ inner, trace w' = trace w
                     ++ [TPost (VDead (length (dead w))) inner (inl e)].
Proof.
  unfold dead_step.
  destruct ((n =? 0) && negb (instanceof_DeadEvent H R event)) eqn:C; [|done].
  apply andb_prop in C as [->%Nat.eqb_eq _].
  pose proof (framed_trace (TPost (VDead (length (dead w))))
                (self_post (VDead (length (dead w))))
                (set_dead (dead w ++ [(VObj (self B), event)]) w)) as F.
  destruct (framed _ _ _) as [|e' w3|]; [done| |done].
  intros [= <- <-]. split; [done|]. destruct F as [inner F]. eauto.
Qed.

Lemma post_step_unhandled event w types w1 :
  is_nullish event = false →
  getTypesFor H R fuel event (reg_has (VObj (r_Object R)) (registry w)) w
  = Ok types w1 →
  snapshot (registry w) (array_at w1 types) = [] →
  post_step H R B fuel self_post event w
  = dead_step H R B self_post event 0 w1.
Proof. intros N G S. by rewrite post_step_eq // G /= S. Qed.

Lemma post_step_Ok event w d w' :
  is_nullish event = false →
  post_step H R B fuel self_post event w = Ok d w' →
  ∃ types w1 tr rest,
    getTypesFor H R fuel event (reg_has (VObj (r_Object R)) (registry w)) w
    = Ok types w1
    ∧ d = length (snapshot (registry w) (array_at w1 types))
    ∧ trace w' = trace w ++ tr ++ rest
    ∧ delivered B event (snapshot (registry w) (array_at w1 types)) tr
    ∧ (rest = []
       ∨ (snapshot (registry w) (array_at w1 types) = []
          ∧ instanceof_DeadEvent H R event = false
          ∧ ∃ n inner d', rest = [TPost (VDead n) inner (inr d')])).
Proof.
  intros N. rewrite post_step_eq //.
  destruct (getTypesFor _ _ _ _ _ w) as [types w1|e w1|] eqn:G; [|done|done].
  simpl.
  destruct (deliver_all _ _ _ _ _ w1) as [u w2|e w2|] eqn:D; [|done|done].
  apply deliver_all_Ok in D as (tr & E & D).
  destruct (getTypesFor_frame _ _ _ _ _ _ _ _ G) as (_ & _ & _ & _ & T & _).
  intros [-> [[-> _] | (L & I & inner & d' & E')]]%dead_step_Ok.
  - exists types, w1, tr, []. rewrite app_nil_r E T. repeat split; auto.
  - exists types, w1, tr, [TPost (VDead (length (dead w2))) inner (inr d')].
    rewrite E' E T -app_assoc. repeat split; try done.
    right. split; [by apply nil_length_inv | eauto].
Qed.

Lemma post_step_Throw event w e w' :
  is_nullish event = false →
  post_step H R B fuel self_post event w = Throw e w' →
  getTypesFor H R fuel event (reg_has (VObj (r_Object R)) (registry w)) w
  = Throw e w'
  ∨ ∃ types w1,
      getTypesFor H R fuel event (reg_has (VObj (r_Object R)) (registry w)) w
      = Ok types w1
      ∧ ((∃ hs1 fn ty hs2 tr last,
            snapshot (registry w) (array_at w1 types) = hs1 ++ (fn, ty) :: hs2
            ∧ trace w' = trace w ++ tr ++ last
            ∧ delivered B event hs1 tr
            ∧ escaped B event fn ty e last)
         ∨ (snapshot (registry w) (array_at w1 types) = []
            ∧ ∃ n inner, trace w' = trace w ++ [TPost (VDead n) inner (inl e)])).
Proof.
  intros N Hp. rewrite post_step_eq // in Hp.
  destruct (getTypesFor _ _ _ _ _ w) as [types w1|e1 w1|] eqn:G;
    [|by left|done].
  simpl in Hp. right. exists types, w1. split; [done|].
  destruct (getTypesFor_frame _ _ _ _ _ _ _ _ G) as (_ & _ & _ & _ & T & _).
  destruct (deliver_all _ _ _ _ _ w1) as [u w2|e2 w2|] eqn:D; [| |done].
  - apply dead_step_Throw in Hp as [L (inner & E')]. right.
    apply nil_length_inv in L. rewrite L in D. injection D as <-.
    split; [done|]. subst w2. rewrite E' T. eauto.
  - injection Hp as <- <-. left.
    apply deliver_all_Throw in D
      as (hs1 & fn & ty & hs2 & tr & last & S & E & D & X).
    exists hs1, fn, ty, hs2, tr, last. by rewrite E T.
Qed.

End PostFacts.

(** ** Class hierarchies *)

Section ClassFacts.
Variable H : heap.
Variable R : realm.

Lemma lookup_from_own p o key v :
  H !! p = Some o → own_prop key (o_props o) = Some v →
  lookup_from H (Some p) key = v.
Proof. unfold lookup_from. simpl. by intros -> ->. Qed.

Lemma class_at_truthy c p : class_at H R c p → is_nullish c = false.
Proof.
  intros (G & _). unfold loop_guard in G.
  apply andb_prop in G as [G _]. by destruct c.
Qed.

Lemma class_at_ctor c p :
  class_at H R c p → or_null (lookup_from H (Some p) "constructor") = c.
Proof.
  intros C. pose proof (class_at_truthy _ _ C) as N.
  destruct C as (_ & _ & o & Ho & Hc).
  rewrite (lookup_from_own _ _ _ _ Ho Hc). unfold or_null. by rewrite N.
Qed.

Lemma next_ctor_extends B A : extends H R B A → next_ctor H R B = Some A.
Proof.
  intros (pB & pA & CB & CA & Hp). unfold next_ctor.
  destruct CB as (_ & -> & _). simpl. rewrite Hp.
  by rewrite (class_at_ctor _ _ CA).
Qed.

Lemma first_ctor_instance i B : instance_of H R i B → first_ctor H R (VRef i) = B.
Proof.
  intros (pB & CB & Hp & _ & Hown). unfold first_ctor.
  destruct i as [l|n]; simpl in *.
  - destruct Hown as (o & Ho & Hnone). rewrite Ho /= in Hp.
    unfold lookup_from.
    assert (∃ k, length H = S k) as [k Hk].
    { apply lookup_lt_Some in Ho. destruct (length H); [lia | eauto]. }
    rewrite Hk. cbn [lookup_chain]. rewrite Ho Hnone Hp.
    pose proof (class_at_truthy _ _ CB) as N.
    destruct CB as (_ & _ & o' & -> & ->). unfold or_null. by rewrite N.
  - injection Hp as <-. by apply class_at_ctor.
Qed.

Lemma instance_is_object i B :
  instance_of H R i B → is_object_event H (VRef i) = true.
Proof.
  intros (_ & _ & _ & Hc & _). unfold is_object_event. simpl in *.
  by rewrite Hc.
Qed.

Lemma derives_class B A pB :
  class_at H R B pB → derives H R B A → ∃ pA, class_at H R A pA.
Proof.
  intros C D. revert pB C.
  induction D as [|B B' A (pB' & pB'' & _ & C' & _) _ IH]; intros pB C; eauto.
Qed.

(** The loop started at a class passes through every class it derives
    from. *)
Lemma ctor_chain_derives B A pB l :
  class_at H R B pB → derives H R B A → ctor_chain H R B l → A ∈ l.
Proof.
  intros C D. revert pB l C.
  induction D as [B|B B' A E _ IH]; intros pB l C Hl.
  - destruct C as (G & _). inversion Hl; subst; [congruence | by left].
  - pose proof (next_ctor_extends _ _ E) as N.
    destruct E as (_ & pB' & _ & C' & _).
    destruct C as (G & _).
    inversion Hl as [|? c' l' _ N' Hl']; subst; [congruence|].
    rewrite N in N'. injection N' as <-. right. by eapply IH.
Qed.

Lemma ctor_chain_root_NoDup c l :
  ctor_chain H R c l → NoDup (l ++ [VObj (r_Object R)]).
Proof.
  intros C. apply NoDup_app. split; [by eapply ctor_chain_NoDup|].
  split; [|apply NoDup_singleton].
  intros x Hx ->%list_elem_of_singleton.
  by eapply ctor_chain_no_Object.
Qed.

(** *** The cache invariant *)

Lemma cache_ok_new : cache_ok H R new_world.
Proof. intros i r. by rewrite lookup_empty. Qed.

Lemma getTypesFor_chain fuel i flag w types w1 :
  cache_ok H R w →
  is_object_event H (VRef i) = true →
  getTypesFor H R fuel (VRef i) flag w = Ok types w1 →
  ∃ chain,
    ctor_chain H R (first_ctor H R (VRef i)) chain
    ∧ (array_at w1 types = chain
       ∨ array_at w1 types = chain ++ [VObj (r_Object R)]).
Proof.
  intros Hc E G. destruct (typeCache w !! i) as [cached|] eqn:C.
  - rewrite (getTypesFor_hit _ _ _ _ _ _ _ E C) in G.
    destruct (Hc _ _ C) as (chain & Hch & Harr). exists chain. split; [done|].
    assert (Hat : array_at w cached = chain
                  ∨ array_at w cached = chain ++ [VObj (r_Object R)]).
    { unfold array_at. destruct Harr as [-> | ->]; auto. }
    destruct (flag && _) eqn:F; injection G as <- <-; [|done].
    rewrite array_at_alloc bool_decide_eq_true_2 //.
    apply andb_prop in F as [_ F%negb_true_iff%bool_decide_eq_false_1].
    destruct Hat as [-> | Hat]; [by right|].
    exfalso. apply F. rewrite Hat. apply elem_of_app. right. by left.
  - rewrite (getTypesFor_miss _ _ _ _ _ _ E C) in G.
    destruct (walk _ _ _ _) as [out| |] eqn:W; [|done|done].
    injection G as <- <-. exists out. split; [by eapply walk_sound|].
    rewrite array_at_set_typeCache array_at_alloc bool_decide_eq_true_2 //.
    destruct flag; auto.
Qed.

Lemma cache_ok_grow w w' new :
  typeCache w' = typeCache w → arrays w' = arrays w ++ new →
  cache_ok H R w → cache_ok H R w'.
Proof.
  intros Hc Ha Hok i r. rewrite Hc. intros (chain & ? & Harr)%Hok.
  exists chain. split; [done|]. rewrite Ha.
  destruct Harr as [Harr | Harr]; [left | right];
    by apply lookup_app_l_Some.
Qed.

Lemma getTypesFor_preserves fuel event flag :
  preserves (cache_ok H R) (getTypesFor H R fuel event flag).
Proof.
  intros w Hok.
  destruct (getTypesFor H R fuel event flag w) as [types w1|e w1|] eqn:G;
    [|by apply getTypesFor_Throw in G as ->|done].
  destruct (is_object_event H event) eqn:E.
  - destruct (is_object_event_ref _ _ E) as [i ->].
    destruct (typeCache w !! i) as [cached|] eqn:C.
    + rewrite (getTypesFor_hit _ _ _ _ _ _ _ E C) in G.
      destruct (_ && _); injection G as <- <-; [|done].
      by apply (cache_ok_grow w _ [array_at w cached ++ [VObj (r_Object R)]]).
    + rewrite (getTypesFor_miss _ _ _ _ _ _ E C) in G.
      destruct (walk _ _ _ _) as [out| |] eqn:W; [|done|done].
      injection G as <- <-. intros j r. simpl.
      destruct (decide (i = j)) as [<- | Hne].
      * rewrite lookup_insert_eq. intros [= <-].
        exists out. split; [by eapply walk_sound|].
        rewrite lookup_app_r // Nat.sub_diag /=. destruct flag; auto.
      * rewrite lookup_insert_ne //. intros (chain & ? & Harr)%Hok.
        exists chain. split; [done|].
        destruct Harr as [Harr | Harr]; [left | right];
          by apply lookup_app_l_Some.
  - rewrite getTypesFor_unsupported // in G. injection G as <- <-.
    by apply (cache_ok_grow w _ [[]]).
Qed.

End ClassFacts.

(** ** Invariants of the resolver's state are invariants of the bus *)

Section Preservation.
Variable H : heap.
Variable R : realm.
Variable B : bus.
Variable P : world → Prop.

Hypothesis P_frame :
  ∀ w w', typeCache w' = typeCache w → arrays w' = arrays w → P w → P w'.
Hypothesis P_clear : ∀ w, P w → P (set_typeCache ∅ w).
Hypothesis P_resolve :
  ∀ fuel event flag, preserves P (getTypesFor H R fuel event flag).

Lemma preserves_ret {A} (a : A) : preserves P (mret a).
Proof. by intros w. Qed.

Lemma preserves_throw {A} e : preserves P (throw (A:=A) e).
Proof. by intros w. Qed.

Lemma preserves_bind {A A'} (m : M A) (f : A → M A') :
  preserves P m → (∀ a, preserves P (f a)) → preserves P (m ≫= f).
Proof.
  intros Hm Hf w Hw. unfold mbind, M_bind. specialize (Hm w Hw).
  destruct (m w) as [a w1|e w1|]; [|done|done]. by apply Hf.
Qed.

Lemma preserves_try_catch {A} (m : M A) h :
  preserves P m → (∀ e, preserves P (h e)) → preserves P (try_catch m h).
Proof.
  intros Hm Hh w Hw. unfold try_catch. specialize (Hm w Hw).
  destruct (m w) as [a w1|e w1|]; [done| |done]. by apply Hh.
Qed.

Lemma preserves_framed {A} mk (m : M A) :
  preserves P m → preserves P (framed mk m).
Proof.
  intros Hm w Hw. unfold framed.
  assert (Hw0 : P (set_trace [] w)) by by apply (P_frame w).
  specialize (Hm _ Hw0).
  destruct (m _) as [a w1|e w1|]; [| |done]; by apply (P_frame w1).
Qed.

Lemma preserves_frame_only {A} (m : M A) :
  (∀ w, match m w with
        | Ok _ w' | Throw _ w' =>
            typeCache w' = typeCache w ∧ arrays w' = arrays w
        | Diverge => True
        end) →
  preserves P m.
Proof.
  intros Hm w Hw. specialize (Hm w).
  destruct (m w) as [a w1|e w1|]; [| |done]; destruct Hm; by apply (P_frame w).
Qed.

Lemma preserves_subscribe ty fn : preserves P (subscribe ty fn).
Proof. by apply preserves_frame_only. Qed.

Lemma preserves_unsubscribe sub : preserves P (unsubscribe sub).
Proof.
  apply preserves_frame_only. intros w. unfold unsubscribe.
  by destruct (reg_get _ _).
Qed.

Lemma preserves_unsubscribeAll ty : preserves P (unsubscribeAll ty).
Proof. by apply preserves_frame_only. Qed.

Lemma preserves_clear : preserves P clear.
Proof.
  intros w Hw. cbn. apply P_clear.
  by apply (P_frame w (set_registry [] w)).
Qed.

Section Step.
Variable fuel : nat.
Variable self_post : value → M nat.
Hypothesis P_post : ∀ event, preserves P (self_post event).

Lemma preserves_exec body : preserves P (exec self_post body).
Proof.
  induction body as [|a body IH]; [apply preserves_ret|].
  simpl. apply preserves_bind; [|done].
  destruct a; simpl;
    try (apply preserves_bind; [|intros; apply preserves_ret]).
  - apply preserves_subscribe.
  - apply preserves_unsubscribe.
  - apply preserves_unsubscribeAll.
  - apply preserves_clear.
  - by apply preserves_framed.
  - apply preserves_throw.
Qed.

Lemma preserves_invoke fn arg : preserves P (invoke H self_post fn arg).
Proof.
  unfold invoke. destruct fn as [| | | | | | | |[l|n]];
    try apply preserves_throw.
  destruct (H !! l ≫= o_call); [apply preserves_exec | apply preserves_throw].
Qed.

Lemma preserves_report e c : preserves P (report B self_post e c).
Proof.
  apply preserves_framed.
  destruct (exceptionHandler B); [apply preserves_ret | apply preserves_exec].
Qed.

Lemma preserves_base_deliver fn ty ev :
  preserves P (base_deliver H B self_post fn ty ev).
Proof.
  apply preserves_try_catch.
  - apply preserves_framed, preserves_invoke.
  - intros e. apply preserves_report.
Qed.

Lemma preserves_deliver fn ty ev :
  preserves P (deliver H B self_post fn ty ev).
Proof.
  unfold deliver. destruct (kind B) as [|[]].
  - apply preserves_base_deliver.
  - apply preserves_framed. by apply preserves_frame_only.
  - apply preserves_framed, preserves_base_deliver.
Qed.

Lemma preserves_deliver_all hs ev :
  preserves P (deliver_all H B self_post hs ev).
Proof.
  induction hs as [|h hs IH]; [apply preserves_ret|].
  simpl. apply preserves_bind; [apply preserves_deliver | done].
Qed.

Lemma preserves_post_step event :
  preserves P (post_step H R B fuel self_post event).
Proof.
  unfold post_step. destruct (is_nullish event); [apply preserves_ret|].
  apply preserves_bind; [by apply preserves_frame_only|]. intros w0.
  apply preserves_bind; [apply P_resolve|]. intros types.
  apply preserves_bind; [by apply preserves_frame_only|]. intros w1.
  destruct (collect _ _) as [hs d].
  apply preserves_bind; [apply preserves_deliver_all|]. intros _.
  apply preserves_bind; [|intros; apply preserves_ret].
  destruct (_ && _); [|apply preserves_ret].
  apply preserves_bind; [by apply preserves_frame_only|]. intros dv.
  apply preserves_bind; [|intros; apply preserves_ret].
  by apply preserves_framed.
Qed.

End Step.

Lemma preserves_post fuel event : preserves P (post H R B fuel event).
Proof.
  revert event. induction fuel as [|n IH]; intros event; [by intros w|].
  simpl. by apply preserves_post_step.
Qed.

End Preservation.

(** The cache invariant holds on a new bus and after every call. *)
Lemma cache_ok_post H R B fuel event :
  preserves (cache_ok H R) (post H R B fuel event).
Proof.
  apply preserves_post.
  - intros w w' Hc Ha. apply (cache_ok_grow H R w w' []); [done|].
    by rewrite app_nil_r.
  - intros w _ i r. simpl. by rewrite lookup_empty.
  - apply getTypesFor_preserves.
Qed.

Lemma cache_ok_subscribe H R ty fn : preserves (cache_ok H R) (subscribe ty fn).
Proof.
  apply preserves_subscribe. intros w w' Hc Ha.
  apply (cache_ok_grow H R w w' []); [done|]. by rewrite app_nil_r.
Qed.

Lemma cache_ok_unsubscribe H R sub : preserves (cache_ok H R) (unsubscribe sub).
Proof.
  apply preserves_unsubscribe. intros w w' Hc Ha.
  apply (cache_ok_grow H R w w' []); [done|]. by rewrite app_nil_r.
Qed.

(** ** Calls that come back *)

Lemma ends_ret {A} t (a : A) : ends t (mret a).
Proof. by intros w. Qed.

Lemma ends_throw {A} e : ends true (throw (A:=A) e).
Proof. by intros w. Qed.

Lemma ends_weaken {A} t (m : M A) : ends false m → ends t m.
Proof. intros Hm w. specialize (Hm w). by destruct (m w). Qed.

Lemma ends_bind {A A'} t (m : M A) (f : A → M A') :
  ends t m → (∀ a, ends t (f a)) → ends t (m ≫= f).
Proof.
  intros Hm Hf w. unfold mbind, M_bind. specialize (Hm w).
  destruct (m w) as [a w1|e w1|]; [apply Hf | done | done].
Qed.

Lemma ends_try_catch {A} t (m : M A) h :
  ends true m → (∀ e, ends t (h e)) → ends t (try_catch m h).
Proof.
  intros Hm Hh w. unfold try_catch. specialize (Hm w).
  destruct (m w) as [a w1|e w1|]; [done | apply Hh | done].
Qed.

Lemma ends_framed {A} t mk (m : M A) : ends t m → ends t (framed mk m).
Proof.
  intros Hm w. unfold framed. specialize (Hm (set_trace [] w)).
  by destruct (m _).
Qed.

Lemma ends_exec t self_post body : tame t body → ends t (exec self_post body).
Proof.
  induction 1 as [|a body Ha _ IH]; [apply ends_ret|].
  simpl. apply ends_bind; [|done].
  destruct a; simpl; try done.
  - intros w. unfold unsubscribe. by destruct (reg_get _ _).
  - intros w. subst. done.
Qed.

Section Returns.
Variable H : heap.
Variable R : realm.
Variable B : bus.
Variable self_post : value → M nat.
Hypothesis heap_quiet : quiet_heap H.

Lemma ends_invoke fn arg : ends true (invoke H self_post fn arg).
Proof.
  unfold invoke. destruct fn as [| | | | | | | |[l|n]]; try apply ends_throw.
  destruct (H !! l) as [o|] eqn:Ho; simpl; [|apply ends_throw].
  destruct (o_call o) as [body|] eqn:Hb; [|apply ends_throw].
  apply ends_exec. by eapply heap_quiet.
Qed.

Lemma ends_report t e c : quiet_reporter t B → ends t (report B self_post e c).
Proof.
  unfold quiet_reporter, report. intros Hq. apply ends_framed.
  destruct (exceptionHandler B); [apply ends_ret | by apply ends_exec].
Qed.

Lemma ends_base_deliver t fn ty ev :
  quiet_reporter t B → ends t (base_deliver H B self_post fn ty ev).
Proof.
  intros Hq. apply ends_try_catch.
  - apply ends_framed, ends_invoke.
  - intros e. by apply ends_report.
Qed.

Lemma ends_deliver_all t hs ev :
  quiet_reporter t B → ends t (deliver_all H B self_post hs ev).
Proof.
  intros Hq. induction hs as [|h hs IH]; [apply ends_ret|].
  simpl. apply ends_bind; [|done].
  unfold deliver. destruct (kind B) as [|[]].
  - by apply ends_base_deliver.
  - by apply ends_framed.
  - by apply ends_framed, ends_base_deliver.
Qed.

Lemma ends_getTypesFor n event flag :
  resolves H R n event → ends false (getTypesFor H R n event flag).
Proof.
  intros Hr w. destruct (is_object_event H event) eqn:E.
  - destruct (is_object_event_ref _ _ E) as [i ->].
    destruct (typeCache w !! i) as [cached|] eqn:C.
    + rewrite (getTypesFor_hit _ _ _ _ _ _ _ E C). by destruct (_ && _).
    + destruct Hr as [? | (chain & Hch & Hlen)]; [congruence|].
      by rewrite (getTypesFor_miss _ _ _ _ _ _ E C) (walk_complete _ _ _ _ Hch).
  - by rewrite getTypesFor_unsupported.
Qed.

Lemma ends_post_step t n event :
  quiet_reporter t B →
  resolves H R n event →
  (instanceof_DeadEvent H R event = false → ∀ k, ends t (self_post (VDead k))) →
  ends t (post_step H R B n self_post event).
Proof.
  intros Hq Hr Hd w. destruct (is_nullish event) eqn:N.
  { unfold post_step. by rewrite N. }
  rewrite post_step_eq //.
  pose proof (ends_getTypesFor n event
                (reg_has (VObj (r_Object R)) (registry w)) Hr w) as G.
  destruct (getTypesFor _ _ _ _ _ w) as [types w1|e w1|]; [|done|done].
  simpl.
  pose proof (ends_deliver_all t (snapshot (registry w) (array_at w1 types))
                event Hq w1) as D.
  destruct (deliver_all _ _ _ _ _ w1) as [u w2|e w2|]; [|done|done].
  unfold dead_step.
  destruct (_ && negb (instanceof_DeadEvent H R event)) eqn:C; [|done].
  apply andb_prop in C as [_ I%negb_true_iff].
  pose proof (ends_framed t (TPost (VDead (length (dead w2)))) _
                (Hd I (length (dead w2)))
                (set_dead (dead w2 ++ [(VObj (self B), event)]) w2)) as F.
  by destruct (framed _ _ _).
Qed.

End Returns.

(** With handlers that do not post, [post] comes back for every event the
    resolver can handle; with an exception handler that does not throw
    either, it comes back with a count. *)
Lemma ends_post H R B t n event :
  quiet_heap H → quiet_reporter t B →
  resolves H R n event → resolves H R n (VDead 0) →
  ends t (post H R B (S (S n)) event).
Proof.
  intros Hh Hq Hr Hd. simpl.
  apply ends_post_step; try done.
  { destruct Hr as [? | (chain & ? & ?)]; [by left|].
    right. exists chain. split; [done | lia]. }
  intros _ k. apply ends_post_step; try done.
  by rewrite instanceof_DeadEvent_dead.
Qed.

(** ** Snapshots, type by type *)

Lemma snapshot_cons reg ty types :
  snapshot reg (ty :: types)
  = ((λ rec, (rec_fn rec, ty)) <$> default [] (reg_get ty reg))
    ++ snapshot reg types.
Proof. unfold snapshot. by rewrite bind_cons. Qed.

Lemma filter_snapshot_other reg A types :
  A ∉ types → filter (λ h : value * value, h.2 = A) (snapshot reg types) = [].
Proof.
  induction types as [|ty types IH]; intros Hn; [done|].
  apply not_elem_of_cons in Hn as [Hne Hn].
  rewrite snapshot_cons filter_app IH // app_nil_r.
  induction (default [] (reg_get ty reg)) as [|r l IHl]; [done|].
  rewrite fmap_cons filter_cons_False //.
Qed.

Lemma filter_fmap_same A (l : list hrec) :
  filter (λ h : value * value, h.2 = A) ((λ rec, (rec_fn rec, A)) <$> l)
  = (λ rec, (rec_fn rec, A)) <$> l.
Proof.
  induction l as [|r l IH]; [done|].
  by rewrite fmap_cons filter_cons_True // IH.
Qed.

(** Under a type that the resolved list holds once, the snapshot has the
    handlers of that type, each once, in insertion order. *)
Lemma filter_snapshot reg A types :
  NoDup types → A ∈ types →
  filter (λ h : value * value, h.2 = A) (snapshot reg types)
  = (λ rec, (rec_fn rec, A)) <$> default [] (reg_get A reg).
Proof.
  induction 1 as [|ty types Hnot Hnd IH]; [by intros ?%elem_of_nil|].
  rewrite snapshot_cons filter_app.
  intros [->|Hin]%elem_of_cons.
  - by rewrite filter_fmap_same filter_snapshot_other // app_nil_r.
  - rewrite IH //.
    assert (ty ≠ A) as Hne by (intros ->; done).
    assert (filter (λ h : value * value, h.2 = A)
              ((λ rec, (rec_fn rec, ty)) <$> default [] (reg_get ty reg)) = [])
      as ->; [|done].
    induction (default [] (reg_get ty reg)) as [|r l IHl]; [done|].
    by rewrite fmap_cons filter_cons_False.
Qed.

(** ** Steps shared by the claims *)

Lemma getTypesFor_root H R fuel i w types w1 :
  is_object_event H (VRef i) = true →
  getTypesFor H R fuel (VRef i) true w = Ok types w1 →
  VObj (r_Object R) ∈ array_at w1 types.
Proof.
  intros E. destruct (typeCache w !! i) as [cached|] eqn:C.
  - rewrite (getTypesFor_hit _ _ _ _ _ _ _ E C). simpl.
    destruct (includes _ _) eqn:I; simpl; intros [= <- <-].
    + by apply bool_decide_eq_true_1 in I.
    + rewrite array_at_alloc bool_decide_eq_true_2 //.
      apply elem_of_app. right. by left.
  - rewrite (getTypesFor_miss _ _ _ _ _ _ E C).
    destruct (walk _ _ _ _); [|done|done]. intros [= <- <-].
    rewrite array_at_set_typeCache array_at_alloc bool_decide_eq_true_2 //.
    apply elem_of_app. right. by left.
Qed.

Lemma deliver_all_queue H B self_post hs ev w :
  kind B = AsyncBus ExecQueue →
  deliver_all H B self_post hs ev w
  = Ok tt (set_trace (trace w ++ ((λ t, TSubmit t [] None) <$> tasks_of ev hs))
             (set_queue (queue w ++ tasks_of ev hs) w)).
Proof.
  intros K. revert w. induction hs as [|[fn ty] hs IH]; intros w.
  - destruct w; simpl. by rewrite !app_nil_r.
  - cbn [deliver_all]. unfold mbind, M_bind, deliver. rewrite K.
    rewrite run_executor_queue IH. destruct w; simpl.
    by rewrite -!app_assoc.
Qed.

Lemma delivered_async B ev ex hs tr :
  kind B = AsyncBus ex → delivered B ev hs tr →
  Forall2 (submission ev ex) hs tr.
Proof.
  intros K. induction 1 as [| | |ex' fn ty hs tr inner K' Hin _ IH];
    [constructor | congruence | congruence |].
  rewrite K in K'. injection K' as <-.
  constructor; [|done]. by exists inner.
Qed.

(** A [post] of a [DeadEvent] posts no dead event of its own: its log has
    deliveries only. *)
Lemma dead_event_never_wrapped H R B fuel self_post event w d w' :
  instanceof_DeadEvent H R event = true →
  post_step H R B fuel self_post event w = Ok d w' →
  ∃ snap tr,
    trace w' = trace w ++ tr
    ∧ delivered B event snap tr
    ∧ Forall (λ t, is_post t = false) tr.
Proof.
  intros I P. destruct (is_nullish event) eqn:N; [by destruct event|].
  apply post_step_Ok in P as (? & ? & tr & rest & _ & _ & E & D & Hrest); [|done].
  destruct Hrest as [-> | (_ & I' & _)]; [|congruence].
  rewrite app_nil_r in E. eexists _, tr. split; [done|]. split; [done|].
  by eapply delivered_not_post.
Qed.

Lemma wrapper_post_flat H R B n k w d w2 :
  post H R B n (VDead k) w = Ok d w2 →
  trace w = [] → Forall (λ t, is_post t = false) (trace w2).
Proof.
  destruct n as [|n]; [done|]. simpl. intros P Hw.
  apply dead_event_never_wrapped in P as (snap & tr & -> & _ & F);
    [|apply instanceof_DeadEvent_dead].
  by rewrite Hw.
Qed.

Lemma rest_is_post (rest : list tev) :
  rest = [] ∨ (∃ n inner (d' : nat), rest = [TPost (VDead n) inner (inr d')]) →
  Forall (λ t, is_post t = true) rest.
Proof. intros [-> | (n & inner & d' & ->)]; repeat constructor. Qed.

(** ** The test program *)

Lemma test_heap_quiet : quiet_heap test_heap.
Proof.
  intros l o body arg Hl Hb.
  do 38 (destruct l as [|l];
         [injection Hl as <-; first [discriminate Hb | injection Hb as <-];
          repeat constructor|]).
  done.
Qed.

Lemma Sub_extends_Base : extends test_heap test_realm (VObj Js.Sub) (VObj Js.Base).
Proof.
  exists Js.SubProto, Js.BaseProto.
  repeat split; try reflexivity; eexists; split; reflexivity.
Qed.

Lemma aSub_instance_of_Sub :
  instance_of test_heap test_realm (IObj Js.aSub) (VObj Js.Sub).
Proof.
  exists Js.SubProto.
  repeat split; try reflexivity; eexists; split; reflexivity.
Qed.

Lemma aSub_resolves : resolves test_heap test_realm 2 (VObj Js.aSub).
Proof.
  right. exists [VObj Js.Sub; VObj Js.Base]. split; [|simpl; lia].
  apply (walk_sound test_heap test_realm 2). reflexivity.
Qed.

Lemma plain_resolves : resolves test_heap test_realm 2 (VObj Js.plain).
Proof.
  right. exists []. split; [|simpl; lia].
  apply (walk_sound test_heap test_realm 2). reflexivity.
Qed.

Lemma wrapper_resolves k : resolves test_heap test_realm 1 (VDead k).
Proof.
  right. exists [VObj Js.DeadEvent]. split; [|simpl; lia].
  apply (walk_sound test_heap test_realm 1). reflexivity.
Qed.

(** On the test program, the post of a wrapper comes back with a count. *)
Lemma wrapper_post_ends B k :
  quiet_reporter false B →
  ends false (post test_heap test_realm B 2 (VDead k)).
Proof.
  intros Hq. simpl. apply ends_post_step; try done.
  - apply test_heap_quiet.
  - apply wrapper_resolves.
Qed.

Lemma poly_world_again_ok : cache_ok test_heap test_realm poly_world_again.
Proof.
  apply (cache_ok_grow test_heap test_realm
           (final (post test_heap test_realm sync_bus 3 (VObj Js.aSub) poly_world))
           _ []); [done | by rewrite app_nil_r |].
  apply (cache_ok_post test_heap test_realm sync_bus 3 (VObj Js.aSub) poly_world).
  intros i r. by rewrite lookup_empty.
Qed.

(** ** Deliveries, in terms of the code they run *)

Section CallFacts.
Variable H : heap.
Variable R : realm.
Variable B : bus.
Variable fuel : nat.
Variable self_post : value → M nat.

Lemma invoke_body fn arg :
  invoke H self_post fn arg
  = match body_of H fn with
    | Some body => exec self_post (body arg)
    | None => throw (ExnTypeError "fn is not a function")
    end.
Proof. by destruct fn as [| | | | | | | |[l|n]]. Qed.

(** The call of the handler that [deliver] makes. *)
Lemma handler_call fn ty ev w :
  match framed (λ inner out, THandler fn ty ev inner (thrown out))
          (invoke H self_post fn ev) w with
  | Ok _ w' => handler_ran H self_post fn ty ev w None w'
  | Throw e w' => handler_ran H self_post fn ty ev w (Some e) w'
  | Diverge => True
  end.
Proof.
  unfold framed. rewrite invoke_body.
  destruct (body_of H fn) as [body|] eqn:Hb.
  - destruct (exec self_post (body ev) (set_trace [] w)) as [[] w1|e w1|] eqn:X;
      [| |done]; simpl.
    + by eapply handler_returned.
    + by eapply handler_threw.
  - exact (handler_not_a_function H self_post fn ty ev w Hb).
Qed.

(** The call of the exception handler that [deliver] makes. *)
Lemma reporter_call err ctx w :
  match report B self_post err ctx w with
  | Ok _ w' => reporter_ran B self_post err ctx w None w'
  | Throw e w' => reporter_ran B self_post err ctx w (Some e) w'
  | Diverge => True
  end.
Proof.
  unfold report, framed.
  destruct (exceptionHandler B) as [|body] eqn:Hr.
  - exact (reporter_default B self_post err ctx w Hr).
  - destruct (exec self_post (body err ctx) (set_trace [] w))
      as [[] w1|e w1|] eqn:X; [| |done]; simpl.
    + by eapply reporter_returned.
    + by eapply reporter_threw.
Qed.

Lemma base_deliver_call fn ty ev w :
  match base_deliver H B self_post fn ty ev w with
  | Ok _ w' => isolated_call H B self_post fn ty ev w None w'
  | Throw e w' => isolated_call H B self_post fn ty ev w (Some e) w'
  | Diverge => True
  end.
Proof.
  unfold base_deliver, try_catch.
  pose proof (handler_call fn ty ev w) as Hc.
  destruct (framed _ _ w) as [[] w1|e w1|]; [by apply call_returned| |done].
  pose proof (reporter_call e (ExnCtx ev ty fn (VObj (self B))) w1) as Hr.
  destruct (report _ _ _ _ w1) as [[] w2|e' w2|]; [| |done];
    by eapply call_reported.
Qed.

Lemma deliver_delivery fn ty ev w :
  match deliver H B self_post fn ty ev w with
  | Ok _ w' => delivery H B self_post fn ty ev w None w'
  | Throw e w' => delivery H B self_post fn ty ev w (Some e) w'
  | Diverge => True
  end.
Proof.
  unfold deliver. destruct (kind B) as [|[]] eqn:K.
  - pose proof (base_deliver_call fn ty ev w) as Hc.
    destruct (base_deliver _ _ _ _ _ _ w) as [[] w'|e w'|]; [| |done];
      by apply delivery_direct.
  - rewrite run_executor_queue. by apply delivery_queued.
  - unfold run_executor, framed. simpl.
    pose proof (base_deliver_call fn ty ev (set_trace [] w)) as Hc.
    destruct (base_deliver _ _ _ _ _ _ (set_trace [] w)) as [[] w'|e w'|];
      [| |done]; simpl.
    + by apply (delivery_inline H B self_post fn ty ev w None w').
    + by apply (delivery_inline H B self_post fn ty ev w (Some e) w').
Qed.

Lemma deliver_all_dispatched hs ev w :
  match deliver_all H B self_post hs ev w with
  | Ok _ w' => dispatched H B self_post ev hs w w'
  | Throw e w' =>
      ∃ before fn ty later wa,
        hs = before ++ (fn, ty) :: later
        ∧ dispatched H B self_post ev before w wa
        ∧ delivery H B self_post fn ty ev wa (Some e) w'
  | Diverge => True
  end.
Proof.
  revert w. induction hs as [|[fn ty] hs IH]; intros w; [constructor|].
  cbn [deliver_all]. unfold mbind, M_bind. simpl.
  pose proof (deliver_delivery fn ty ev w) as Hd.
  destruct (deliver _ _ _ _ _ _ w) as [[] w1|e w1|]; [| |done].
  - specialize (IH w1).
    destruct (deliver_all _ _ _ _ _ w1) as [[] w'|e w'|]; [| |done].
    + by eapply dispatched_cons.
    + destruct IH as (before & fn' & ty' & later & wa & -> & Hb & Hl).
      exists ((fn, ty) :: before), fn', ty', later, wa.
      split; [done|]. split; [by eapply dispatched_cons | done].
  - exists [], fn, ty, hs, w. split; [done|]. split; [constructor | done].
Qed.

(** The deliveries to a list of pairs are the deliveries to its parts. *)
Lemma dispatched_split ev before h later w w' :
  dispatched H B self_post ev (before ++ h :: later) w w' →
  ∃ wa wb,
    dispatched H B self_post ev before w wa
    ∧ delivery H B self_post h.1 h.2 ev wa None wb
    ∧ dispatched H B self_post ev later wb w'.
Proof.
  revert w. induction before as [|[fn ty] before IH]; intros w; simpl.
  - inversion 1 as [|fn ty hs w0 w1 w0' Hd Hr]; subst.
    exists w, w1. split; [constructor | done].
  - inversion 1 as [|fn' ty' hs w0 w1 w0' Hd Hr]; subst.
    destruct (IH _ Hr) as (wa & wb & Hb & Hh & Hl).
    exists wa, wb. split; [by eapply dispatched_cons | done].
Qed.

(** Only what the exception handler throws comes out of an isolated call. *)
Lemma isolated_call_error fn ty ev w e w' :
  isolated_call H B self_post fn ty ev w (Some e) w' →
  ∃ e0 w1,
    handler_ran H self_post fn ty ev w (Some e0) w1
    ∧ reporter_ran B self_post e0 (ExnCtx ev ty fn (VObj (self B))) w1
        (Some e) w'.
Proof. inversion 1; subst; eauto. Qed.

(** [post], in terms of the deliveries it makes. *)
Lemma post_step_dispatched event w :
  is_nullish event = false →
  match post_step H R B fuel self_post event w with
  | Ok d w' =>
      ∃ types w1 w2,
        getTypesFor H R fuel event (reg_has (VObj (r_Object R)) (registry w)) w
        = Ok types w1
        ∧ dispatched H B self_post event
            (snapshot (registry w) (array_at w1 types)) w1 w2
        ∧ dead_step H R B self_post event
            (length (snapshot (registry w) (array_at w1 types))) w2
          = Ok d w'
  | Throw e w' =>
      getTypesFor H R fuel event (reg_has (VObj (r_Object R)) (registry w)) w
      = Throw e w'
      ∨ ∃ types w1,
          getTypesFor H R fuel event (reg_has (VObj (r_Object R)) (registry w)) w
          = Ok types w1
          ∧ ((∃ before fn ty later wa,
                snapshot (registry w) (array_at w1 types)
                = before ++ (fn, ty) :: later
                ∧ dispatched H B self_post event before w1 wa
                ∧ delivery H B self_post fn ty event wa (Some e) w')
             ∨ ∃ w2,
                 dispatched H B self_post event
                   (snapshot (registry w) (array_at w1 types)) w1 w2
                 ∧ dead_step H R B self_post event
                     (length (snapshot (registry w) (array_at w1 types))) w2
                   = Throw e w')
  | Diverge => True
  end.
Proof.
  intros N. rewrite post_step_eq //.
  destruct (getTypesFor _ _ _ _ _ w) as [types w1|e w1|] eqn:G;
    [|by left|done].
  simpl.
  pose proof (deliver_all_dispatched
                (snapshot (registry w) (array_at w1 types)) event w1) as Hd.
  destruct (deliver_all _ _ _ _ _ w1) as [[] w2|e w2|]; [| |done].
  - destruct (dead_step _ _ _ _ _ _ w2) as [d w'|e w'|] eqn:Hs; [| |done].
    + by exists types, w1, w2.
    + right. exists types, w1. split; [done|]. right. by exists w2.
  - right. exists types, w1. split; [done|]. by left.
Qed.

End CallFacts.

(** * Subscription management *)

(** ** The map operations *)

Lemma reg_get_set_eq k s reg : reg_get k (reg_set k s reg) = Some s.
Proof.
  induction reg as [|[k' s'] reg IH]; simpl.
  - by rewrite bool_decide_eq_true_2.
  - case_bool_decide as E; simpl.
    + by rewrite bool_decide_eq_true_2.
    + by rewrite bool_decide_eq_false_2.
Qed.

Lemma reg_get_set_ne k k' s reg :
  k' ≠ k → reg_get k' (reg_set k s reg) = reg_get k' reg.
Proof.
  intros N. induction reg as [|[k0 s0] reg IH]; simpl.
  - by rewrite bool_decide_eq_false_2.
  - case_bool_decide as E; simpl.
    + subst k0. by rewrite !bool_decide_eq_false_2.
    + by rewrite IH.
Qed.

Lemma reg_get_delete_eq k reg : reg_get k (reg_delete k reg) = None.
Proof.
  unfold reg_delete. induction reg as [|[k' s'] reg IH]; [done|].
  rewrite filter_cons. simpl. case_decide as E; [|done].
  simpl. by rewrite bool_decide_eq_false_2.
Qed.

Lemma reg_get_delete_ne k k' reg :
  k' ≠ k → reg_get k' (reg_delete k reg) = reg_get k' reg.
Proof.
  intros N. unfold reg_delete. induction reg as [|[k0 s0] reg IH]; [done|].
  rewrite filter_cons. simpl. case_decide as E; simpl.
  - by rewrite IH.
  - rewrite IH. subst k0.
    by rewrite bool_decide_eq_false_2.
Qed.

Lemma reg_set_same k s reg : reg_get k reg = Some s → reg_set k s reg = reg.
Proof.
  induction reg as [|[k' s'] reg IH]; [done|]. simpl.
  case_bool_decide as E; [by intros [= ->]; subst|].
  intros G. by rewrite IH.
Qed.

Lemma reg_set_set k s s' reg :
  reg_set k s (reg_set k s' reg) = reg_set k s reg.
Proof.
  induction reg as [|[k0 s0] reg IH]; simpl.
  - by rewrite bool_decide_eq_true_2.
  - case_bool_decide as E; simpl.
    + by rewrite bool_decide_eq_true_2.
    + by rewrite bool_decide_eq_false_2 // IH.
Qed.

Lemma reg_get_None k reg : reg_get k reg = None ↔ k ∉ fst <$> reg.
Proof.
  induction reg as [|[k' s'] reg IH]; simpl.
  - split; [intros _; apply not_elem_of_nil | done].
  - rewrite not_elem_of_cons. case_bool_decide as E.
    + split; [done | by intros [[] _]].
    + rewrite IH. split; [intros ?; split; [congruence | done] | by intros [_ ?]].
Qed.

Lemma reg_get_elem k s reg : reg_get k reg = Some s → (k, s) ∈ reg.
Proof.
  induction reg as [|[k' s'] reg IH]; [done|]. simpl.
  case_bool_decide as E.
  - intros [= ->]. subst. by left.
  - intros ?%IH. by right.
Qed.

Lemma elem_reg_get k s reg :
  NoDup (fst <$> reg) → (k, s) ∈ reg → reg_get k reg = Some s.
Proof.
  induction reg as [|[k' s'] reg IH]; [by intros _ ?%elem_of_nil|].
  rewrite fmap_cons NoDup_cons. intros [Hk Hn] [[= -> ->]|Hin]%elem_of_cons; simpl.
  - by rewrite bool_decide_eq_true_2.
  - rewrite bool_decide_eq_false_2; [|by apply IH].
    intros ->. apply Hk. apply list_elem_of_fmap. by exists (k, s).
Qed.

Lemma reg_delete_absent k reg : reg_get k reg = None → reg_delete k reg = reg.
Proof.
  unfold reg_delete. induction reg as [|[k' s'] reg IH]; [done|]. simpl.
  case_bool_decide as E; [done|]. intros ?%IH.
  rewrite filter_cons decide_True //. by f_equal.
Qed.

Lemma reg_delete_set k s reg :
  reg_delete k (reg_set k s reg) = reg_delete k reg.
Proof.
  unfold reg_delete. induction reg as [|[k' s'] reg IH]; simpl.
  - by rewrite filter_cons decide_False //; intros []; done.
  - case_bool_decide as E.
    + subst k'. rewrite !filter_cons. simpl.
      by rewrite !decide_False //; intros [].
    + rewrite !filter_cons. simpl. by rewrite IH.
Qed.

Lemma elem_reg_set k s k' s' reg :
  (k', s') ∈ reg_set k s reg → (k' = k ∧ s' = s) ∨ (k', s') ∈ reg.
Proof.
  induction reg as [|[k0 s0] reg IH]; simpl.
  - intros [= -> ->]%list_elem_of_singleton. by left.
  - case_bool_decide as E.
    + intros [[= -> ->]|Hin]%elem_of_cons; [by left | right; by right].
    + intros [[= -> ->]|Hin]%elem_of_cons; [right; by left|].
      destruct (IH Hin); [by left | right; by right].
Qed.

Lemma fst_reg_set k s reg :
  fst <$> reg_set k s reg
  = match reg_get k reg with
    | Some _ => fst <$> reg
    | None => (fst <$> reg) ++ [k]
    end.
Proof.
  induction reg as [|[k0 s0] reg IH]; [done|]. cbn [reg_set reg_get].
  case_bool_decide as E; [by subst|].
  rewrite !fmap_cons IH. by destruct (reg_get k reg).
Qed.

Lemma NoDup_reg_set k s reg :
  NoDup (fst <$> reg) → NoDup (fst <$> reg_set k s reg).
Proof.
  intros Hn. rewrite fst_reg_set. destruct (reg_get k reg) eqn:G; [done|].
  apply NoDup_app. split; [done|]. split; [|apply NoDup_singleton].
  intros x Hx ->%list_elem_of_singleton. by apply reg_get_None in G.
Qed.

Lemma NoDup_reg_delete k reg :
  NoDup (fst <$> reg) → NoDup (fst <$> reg_delete k reg).
Proof.
  unfold reg_delete. induction reg as [|[k0 s0] reg IH]; [done|].
  rewrite fmap_cons NoDup_cons. intros [Hk Hn].
  rewrite filter_cons. case_decide; [|by apply IH].
  rewrite fmap_cons NoDup_cons. split; [|by apply IH].
  intros ((k1 & s1) & E & Hin%list_elem_of_filter)%list_elem_of_fmap.
  apply Hk. apply list_elem_of_fmap. exists (k1, s1). by destruct Hin.
Qed.

Lemma elem_reg_delete k e reg : e ∈ reg_delete k reg → e ∈ reg.
Proof. unfold reg_delete. by intros [_ ?]%list_elem_of_filter. Qed.

(** ** The set operations *)

Lemma set_add_fresh rec set :
  (∀ r, r ∈ set → rec_id r < rec_id rec) → set_add rec set = set ++ [rec].
Proof.
  intros Hlt. unfold set_add. rewrite bool_decide_eq_false_2 //.
  intros (r & E & Hin)%list_elem_of_fmap. apply Hlt in Hin. lia.
Qed.

Lemma set_delete_absent rid set :
  rid ∉ rec_id <$> set → set_delete rid set = set.
Proof.
  unfold set_delete. induction set as [|r set IH]; [done|].
  rewrite fmap_cons not_elem_of_cons. intros [N Hn].
  rewrite filter_cons decide_True; [done|]. by rewrite IH.
Qed.

Lemma set_delete_fresh rec set :
  (∀ r, r ∈ set → rec_id r < rec_id rec) →
  set_delete (rec_id rec) (set ++ [rec]) = set.
Proof.
  intros Hlt. unfold set_delete.
  rewrite filter_app filter_cons decide_False; [by intros []|].
  rewrite filter_nil app_nil_r. apply set_delete_absent.
  intros (r & E & Hin)%list_elem_of_fmap. apply Hlt in Hin. lia.
Qed.

Lemma set_delete_length rec set :
  NoDup (rec_id <$> set) → rec ∈ set →
  S (length (set_delete (rec_id rec) set)) = length set.
Proof.
  unfold set_delete. induction set as [|r set IH]; [by intros _ ?%elem_of_nil|].
  rewrite fmap_cons NoDup_cons. intros [Hr Hn] [->|Hin]%elem_of_cons.
  - rewrite filter_cons decide_False; [by intros []|].
    fold (set_delete (rec_id r) set). by rewrite set_delete_absent.
  - rewrite filter_cons decide_True.
    + intros E. apply Hr. rewrite E. by apply list_elem_of_fmap_2.
    + simpl. by rewrite IH.
Qed.

Lemma NoDup_set_delete rid set :
  NoDup (rec_id <$> set) → NoDup (rec_id <$> set_delete rid set).
Proof.
  unfold set_delete. induction set as [|r set IH]; [done|].
  rewrite fmap_cons NoDup_cons. intros [Hr Hn].
  rewrite filter_cons. case_decide; [|by apply IH].
  rewrite fmap_cons NoDup_cons. split; [|by apply IH].
  intros (r' & E & [_ Hin]%list_elem_of_filter)%list_elem_of_fmap.
  apply Hr. rewrite E. by apply list_elem_of_fmap_2.
Qed.

(** ** Reading the registry *)

Lemma getSubscriptionCount_eq type w :
  getSubscriptionCount type w = Ok (length (handlers_of w type)) w.
Proof.
  unfold getSubscriptionCount, handlers_of. by destruct (reg_get _ _).
Qed.

Lemma reg_wf_handlers w type rec :
  reg_wf w → rec ∈ handlers_of w type → rec_id rec < next_rec w.
Proof.
  unfold handlers_of. intros [_ Hw].
  destruct (reg_get _ _) as [set|] eqn:G; [|by intros ?%elem_of_nil].
  apply reg_get_elem in G. destruct (Hw _ _ G) as (_ & _ & Hlt). apply Hlt.
Qed.

(** ** The invariant *)

Lemma reg_wf_new : reg_wf new_world.
Proof. split; [constructor | by intros ?? ?%elem_of_nil]. Qed.

Lemma reg_wf_frame w w' :
  registry w' = registry w → next_rec w' = next_rec w → reg_wf w → reg_wf w'.
Proof. unfold reg_wf. by intros -> ->. Qed.

Lemma reg_wf_subscribe type fn : preserves reg_wf (subscribe type fn).
Proof.
  intros w [Hk Hw]. split; simpl; [by apply NoDup_reg_set|].
  intros ty set [[-> ->]|Hin]%elem_reg_set.
  - assert (Hlt : ∀ r, r ∈ default [] (reg_get type (registry w)) →
                       rec_id r < next_rec w).
    { destruct (reg_get _ _) as [s|] eqn:G; [|by intros ? ?%elem_of_nil].
      apply reg_get_elem in G. by destruct (Hw _ _ G) as (_ & _ & ?). }
    rewrite set_add_fresh //. split; [by destruct (default _ _)|].
    split.
    + rewrite fmap_app. apply NoDup_app. split.
      * destruct (reg_get _ _) as [s|] eqn:G; [|constructor].
        apply reg_get_elem in G. by destruct (Hw _ _ G) as (_ & ? & _).
      * split; [|apply NoDup_singleton].
        intros x (r & E & Hin)%list_elem_of_fmap E'%list_elem_of_singleton.
        apply Hlt in Hin. simpl in E'. lia.
    + intros rec [Hin| ->%list_elem_of_singleton]%elem_of_app; simpl; [|lia].
      apply Hlt in Hin. lia.
  - destruct (Hw _ _ Hin) as (? & ? & Hlt). split; [done|]. split; [done|].
    intros rec Hr. apply Hlt in Hr. lia.
Qed.

Lemma reg_wf_unsubscribe sub : preserves reg_wf (unsubscribe sub).
Proof.
  intros w [Hk Hw]. unfold unsubscribe.
  destruct (reg_get _ _) as [current|] eqn:G; [|done].
  apply reg_get_elem in G. destruct (Hw _ _ G) as (_ & Hn & Hlt).
  destruct (length _ =? 0) eqn:L; split; simpl.
  - by apply NoDup_reg_delete, NoDup_reg_set.
  - intros ty set Hin. unfold reg_delete in Hin.
    apply list_elem_of_filter in Hin as [Hne [[-> _]|Hin]%elem_reg_set]; [done|].
    exact (Hw _ _ Hin).
  - by apply NoDup_reg_set.
  - intros ty set [[-> ->]|Hin]%elem_reg_set; [|exact (Hw _ _ Hin)].
    apply Nat.eqb_neq in L. split; [by intros E; rewrite E in L|].
    split; [by apply NoDup_set_delete|].
    intros rec [_ Hin]%list_elem_of_filter. by apply Hlt.
Qed.

Lemma reg_wf_unsubscribeAll type : preserves reg_wf (unsubscribeAll type).
Proof.
  intros w [Hk Hw]. split; simpl; [by apply NoDup_reg_delete|].
  intros ty set Hin%elem_reg_delete. exact (Hw _ _ Hin).
Qed.

Lemma reg_wf_clear : preserves reg_wf clear.
Proof. intros w _. split; [constructor | by intros ?? ?%elem_of_nil]. Qed.

(** An invariant of the registry is an invariant of the bus: the resolver
    and the log do not touch the registry, and a handler can only go
    through [subscribe], [unsubscribe], [unsubscribeAll], [clear] and
    [post]. *)
Section RegistryPreservation.
Variable H : heap.
Variable R : realm.
Variable B : bus.
Variable P : world → Prop.

Hypothesis P_frame :
  ∀ w w', registry w' = registry w → next_rec w' = next_rec w → P w → P w'.
Hypothesis P_subscribe : ∀ ty fn, preserves P (subscribe ty fn).
Hypothesis P_unsubscribe : ∀ sub, preserves P (unsubscribe sub).
Hypothesis P_unsubscribeAll : ∀ ty, preserves P (unsubscribeAll ty).
Hypothesis P_clear : preserves P clear.

Lemma kept_framed {A} mk (m : M A) : preserves P m → preserves P (framed mk m).
Proof.
  intros Hm w Hw. unfold framed.
  assert (Hw0 : P (set_trace [] w)) by by apply (P_frame w).
  specialize (Hm _ Hw0).
  destruct (m _) as [a w1|e w1|]; [| |done]; by apply (P_frame w1).
Qed.

Lemma kept_frame_only {A} (m : M A) :
  (∀ w, match m w with
        | Ok _ w' | Throw _ w' =>
            registry w' = registry w ∧ next_rec w' = next_rec w
        | Diverge => True
        end) →
  preserves P m.
Proof.
  intros Hm w Hw. specialize (Hm w).
  destruct (m w) as [a w1|e w1|]; [| |done]; destruct Hm; by apply (P_frame w).
Qed.

Lemma kept_getTypesFor fuel event flag :
  preserves P (getTypesFor H R fuel event flag).
Proof.
  apply kept_frame_only. intros w.
  destruct (getTypesFor _ _ _ _ _ w) as [r w1|e w1|] eqn:G; [| |done].
  - by destruct (getTypesFor_frame _ _ _ _ _ _ _ _ G) as (? & ? & _).
  - by rewrite (getTypesFor_Throw _ _ _ _ _ _ _ _ G).
Qed.

Section Step.
Variable fuel : nat.
Variable self_post : value → M nat.
Hypothesis P_post : ∀ event, preserves P (self_post event).

Lemma kept_exec body : preserves P (exec self_post body).
Proof.
  induction body as [|a body IH]; [apply preserves_ret|].
  simpl. apply preserves_bind; [|done].
  destruct a; simpl;
    try (apply preserves_bind; [|intros; apply preserves_ret]); try done.
  - by apply kept_framed.
  - apply preserves_throw.
Qed.

Lemma kept_base_deliver fn ty ev :
  preserves P (base_deliver H B self_post fn ty ev).
Proof.
  apply preserves_try_catch.
  - apply kept_framed. unfold invoke.
    destruct fn as [| | | | | | | |[l|n]]; try exact (preserves_throw P _).
    destruct (H !! l ≫= o_call); [apply kept_exec | exact (preserves_throw P _)].
  - intros e. apply kept_framed.
    destruct (exceptionHandler B); [apply preserves_ret | apply kept_exec].
Qed.

Lemma kept_deliver_all hs ev :
  preserves P (deliver_all H B self_post hs ev).
Proof.
  induction hs as [|h hs IH]; [apply preserves_ret|].
  simpl. apply preserves_bind; [|done].
  unfold deliver. destruct (kind B) as [|[]].
  - apply kept_base_deliver.
  - apply kept_framed. by apply kept_frame_only.
  - apply kept_framed, kept_base_deliver.
Qed.

Lemma kept_post_step event :
  preserves P (post_step H R B fuel self_post event).
Proof.
  unfold post_step. destruct (is_nullish event); [apply preserves_ret|].
  apply preserves_bind; [by apply kept_frame_only|]. intros w0.
  apply preserves_bind; [apply kept_getTypesFor|]. intros types.
  apply preserves_bind; [by apply kept_frame_only|]. intros w1.
  destruct (collect _ _) as [hs d].
  apply preserves_bind; [apply kept_deliver_all|]. intros _.
  apply preserves_bind; [|intros; apply preserves_ret].
  destruct (_ && _); [|apply preserves_ret].
  apply preserves_bind; [by apply kept_frame_only|]. intros dv.
  apply preserves_bind; [|intros; apply preserves_ret].
  by apply kept_framed.
Qed.

End Step.

Lemma kept_post fuel event : preserves P (post H R B fuel event).
Proof.
  revert event. induction fuel as [|n IH]; intros event; [by intros w|].
  simpl. by apply kept_post_step.
Qed.

Lemma kept_run_task fuel t :
  preserves P (run_task H B (post H R B fuel) t).
Proof. apply kept_base_deliver. intros event. apply kept_post. Qed.

End RegistryPreservation.

Lemma reg_wf_post H R B fuel event : preserves reg_wf (post H R B fuel event).
Proof.
  apply kept_post.
  - apply reg_wf_frame.
  - apply reg_wf_subscribe.
  - apply reg_wf_unsubscribe.
  - apply reg_wf_unsubscribeAll.
  - apply reg_wf_clear.
Qed.

(** ** Subscribing and unsubscribing, step by step *)

Lemma set_registry_same w : set_registry (registry w) w = w.
Proof. by destruct w. Qed.

Lemma set_delete_gone rid set : rid ∉ rec_id <$> set_delete rid set.
Proof.
  unfold set_delete.
  intros (r & -> & [N _]%list_elem_of_filter)%list_elem_of_fmap. done.
Qed.

Lemma handlers_of_elem w type rec :
  rec ∈ handlers_of w type →
  reg_get type (registry w) = Some (handlers_of w type).
Proof.
  unfold handlers_of. destruct (reg_get _ _); [done|]. by intros ?%elem_of_nil.
Qed.

(** The state [subscribe] leaves. *)
Lemma subscribe_eq type handler w :
  reg_wf w →
  subscribe type handler w
  = Ok (type, next_rec w)
      (set_next_rec (S (next_rec w))
         (set_registry
            (reg_set type
               (handlers_of w type ++ [HandlerRec (next_rec w) handler])
               (registry w)) w)).
Proof.
  intros Hw. unfold subscribe. fold (handlers_of w type).
  rewrite set_add_fresh //. intros r. by apply reg_wf_handlers.
Qed.

(** The state [unsubscribe] leaves when the record is the last one of its
    set, and when it is not. *)
Lemma unsubscribe_eq type rid w set :
  reg_get type (registry w) = Some set →
  unsubscribe (type, rid) w
  = Ok tt (set_registry
             (match set_delete rid set with
              | [] => reg_delete type (registry w)
              | rest => reg_set type rest (registry w)
              end) w).
Proof.
  intros G. unfold unsubscribe. simpl. rewrite G.
  destruct (set_delete rid set); simpl; [|done].
  by rewrite reg_delete_set.
Qed.

Lemma unsubscribe_twice sub w w' :
  unsubscribe sub w = Ok tt w' → unsubscribe sub w' = Ok tt w'.
Proof.
  destruct sub as [type rid].
  destruct (reg_get type (registry w)) as [set|] eqn:G.
  - rewrite (unsubscribe_eq _ _ _ _ G).
    destruct (set_delete rid set) as [|r rest] eqn:D; intros [= <-].
    + unfold unsubscribe. simpl. by rewrite reg_get_delete_eq.
    + assert (G' : reg_get type (registry (set_registry
                      (reg_set type (r :: rest) (registry w)) w))
                   = Some (r :: rest)) by apply reg_get_set_eq.
      rewrite (unsubscribe_eq _ _ _ _ G') set_delete_absent.
      { rewrite -D. apply set_delete_gone. }
      simpl. by rewrite reg_set_set.
  - unfold unsubscribe. simpl. rewrite G. by intros [= <-]; rewrite G.
Qed.

Lemma subscribe_unsubscribe type handler w :
  reg_wf w →
  (subscribe type handler ≫= unsubscribe) w
  = Ok tt (set_next_rec (S (next_rec w)) w).
Proof.
  intros Hw. unfold mbind, M_bind. rewrite subscribe_eq //.
  erewrite unsubscribe_eq; [|apply reg_get_set_eq].
  rewrite (set_delete_fresh (HandlerRec (next_rec w) handler));
    [intros r; by apply reg_wf_handlers|].
  simpl. unfold handlers_of.
  destruct (reg_get type (registry w)) as [set|] eqn:G; simpl.
  - destruct Hw as [_ Hw].
    destruct (Hw _ _ (reg_get_elem _ _ _ G)) as (Hne & _).
    destruct set; [done|]. rewrite reg_set_set reg_set_same; [done|].
    by destruct w.
  - rewrite reg_delete_set reg_delete_absent; [done|]. by destruct w.
Qed.

(** ** Fixtures *)

Lemma poly_world_wf : reg_wf poly_world.
Proof.
  apply (reg_wf_subscribe (VObj Js.Sub) (VObj Js.failing)
           (after (subscribe (VObj Js.Base) (VObj Js.noop)))).
  apply (reg_wf_subscribe (VObj Js.Base) (VObj Js.noop) new_world).
  apply reg_wf_new.
Qed.

(** ** Counting *)

Lemma filter_all {A} (P : A → Prop) `{∀ x, Decision (P x)} (l : list A) :
  Forall P l → filter P l = l.
Proof.
  induction 1 as [|x l Hx _ IH]; [done|].
  by rewrite filter_cons decide_True // IH.
Qed.

Lemma clear_eq w :
  clear w
  = Ok (sum_list (length <$> (snd <$> registry w)))
      (set_typeCache ∅ (set_registry [] w)).
Proof.
  unfold clear, mbind, M_bind, get_world, modify, clearCache. simpl.
  unfold mret, M_ret. f_equal.
  assert (F : ∀ (l : list (list hrec)) n,
            foldl (λ total set, total + length set) n l
            = n + sum_list (length <$> l)).
  { induction l as [|s l IH]; intros n; simpl; [lia|].
    by rewrite IH Nat.add_assoc. }
  by rewrite F.
Qed.

Lemma active_types_wf w :
  reg_wf w → getActiveEventTypes w = Ok (fst <$> registry w) w.
Proof.
  intros [Hk Hw]. unfold getActiveEventTypes. f_equal.
  apply filter_all. apply Forall_forall.
  intros ty ((ty' & set) & -> & Hin)%list_elem_of_fmap. simpl.
  rewrite (elem_reg_get _ _ _ Hk Hin). simpl.
  destruct (Hw _ _ Hin) as (Hne & _). destruct set; [done | simpl; lia].
Qed.

Lemma counts_wf w :
  reg_wf w →
  (λ type, length (handlers_of w type)) <$> (fst <$> registry w)
  = length <$> (snd <$> registry w).
Proof.
  intros [Hk _]. rewrite -!list_fmap_compose.
  apply Forall_fmap_ext_1, Forall_forall. intros [ty set] Hin. simpl.
  unfold handlers_of. by rewrite (elem_reg_get _ _ _ Hk Hin).
Qed.

(** ** Declared hierarchies *)

Lemma hierarchy_chain H R c cs : hierarchy H R c cs → ctor_chain H R c cs.
Proof.
  induction 1 as [c (p & c' & (G & _) & N & G')|c c' cs E _ IH].
  - exact (chain_step H R c c' [] G N (chain_stop H R c' G')).
  - pose proof (next_ctor_extends _ _ _ _ E) as N.
    destruct E as (pB & _ & (G & _) & _).
    exact (chain_step H R c c' cs G N IH).
Qed.

Lemma instance_chain H R i c cs :
  instance_of H R i c → hierarchy H R c cs →
  ctor_chain H R (first_ctor H R (VRef i)) cs.
Proof.
  intros I Hh. rewrite (first_ctor_instance _ _ _ _ I).
  by apply hierarchy_chain.
Qed.

Lemma resolves_more H R n event : resolves H R n event → resolves H R (S n) event.
Proof.
  intros [? | (chain & ? & ?)]; [by left|].
  right. exists chain. split; [done | lia].
Qed.

Lemma snapshot_length reg types :
  length (snapshot reg types)
  = sum_list ((λ type, length (default [] (reg_get type reg))) <$> types).
Proof.
  unfold snapshot. induction types as [|ty types IH]; [done|].
  by rewrite bind_cons length_app length_fmap IH.
Qed.

(** What [post] counts for an instance of a declared class. *)
Lemma post_step_count H R B fuel self_post i c cs w d w' :
  cache_ok H R w →
  instance_of H R i c →
  hierarchy H R c cs →
  post_step H R B fuel self_post (VRef i) w = Ok d w' →
  d = sum_list ((λ type, length (handlers_of w type))
                  <$> (cs ++ [VObj (r_Object R)])).
Proof.
  intros Hok I Hh P.
  pose proof (instance_is_object _ _ _ _ I) as E.
  pose proof (instance_chain _ _ _ _ _ I Hh) as Hc.
  apply post_step_Ok in P as (types & w1 & _ & _ & G & -> & _); [|done].
  rewrite snapshot_length fmap_app sum_list_with_app. unfold handlers_of.
  simpl.
  destruct (getTypesFor_chain _ _ _ _ _ _ _ _ Hok E G)
    as (chain & Hc' & [A | A]);
    rewrite (ctor_chain_det _ _ _ _ _ Hc' Hc) in A; rewrite A.
  - assert (F : reg_has (VObj (r_Object R)) (registry w) = false).
    { destruct (reg_has _ _) eqn:F; [|done].
      apply getTypesFor_root in G; [|done]. rewrite A in G.
      by apply (ctor_chain_no_Object _ _ _ _ Hc) in G. }
    apply bool_decide_eq_false_1 in F.
    destruct (reg_get (VObj (r_Object R)) (registry w)); [by destruct F|].
    simpl. lia.
  - by rewrite fmap_app sum_list_with_app.
Qed.

(** One more handler under one of the types of a list without repeats is
    one more in the sum of the counts. *)
Lemma sum_counts_one (f g : value → nat) type types :
  NoDup types →
  g type = S (f type) →
  (∀ other, other ≠ type → g other = f other) →
  sum_list (g <$> types)
  = sum_list (f <$> types) + (if bool_decide (type ∈ types) then 1 else 0).
Proof.
  intros Hn Hg Ho. induction Hn as [|ty types Hty _ IH]; [done|].
  rewrite !fmap_cons /= IH.
  destruct (decide (ty = type)) as [-> | N].
  - rewrite Hg (bool_decide_eq_true_2 (type ∈ type :: types)); [by left|].
    rewrite (bool_decide_eq_false_2 (type ∈ types)) //. lia.
  - rewrite (Ho ty N). case_bool_decide as D.
    + rewrite (bool_decide_eq_true_2 (type ∈ ty :: types)); [by right | lia].
    + rewrite (bool_decide_eq_false_2 (type ∈ ty :: types)); [|lia].
      by intros [->|]%elem_of_cons.
Qed.

Lemma Base_is_base_class : base_class test_heap test_realm (VObj Js.Base).
Proof.
  exists Js.BaseProto, (VObj Js.Object).
  repeat split; try reflexivity. eexists; split; reflexivity.
Qed.

Lemma Sub_hierarchy :
  hierarchy test_heap test_realm (VObj Js.Sub) [VObj Js.Sub; VObj Js.Base].
Proof.
  apply (hierarchy_extends _ _ _ (VObj Js.Base)); [apply Sub_extends_Base|].
  apply hierarchy_base, Base_is_base_class.
Qed.

Lemma poly_world_ok : cache_ok test_heap test_realm poly_world.
Proof. intros i r. by rewrite lookup_empty. Qed.

(** ** The subscription a component holds *)

Lemma unsubscribe_Ok sub w : ∃ w', unsubscribe sub w = Ok tt w'.
Proof. unfold unsubscribe. destruct (reg_get _ _); eauto. Qed.

Lemma subscription_cleanup_eq current w :
  ∃ w', subscription_cleanup current w = Ok None w'
        ∧ match current with
          | Some sub => unsubscribe sub w = Ok tt w'
          | None => w' = w
          end.
Proof.
  destruct current as [sub|]; simpl; [|by exists w].
  destruct (unsubscribe_Ok sub w) as [w' U]. exists w'.
  unfold mbind, M_bind. by rewrite U.
Qed.

Lemma held_released w0 current w w' :
  held w0 current w →
  subscription_cleanup current w = Ok None w' →
  held w0 None w'.
Proof.
  intros [Hw Hr] C. split.
  - destruct current as [sub|]; simpl in C.
    + pose proof (reg_wf_unsubscribe sub w Hw) as P.
      unfold mbind, M_bind in C.
      destruct (unsubscribe sub w) as [[] w1| |]; [|done|done].
      by injection C as <-.
    + by injection C as <-.
  - intros w'' [= <-]. by apply Hr.
Qed.

Lemma held_subscribe w0 type handler w :
  held w0 None w →
  ∃ w', subscribe type handler w = Ok (type, next_rec w) w'
        ∧ handlers_of w' type
          = handlers_of w0 type ++ [HandlerRec (next_rec w) handler]
        ∧ (∀ other, other ≠ type → handlers_of w' other = handlers_of w0 other)
        ∧ held w0 (Some (type, next_rec w)) w'.
Proof.
  intros [Hw Hr]. pose proof (Hr w eq_refl) as Hreg.
  pose proof (subscribe_unsubscribe type handler w Hw) as U.
  pose proof (reg_wf_subscribe type handler w Hw) as Hw'.
  rewrite /mbind /M_bind subscribe_eq // in U.
  rewrite subscribe_eq // in Hw'. rewrite subscribe_eq //.
  eexists. split; [done|].
  split; [|split; [|split; [done|]]].
  - rewrite /handlers_of /= reg_get_set_eq /=. by rewrite Hreg.
  - intros other N. by rewrite /handlers_of /= reg_get_set_ne // Hreg.
  - intros w'. simpl. rewrite /mbind /M_bind U. by intros [= <-].
Qed.

Lemma effect_held w0 type handler current w :
  held w0 current w →
  ∃ rid w',
    subscription_effect type handler current w = Ok (Some (type, rid)) w'
    ∧ handlers_of w' type = handlers_of w0 type ++ [HandlerRec rid handler]
    ∧ (∀ other, other ≠ type → handlers_of w' other = handlers_of w0 other)
    ∧ held w0 (Some (type, rid)) w'.
Proof.
  intros Hh. destruct (subscription_cleanup_eq current w) as (w1 & C & U).
  pose proof (held_released _ _ _ _ Hh C) as Hh1.
  destruct (held_subscribe w0 type handler w1 Hh1) as (w2 & S & E & O & Hh2).
  exists (next_rec w1), w2. split; [|done].
  unfold subscription_effect, mbind, M_bind.
  destruct current as [sub|]; [rewrite U | subst w1; cbn -[subscribe]];
    by rewrite S.
Qed.

Lemma hook_step_held w0 current c w :
  held w0 current w →
  ∃ current' w',
    hook_step current c w = Ok current' w' ∧ held w0 current' w'.
Proof.
  intros Hh. destruct c as [type handler| |]; simpl.
  - destruct (effect_held w0 type handler current w Hh)
      as (rid & w' & S & _ & _ & Hh'). eauto.
  - destruct (subscription_cleanup_eq current w) as (w1 & C & U).
    exists None, w1. split; [done|]. by eapply held_released.
  - destruct (subscription_cleanup_eq current w) as (w1 & C & U).
    pose proof (held_released _ _ _ _ Hh C) as [Hw1 Hr1].
    destruct current as [sub|]; simpl; [|by exists None, w].
    exists (Some sub), w1. unfold mbind, M_bind. rewrite U. split; [done|].
    split; [done|].
    intros w'. simpl. rewrite /mbind /M_bind (unsubscribe_twice _ _ _ U).
    intros [= <-]. by apply Hr1.
Qed.

Lemma hook_run_held w0 calls current w :
  held w0 current w →
  ∃ current' w',
    reduce hook_step calls current w = Ok current' w' ∧ held w0 current' w'.
Proof.
  revert current w. induction calls as [|c calls IH]; intros current w Hh.
  - by exists current, w.
  - destruct (hook_step_held w0 current c w Hh) as (current1 & w1 & S & Hh1).
    destruct (IH current1 w1 Hh1) as (current' & w' & Run & Hh').
    exists current', w'. split; [|done].
    simpl. unfold mbind, M_bind. by rewrite S.
Qed.

(** ** Collected events *)

Lemma take_min {A} n (l : list A) : take (n `min` length l) l = take n l.
Proof.
  destruct (decide (n ≤ length l)).
  - by rewrite Nat.min_l.
  - rewrite Nat.min_r; [lia|]. rewrite take_ge // take_ge //. lia.
Qed.

Lemma collect_event_take maxSize event (l : list value) :
  collect_event maxSize event (take (Z.to_nat maxSize) l)
  = take (Z.to_nat maxSize) (event :: l).
Proof.
  unfold collect_event, slice_to. cbn [length].
  rewrite length_take.
  destruct (Z.ltb_spec maxSize 0) as [Hneg | Hpos].
  - replace (Z.to_nat maxSize) with 0 by lia. simpl.
    replace (Z.to_nat _) with 0 by lia. done.
  - destruct (Z.to_nat maxSize) as [|k] eqn:K.
    + replace (Z.to_nat _) with 0 by lia. done.
    + replace (Z.to_nat _) with (S (k `min` length l)) by lia.
      simpl. f_equal. rewrite take_take.
      replace ((k `min` length l) `min` S k) with (k `min` length l) by lia.
      apply take_min.
Qed.

(** * The claims *)

(** C1: an event that no resolved type has a handler for.  When it is a
    [DeadEvent], [post] returns 0 and posts nothing.  Otherwise [post]
    allocates one [DeadEvent] with [source] the bus and [event] the event,
    posts it once, and returns 0 as soon as that post returns; the post of
    the wrapper posts no further dead event. *)
Theorem C1_dead_event_once H R B n event w types w1 :
  is_nullish event = false →
  getTypesFor H R n event (reg_has (VObj (r_Object R)) (registry w)) w
  = Ok types w1 →
  (∀ ty, ty ∈ array_at w1 types → default [] (reg_get ty (registry w)) = []) →
  if instanceof_DeadEvent H R event
  then post H R B (S n) event w = Ok 0 w1
       ∧ trace w1 = trace w ∧ dead w1 = dead w
  else
    let wrapper := VDead (length (dead w)) in
    let w_posted :=
      set_trace [] (set_dead (dead w ++ [(VObj (self B), event)]) w1) in
    post H R B (S n) event w
    = match post H R B n wrapper w_posted with
      | Ok d w2 =>
          Ok 0 (set_trace (trace w ++ [TPost wrapper (trace w2) (inr d)]) w2)
      | Throw e w2 =>
          Throw e (set_trace (trace w ++ [TPost wrapper (trace w2) (inl e)]) w2)
      | Diverge => Diverge
      end
    ∧ ∀ d w2, post H R B n wrapper w_posted = Ok d w2 →
              Forall (λ t, is_post t = false) (trace w2).
Proof.
  intros N G Hnone.
  destruct (getTypesFor_frame _ _ _ _ _ _ _ _ G) as (_ & _ & Hd & _ & Ht & _).
  pose proof (post_step_unhandled H R B n (post H R B n) event w types w1 N G
                (snapshot_nil _ _ Hnone)) as P.
  change (post_step H R B n (post H R B n) event w)
    with (post H R B (S n) event w) in P.
  destruct (instanceof_DeadEvent H R event) eqn:I.
  - rewrite P dead_step_skip; [by rewrite I andb_false_r | done].
  - cbv zeta. rewrite P dead_step_wrap // Hd Ht. split; [done|].
    intros d w2 Hw2. by eapply wrapper_post_flat.
Qed.

Lemma C1_dead_event_once_witness :
  ∃ w1 w2,
    getTypesFor test_heap test_realm 2 (VObj Js.plain)
      (reg_has (VObj (r_Object test_realm)) (registry dead_listener_world))
      dead_listener_world
    = Ok 0 w1
    ∧ post test_heap test_realm sync_bus 2 (VDead 0)
        (set_trace []
           (set_dead (dead dead_listener_world ++ [(VObj Js.theBus, VObj Js.plain)])
              w1))
      = Ok 1 w2
    ∧ post test_heap test_realm sync_bus 3 (VObj Js.plain) dead_listener_world
      = Ok 0 (set_trace
                (trace dead_listener_world ++ [TPost (VDead 0) (trace w2) (inr 1)])
                w2)
    ∧ Forall (λ t, is_post t = false) (trace w2).
Proof.
  eexists _, _. split; [reflexivity|]. split; [reflexivity|].
  assert (Hnone : ∀ ty, ty ∈ @nil value →
                        default [] (reg_get ty (registry dead_listener_world)) = [])
    by (by intros ty ?%elem_of_nil).
  pose proof (C1_dead_event_once test_heap test_realm sync_bus 2 (VObj Js.plain)
                dead_listener_world 0 _ eq_refl eq_refl Hnone) as [Hc Hflat].
  split; [exact Hc | exact (Hflat 1 _ eq_refl)].
Defined.

(** C2, counterexample: [Sub] extends [Base] and a handler is subscribed
    under [Base].  The first posted object has [Sub.prototype] as its
    prototype, so that it is an instance of [Sub] and of [Base]; but it has
    a [constructor] property of its own, which is where the resolver
    starts.  The second is a function with [Sub.prototype] as its
    prototype, an instance of both as well; the resolver gives no type to a
    function.  In neither post is the handler called, and [post], having
    posted a [DeadEvent], returns 0. *)
Lemma C2_counterexample :
  extends test_heap test_realm (VObj Js.Sub) (VObj Js.Base)
  ∧ reg_get (VObj Js.Base)
      (registry (after (subscribe (VObj Js.Base) (VObj Js.noop))))
    = Some [HandlerRec 0 (VObj Js.noop)]
  ∧ (proto_of_ident test_heap test_realm (IObj Js.relabelled) = Some Js.SubProto
     ∧ on_chain test_heap (S (length test_heap))
         (proto_of_ident test_heap test_realm (IObj Js.relabelled)) Js.BaseProto
       = true
     ∧ ∃ w',
         post test_heap test_realm sync_bus 3 (VObj Js.relabelled)
           (after (subscribe (VObj Js.Base) (VObj Js.noop)))
         = Ok 0 w'
         ∧ trace w' = [TPost (VDead 0) [] (inr 0)]
         ∧ dead w' = [(VObj Js.theBus, VObj Js.relabelled)])
  ∧ (proto_of_ident test_heap test_realm (IObj Js.subFn) = Some Js.SubProto
     ∧ on_chain test_heap (S (length test_heap))
         (proto_of_ident test_heap test_realm (IObj Js.subFn)) Js.BaseProto
       = true
     ∧ ∃ w',
         post test_heap test_realm sync_bus 3 (VObj Js.subFn)
           (after (subscribe (VObj Js.Base) (VObj Js.noop)))
         = Ok 0 w'
         ∧ trace w' = [TPost (VDead 0) [] (inr 0)]
         ∧ dead w' = [(VObj Js.theBus, VObj Js.subFn)]).
Proof.
  split; [apply Sub_extends_Base|]. split; [reflexivity|].
  split; (split; [reflexivity|]; split; [reflexivity|]);
    eexists; repeat split; reflexivity.
Qed.

(** C2, amended: [B] derives from [A] (or [A] is the root, [Object]),
    handlers are subscribed under [A], and an instance of [B] as [new B()]
    leaves it is posted: not callable, and with no [constructor] property
    of its own.  With handlers that do not post and an exception handler
    that does not throw, [post] returns.  Whenever it returns, the snapshot
    holds under [A] every handler subscribed under [A] exactly once, in
    insertion order, and the count is the size of the snapshot.  The state
    [post] returns in is the one the deliveries to the pairs of the
    snapshot lead to, made one after the other; the delivery to a handler
    under [A] is one of them, and on the synchronous bus it is the run of
    the body of that handler with the instance as its argument. *)
Theorem C2_polymorphic_dispatch
    H R B fuel self_post clsA clsB b w setA rec :
  cache_ok H R w →
  derives H R clsB clsA ∨ clsA = VObj (r_Object R) →
  instance_of H R b clsB →
  reg_get clsA (registry w) = Some setA →
  rec ∈ setA →
  (quiet_heap H → quiet_reporter false B → resolves H R fuel (VRef b) →
   ∃ d w', post_step H R B fuel self_post (VRef b) w = Ok d w')
  ∧ ∀ d w',
      post_step H R B fuel self_post (VRef b) w = Ok d w' →
      ∃ types w1 snap tr,
        getTypesFor H R fuel (VRef b)
          (reg_has (VObj (r_Object R)) (registry w)) w = Ok types w1
        ∧ snap = snapshot (registry w) (array_at w1 types)
        ∧ filter (λ h : value * value, h.2 = clsA) snap
          = (λ r, (rec_fn r, clsA)) <$> setA
        ∧ d = length snap
        ∧ 1 ≤ length setA ≤ d
        ∧ trace w' = trace w ++ tr
        ∧ delivered B (VRef b) snap tr
        ∧ dispatched H B self_post (VRef b) snap w1 w'
        ∧ ∃ before later wa wb,
            snap = before ++ (rec_fn rec, clsA) :: later
            ∧ dispatched H B self_post (VRef b) before w1 wa
            ∧ delivery H B self_post (rec_fn rec) clsA (VRef b) wa None wb
            ∧ dispatched H B self_post (VRef b) later wb w'.
Proof.
  intros Hok D I Hset Hrec.
  pose proof (instance_is_object _ _ _ _ I) as E.
  assert (Hsnap : ∀ types w1,
            getTypesFor H R fuel (VRef b)
              (reg_has (VObj (r_Object R)) (registry w)) w = Ok types w1 →
            filter (λ h : value * value, h.2 = clsA)
              (snapshot (registry w) (array_at w1 types))
            = (λ r, (rec_fn r, clsA)) <$> setA).
  { intros types w1 G.
    destruct (getTypesFor_chain _ _ _ _ _ _ _ _ Hok E G) as (chain & Hch & Hat).
    assert (Hnd : NoDup (array_at w1 types)).
    { destruct Hat as [-> | ->];
        [by eapply ctor_chain_NoDup | by eapply ctor_chain_root_NoDup]. }
    assert (Hin : clsA ∈ array_at w1 types).
    { destruct D as [D | ->].
      - rewrite (first_ctor_instance _ _ _ _ I) in Hch.
        destruct I as (pB & CB & _).
        pose proof (ctor_chain_derives _ _ _ _ _ _ CB D Hch) as Hin.
        destruct Hat as [-> | ->]; [done | apply elem_of_app; by left].
      - eapply getTypesFor_root; [done|].
        unfold reg_has in G. rewrite Hset bool_decide_eq_true_2 // in G.
        exact G. }
    rewrite (filter_snapshot (registry w) clsA _ Hnd Hin). by rewrite Hset. }
  assert (Hlen : ∀ snap : list (value * value),
            filter (λ h : value * value, h.2 = clsA) snap
            = (λ r, (rec_fn r, clsA)) <$> setA →
            1 ≤ length setA ≤ length snap).
  { intros snap F. split.
    - destruct setA; [by apply elem_of_nil in Hrec | simpl; lia].
    - rewrite -(length_fmap (λ r, (rec_fn r, clsA)) setA) -F. apply length_filter. }
  split.
  - intros Hh Hq Hr. rewrite post_step_eq //.
    pose proof (ends_getTypesFor H R fuel (VRef b)
                  (reg_has (VObj (r_Object R)) (registry w)) Hr w) as G.
    destruct (getTypesFor _ _ _ _ _ w) as [types w1| |] eqn:HG; [|done|done].
    simpl.
    pose proof (ends_deliver_all H B self_post Hh false
                  (snapshot (registry w) (array_at w1 types)) (VRef b) Hq w1) as T.
    destruct (deliver_all _ _ _ _ _ w1) as [u w2| |]; [|done|done].
    eexists _, _. apply dead_step_skip.
    destruct (Hlen _ (Hsnap _ _ eq_refl)) as [? ?].
    destruct (snapshot _ _); [simpl in *; lia | done].
  - intros d w' P.
    pose proof (post_step_dispatched H R B fuel self_post (VRef b) w eq_refl)
      as Hdisp.
    rewrite P in Hdisp. destruct Hdisp as (types & w1 & w2 & G & Hd & Hdead).
    apply post_step_Ok in P
      as (types' & w1' & tr & rest & G' & -> & Et & Dl & Hrest); [|done].
    rewrite G in G'. injection G' as <- <-.
    pose proof (Hsnap _ _ G) as F. destruct (Hlen _ F) as [Hl1 Hl2].
    rewrite dead_step_skip in Hdead.
    { destruct (snapshot _ _); [simpl in Hl2; lia | done]. }
    injection Hdead as <-.
    exists types, w1, (snapshot (registry w) (array_at w1 types)), tr.
    destruct Hrest as [-> | (Hnil & _)];
      [|rewrite Hnil in Hl2; simpl in Hl2; lia].
    rewrite app_nil_r in Et. do 8 (split; [done|]).
    assert (Hin : (rec_fn rec, clsA)
                  ∈ snapshot (registry w) (array_at w1 types)).
    { assert (Hf : (rec_fn rec, clsA) ∈ (λ r, (rec_fn r, clsA)) <$> setA)
        by (apply list_elem_of_fmap; by exists rec).
      rewrite -F in Hf. by apply list_elem_of_filter in Hf as [_ ?]. }
    apply list_elem_of_split in Hin as (before & later & Hs).
    rewrite Hs in Hd.
    apply dispatched_split in Hd as (wa & wb & Hb & Hh & Hl).
    by exists before, later, wa, wb.
Qed.

(** [failing] under [Sub], then [echo] and [noop] under [Base], and a post
    of [new Sub('poly')]: every handler is called with the instance, which
    is what [echo] throws. *)
Lemma C2_polymorphic_dispatch_witness :
  cache_ok test_heap test_realm echo_world
  ∧ reg_get (VObj Js.Base) (registry echo_world)
    = Some [HandlerRec 1 (VObj Js.echo); HandlerRec 2 (VObj Js.noop)]
  ∧ (∃ d w',
       post_step test_heap test_realm sync_bus 2
         (post test_heap test_realm sync_bus 2) (VObj Js.aSub) echo_world
       = Ok d w')
  ∧ ∃ w' w1 wa wb,
      post_step test_heap test_realm sync_bus 2
        (post test_heap test_realm sync_bus 2) (VObj Js.aSub) echo_world
      = Ok 3 w'
      ∧ trace w'
        = [THandler (VObj Js.failing) (VObj Js.Sub) (VObj Js.aSub) []
             (Some (ExnValue (VStr "fail")));
           TReport (ExnValue (VStr "fail"))
             (ExnCtx (VObj Js.aSub) (VObj Js.Sub) (VObj Js.failing)
                (VObj Js.theBus))
             [] None;
           THandler (VObj Js.echo) (VObj Js.Base) (VObj Js.aSub) []
             (Some (ExnValue (VObj Js.aSub)));
           TReport (ExnValue (VObj Js.aSub))
             (ExnCtx (VObj Js.aSub) (VObj Js.Base) (VObj Js.echo)
                (VObj Js.theBus))
             [] None;
           THandler (VObj Js.noop) (VObj Js.Base) (VObj Js.aSub) [] None]
      ∧ dispatched test_heap sync_bus (post test_heap test_realm sync_bus 2)
          (VObj Js.aSub)
          [(VObj Js.failing, VObj Js.Sub); (VObj Js.echo, VObj Js.Base);
           (VObj Js.noop, VObj Js.Base)] w1 w'
      ∧ delivery test_heap sync_bus (post test_heap test_realm sync_bus 2)
          (VObj Js.echo) (VObj Js.Base) (VObj Js.aSub) wa None wb.
Proof.
  assert (Hok : cache_ok test_heap test_realm echo_world).
  { intros i r. by rewrite lookup_empty. }
  split; [exact Hok|]. split; [reflexivity|].
  destruct (C2_polymorphic_dispatch test_heap test_realm sync_bus 2
              (post test_heap test_realm sync_bus 2)
              (VObj Js.Base) (VObj Js.Sub) (IObj Js.aSub) echo_world
              [HandlerRec 1 (VObj Js.echo); HandlerRec 2 (VObj Js.noop)]
              (HandlerRec 1 (VObj Js.echo))
              Hok (or_introl (rtc_once _ _ Sub_extends_Base))
              aSub_instance_of_Sub eq_refl (list_elem_of_here _ _))
    as [Hreturns Hshape].
  split; [exact (Hreturns test_heap_quiet I aSub_resolves)|].
  assert (Hrun : post_step test_heap test_realm sync_bus 2
                   (post test_heap test_realm sync_bus 2) (VObj Js.aSub)
                   echo_world
                 = Ok 3 (final (post test_heap test_realm sync_bus 3 (VObj Js.aSub)
                                  echo_world)))
    by reflexivity.
  destruct (Hshape 3 _ Hrun)
    as (types & w1 & snap & tr & G & Hs & _ & _ & _ & _ & _ & Hd & Hone).
  destruct Hone as (before & later & wa & wb & _ & _ & Hdel & _).
  exists (final (post test_heap test_realm sync_bus 3 (VObj Js.aSub) echo_world)),
    w1, wa, wb.
  split; [exact Hrun|]. split; [reflexivity|]. split; [|exact Hdel].
  vm_compute in G. injection G as <- <-. rewrite Hs in Hd. exact Hd.
Defined.

(** C3, counterexample: [leaver] and [noop] are subscribed under [Base], in
    that order, and [leaver] unsubscribes [noop] when it is called.  A post
    calls [leaver], after which [noop] is gone from the registry, and then
    still calls [noop] with the event in flight: the handler unsubscribed
    during the delivery does receive the event. *)
Lemma C3_counterexample :
  ∃ w w_mid w',
    w = after (subscribe (VObj Js.Base) (VObj Js.leaver) ;;
               subscribe (VObj Js.Base) (VObj Js.noop))
    ∧ registry w
      = [(VObj Js.Base, [HandlerRec 0 (VObj Js.leaver); HandlerRec 1 (VObj Js.noop)])]
    ∧ invoke test_heap (post test_heap test_realm sync_bus 2)
        (VObj Js.leaver) (VObj Js.aBase) w = Ok tt w_mid
    ∧ registry w_mid = [(VObj Js.Base, [HandlerRec 0 (VObj Js.leaver)])]
    ∧ post test_heap test_realm sync_bus 3 (VObj Js.aBase) w = Ok 2 w'
    ∧ trace w'
      = [THandler (VObj Js.leaver) (VObj Js.Base) (VObj Js.aBase) [] None;
         THandler (VObj Js.noop) (VObj Js.Base) (VObj Js.aBase) [] None]
    ∧ registry w' = [(VObj Js.Base, [HandlerRec 0 (VObj Js.leaver)])].
Proof. eexists _, _, _. repeat split; reflexivity. Qed.

(** C3, amended: with handlers that do not post and an exception handler
    that does not throw, [post] returns, whether or not handlers throw.
    Whenever [post] returns, its count is the size of the snapshot, taken
    from the registry as it was when [post] was entered; the top-level
    calls in the log are the snapshot, pair for pair and in order, whatever
    the handlers did (threw, subscribed, unsubscribed, posted): a handler
    subscribed during the delivery is not called, a handler of the snapshot
    unsubscribed during the delivery is still called, and neither changes
    the count.  Anything after those calls is the one post of the dead
    event. *)
Theorem C3_post_counts_snapshot H R B fuel self_post event w :
  is_nullish event = false →
  (quiet_heap H → quiet_reporter false B → resolves H R fuel event →
   (∀ k, ends false (self_post (VDead k))) →
   ∃ d w', post_step H R B fuel self_post event w = Ok d w')
  ∧ ∀ d w',
      post_step H R B fuel self_post event w = Ok d w' →
      ∃ types w1 tr rest,
        getTypesFor H R fuel event (reg_has (VObj (r_Object R)) (registry w)) w
        = Ok types w1
        ∧ d = length (snapshot (registry w) (array_at w1 types))
        ∧ trace w' = trace w ++ tr ++ rest
        ∧ delivered B event (snapshot (registry w) (array_at w1 types)) tr
        ∧ omap target_of tr = snapshot (registry w) (array_at w1 types)
        ∧ Forall (λ t, is_post t = true) rest.
Proof.
  intros N. split.
  - intros Hh Hq Hr Hd.
    pose proof (ends_post_step H R B self_post Hh false fuel event Hq Hr
                  (λ _, Hd) w) as T.
    destruct (post_step H R B fuel self_post event w) as [d w'| |];
      [eauto | done | done].
  - intros d w' (types & w1 & tr & rest & G & -> & E & D & Hrest)%post_step_Ok;
      [|done].
    exists types, w1, tr, rest. repeat split; try done.
    + by eapply delivered_targets.
    + apply rest_is_post. destruct Hrest as [-> | (_ & _ & Hr)]; auto.
Qed.

Lemma C3_post_counts_snapshot_witness :
  (∃ d w',
     post_step test_heap test_realm sync_bus 2
       (post test_heap test_realm sync_bus 2) (VObj Js.aSub) poly_world = Ok d w')
  ∧ ∃ w' types w1 tr rest,
      post_step test_heap test_realm sync_bus 2
        (post test_heap test_realm sync_bus 2) (VObj Js.aSub) poly_world = Ok 2 w'
      ∧ getTypesFor test_heap test_realm 2 (VObj Js.aSub)
          (reg_has (VObj (r_Object test_realm)) (registry poly_world)) poly_world
        = Ok types w1
      ∧ 2 = length (snapshot (registry poly_world) (array_at w1 types))
      ∧ trace w' = trace poly_world ++ tr ++ rest
      ∧ delivered sync_bus (VObj Js.aSub)
          (snapshot (registry poly_world) (array_at w1 types)) tr
      ∧ omap target_of tr = snapshot (registry poly_world) (array_at w1 types)
      ∧ Forall (λ t, is_post t = true) rest.
Proof.
  destruct (C3_post_counts_snapshot test_heap test_realm sync_bus 2
              (post test_heap test_realm sync_bus 2) (VObj Js.aSub) poly_world
              eq_refl)
    as [Hreturns Hshape].
  split.
  { apply (Hreturns test_heap_quiet I aSub_resolves).
    intros k. by apply wrapper_post_ends. }
  eexists.
  assert (Hrun : post_step test_heap test_realm sync_bus 2
                   (post test_heap test_realm sync_bus 2) (VObj Js.aSub) poly_world
                 = Ok 2 (final (post test_heap test_realm sync_bus 3
                                  (VObj Js.aSub) poly_world)))
    by reflexivity.
  destruct (Hshape 2 _ Hrun) as (types & w1 & tr & rest & Hc).
  exists types, w1, tr, rest. split; [exact Hrun | exact Hc].
Defined.

(** The run of the test "continues delivering to other handlers after one
    throws", with the handlers under [Sub] and [Base]. *)
Example post_past_a_failing_handler :
  ∃ w',
    post test_heap test_realm sync_bus 3 (VObj Js.aSub) poly_world = Ok 2 w'
    ∧ trace w'
      = [THandler (VObj Js.failing) (VObj Js.Sub) (VObj Js.aSub) []
           (Some (ExnValue (VStr "fail")));
         TReport (ExnValue (VStr "fail"))
           (ExnCtx (VObj Js.aSub) (VObj Js.Sub) (VObj Js.failing) (VObj Js.theBus))
           [] None;
         THandler (VObj Js.noop) (VObj Js.Base) (VObj Js.aSub) [] None].
Proof. eexists. split; reflexivity. Qed.

(** A handler that subscribes another one while it runs: the newcomer
    misses the event in flight and is there for the next post. *)
Example post_ignores_late_subscriber :
  ∃ w' w'',
    post test_heap test_realm sync_bus 3 (VObj Js.aBase)
      (after (subscribe (VObj Js.Base) (VObj Js.joiner)))
    = Ok 1 w'
    ∧ trace w' = [THandler (VObj Js.joiner) (VObj Js.Base) (VObj Js.aBase) [] None]
    ∧ post test_heap test_realm sync_bus 3 (VObj Js.aBase) (set_trace [] w')
      = Ok 2 w''
    ∧ omap target_of (trace w'')
      = [(VObj Js.joiner, VObj Js.Base); (VObj Js.noop, VObj Js.Base)].
Proof. eexists _, _. repeat split; reflexivity. Qed.

(** C4: [deliver] isolates the handler.  In any state and on any bus, it
    runs the body of the handler with the event; when that throws, it runs
    the exception handler once, with the error and the context
    [{event, eventType, handler, eventBus}] of this call, and the deliveries
    go on; an error leaves a delivery only when the exception handler
    throws it.  So, with handlers that do not post (they may throw) and an
    exception handler that does not throw, [post] returns: and when it
    returns, its state is the one the deliveries to the pairs of the
    snapshot lead to, each made in turn from the state the one before it
    left.  When [post] throws instead, the error came out of the resolver,
    out of the exception handler, or out of the post of the dead event:
    never straight out of a handler.  On the deferred bus the delivery is
    the call of the executor, and the isolated call is what the task
    does. *)
Theorem C4_handler_errors_isolated H R B fuel self_post event w :
  is_nullish event = false →
  (quiet_heap H → quiet_reporter false B → resolves H R fuel event →
   (∀ k, ends false (self_post (VDead k))) →
   ∃ d w', post_step H R B fuel self_post event w = Ok d w')
  ∧ (∀ fn ty w0,
       match run_task H B self_post (Task fn ty event) w0 with
       | Ok _ w' => isolated_call H B self_post fn ty event w0 None w'
       | Throw e w' => isolated_call H B self_post fn ty event w0 (Some e) w'
       | Diverge => True
       end)
  ∧ (∀ fn ty w0 e w',
       delivery H B self_post fn ty event w0 (Some e) w' →
       ∃ wa e0 wb wc,
         (wa = w0 ∨ wa = set_trace [] w0)
         ∧ handler_ran H self_post fn ty event wa (Some e0) wb
         ∧ reporter_ran B self_post e0 (ExnCtx event ty fn (VObj (self B)))
             wb (Some e) wc)
  ∧ match post_step H R B fuel self_post event w with
    | Ok d w' =>
        ∃ types w1 w2 tr rest,
          getTypesFor H R fuel event (reg_has (VObj (r_Object R)) (registry w)) w
          = Ok types w1
          ∧ dispatched H B self_post event
              (snapshot (registry w) (array_at w1 types)) w1 w2
          ∧ dead_step H R B self_post event
              (length (snapshot (registry w) (array_at w1 types))) w2
            = Ok d w'
          ∧ trace w' = trace w ++ tr ++ rest
          ∧ delivered B event (snapshot (registry w) (array_at w1 types)) tr
          ∧ Forall (λ t, is_post t = true) rest
    | Throw e w' =>
        getTypesFor H R fuel event (reg_has (VObj (r_Object R)) (registry w)) w
        = Throw e w'
        ∨ ∃ types w1,
            getTypesFor H R fuel event (reg_has (VObj (r_Object R)) (registry w)) w
            = Ok types w1
            ∧ ((∃ before fn ty later wa,
                  snapshot (registry w) (array_at w1 types)
                  = before ++ (fn, ty) :: later
                  ∧ dispatched H B self_post event before w1 wa
                  ∧ delivery H B self_post fn ty event wa (Some e) w')
               ∨ ∃ w2,
                   dispatched H B self_post event
                     (snapshot (registry w) (array_at w1 types)) w1 w2
                   ∧ dead_step H R B self_post event
                       (length (snapshot (registry w) (array_at w1 types))) w2
                     = Throw e w')
    | Diverge => True
    end.
Proof.
  intros N. split.
  { intros Hh Hq Hr Hd.
    pose proof (ends_post_step H R B self_post Hh false fuel event Hq Hr
                  (λ _, Hd) w) as T.
    destruct (post_step H R B fuel self_post event w) as [d w'| |];
      [eauto | done | done]. }
  split; [intros fn ty w0; apply base_deliver_call|].
  split.
  { intros fn ty w0 e w'. inversion 1 as [out w0' K Hc|K|out w1 K Hc]; subst.
    - apply isolated_call_error in Hc as (e0 & wb & Hh & Hr).
      exists w0, e0, wb, w'. auto.
    - apply isolated_call_error in Hc as (e0 & wb & Hh & Hr).
      exists (set_trace [] w0), e0, wb, w1. auto. }
  pose proof (post_step_dispatched H R B fuel self_post event w N) as Hdisp.
  destruct (post_step H R B fuel self_post event w) as [d w'|e w'|] eqn:P;
    [| exact Hdisp | done].
  destruct Hdisp as (types & w1 & w2 & G & Hd & Hdead).
  apply post_step_Ok in P
    as (types' & w1' & tr & rest & G' & _ & E & D & Hrest); [|done].
  rewrite G in G'. injection G' as <- <-.
  exists types, w1, w2, tr, rest. do 5 (split; [done|]).
  apply rest_is_post. destruct Hrest as [-> | (_ & _ & Hr)]; auto.
Qed.

(** [failing] under [Sub], then [echo] and [noop] under [Base], on a bus
    whose exception handler drops the handlers of the type that failed.
    [failing] throws, and the exception handler is run with the error and
    the context of that call: [Sub] is gone.  [echo] is called next and
    throws the event it was given; the exception handler is run again and
    [Base] is gone, [noop] with it.  [noop], which is in the snapshot, is
    still called. *)
Lemma C4_handler_errors_isolated_witness :
  (∃ d w',
     post_step test_heap test_realm muting_bus 2
       (post test_heap test_realm muting_bus 2) (VObj Js.aSub) echo_world
     = Ok d w')
  ∧ ∃ w' w1,
      post_step test_heap test_realm muting_bus 2
        (post test_heap test_realm muting_bus 2) (VObj Js.aSub) echo_world
      = Ok 3 w'
      ∧ dispatched test_heap muting_bus (post test_heap test_realm muting_bus 2)
          (VObj Js.aSub)
          [(VObj Js.failing, VObj Js.Sub); (VObj Js.echo, VObj Js.Base);
           (VObj Js.noop, VObj Js.Base)] w1 w'
      ∧ registry echo_world
        = [(VObj Js.Sub, [HandlerRec 0 (VObj Js.failing)]);
           (VObj Js.Base,
            [HandlerRec 1 (VObj Js.echo); HandlerRec 2 (VObj Js.noop)])]
      ∧ registry w' = []
      ∧ trace w'
        = [THandler (VObj Js.failing) (VObj Js.Sub) (VObj Js.aSub) []
             (Some (ExnValue (VStr "fail")));
           TReport (ExnValue (VStr "fail"))
             (ExnCtx (VObj Js.aSub) (VObj Js.Sub) (VObj Js.failing)
                (VObj Js.theBus))
             [] None;
           THandler (VObj Js.echo) (VObj Js.Base) (VObj Js.aSub) []
             (Some (ExnValue (VObj Js.aSub)));
           TReport (ExnValue (VObj Js.aSub))
             (ExnCtx (VObj Js.aSub) (VObj Js.Base) (VObj Js.echo)
                (VObj Js.theBus))
             [] None;
           THandler (VObj Js.noop) (VObj Js.Base) (VObj Js.aSub) [] None].
Proof.
  assert (Hq : quiet_reporter false muting_bus).
  { intros e c. repeat constructor. }
  destruct (C4_handler_errors_isolated test_heap test_realm muting_bus 2
              (post test_heap test_realm muting_bus 2) (VObj Js.aSub)
              echo_world eq_refl)
    as (Hreturns & _ & _ & Hc).
  split.
  { apply (Hreturns test_heap_quiet Hq aSub_resolves).
    intros k. by apply wrapper_post_ends. }
  assert (Hrun : post_step test_heap test_realm muting_bus 2
                   (post test_heap test_realm muting_bus 2) (VObj Js.aSub)
                   echo_world
                 = Ok 3 (final (post test_heap test_realm muting_bus 3
                                  (VObj Js.aSub) echo_world)))
    by reflexivity.
  rewrite Hrun in Hc.
  destruct Hc as (types & w1 & w2 & tr & rest & G & Hd & Hdead & _).
  vm_compute in G. injection G as <- <-.
  rewrite dead_step_skip in Hdead; [done|].
  assert (E : w2 = final (post test_heap test_realm muting_bus 3
                            (VObj Js.aSub) echo_world)) by congruence.
  rewrite E in Hd.
  eexists _, _. split; [exact Hrun|]. split; [exact Hd|].
  repeat split; reflexivity.
Defined.

(** C5, counterexample: with a handler under [Object], posting the number
    42 returns 0: the handler is not called with 42, and a [DeadEvent] is
    emitted (which the handler then receives). *)
Lemma C5_counterexample :
  is_nullish (VNum 42) = false
  ∧ reg_get (VObj Js.Object) (registry root_world)
    = Some [HandlerRec 0 (VObj Js.noop)]
  ∧ ∃ w',
      post test_heap test_realm sync_bus 3 (VNum 42) root_world = Ok 0 w'
      ∧ trace w'
        = [TPost (VDead 0)
             [THandler (VObj Js.noop) (VObj Js.Object) (VDead 0) [] None] (inr 1)]
      ∧ dead w' = [(VObj Js.theBus, VNum 42)].
Proof. repeat split. eexists. repeat split; reflexivity. Qed.

(** C5, amended: with a handler under [Object], every posted object
    (truthy, [typeof] 'object': class instances, plain objects,
    [DeadEvent] instances) has that handler in its snapshot.  With handlers
    that do not post and an exception handler that does not throw, [post]
    returns; whenever it returns, the count includes that handler and no
    [DeadEvent] is emitted. *)
Theorem C5_root_handler_matches_objects H R B fuel self_post event w set rec :
  is_object_event H event = true →
  reg_get (VObj (r_Object R)) (registry w) = Some set →
  rec ∈ set →
  (quiet_heap H → quiet_reporter false B → resolves H R fuel event →
   ∃ d w', post_step H R B fuel self_post event w = Ok d w')
  ∧ ∀ d w',
      post_step H R B fuel self_post event w = Ok d w' →
      ∃ snap tr,
        (rec_fn rec, VObj (r_Object R)) ∈ snap
        ∧ d = length snap ∧ 1 ≤ d
        ∧ trace w' = trace w ++ tr
        ∧ delivered B event snap tr.
Proof.
  intros E Hset Hrec.
  destruct (is_object_event_ref _ _ E) as [i ->].
  assert (Hin : ∀ types w1,
            getTypesFor H R fuel (VRef i)
              (reg_has (VObj (r_Object R)) (registry w)) w = Ok types w1 →
            (rec_fn rec, VObj (r_Object R))
            ∈ snapshot (registry w) (array_at w1 types)).
  { intros types w1 G. eapply elem_of_snapshot; [|done|done].
    eapply getTypesFor_root; [done|].
    unfold reg_has in G. rewrite Hset bool_decide_eq_true_2 // in G. exact G. }
  split.
  - intros Hh Hq Hr. rewrite post_step_eq //.
    pose proof (ends_getTypesFor H R fuel (VRef i)
                  (reg_has (VObj (r_Object R)) (registry w)) Hr w) as G.
    destruct (getTypesFor _ _ _ _ _ w) as [types w1| |] eqn:HG; [|done|done].
    simpl.
    pose proof (ends_deliver_all H B self_post Hh false
                  (snapshot (registry w) (array_at w1 types)) (VRef i) Hq w1) as T.
    destruct (deliver_all _ _ _ _ _ w1) as [u w2| |]; [|done|done].
    eexists _, _. apply dead_step_skip.
    pose proof (Hin _ _ eq_refl) as Hs.
    destruct (snapshot _ _); [by apply elem_of_nil in Hs | done].
  - intros d w' P.
    apply post_step_Ok in P
      as (types & w1 & tr & rest & G & -> & Et & D & Hrest); [|done].
    pose proof (Hin _ _ G) as Hs.
    exists (snapshot (registry w) (array_at w1 types)), tr.
    destruct Hrest as [-> | (S & _)];
      [|rewrite S in Hs; by apply elem_of_nil in Hs].
    rewrite app_nil_r in Et. repeat split; try done.
    destruct (snapshot _ _); [by apply elem_of_nil in Hs | simpl; lia].
Qed.

Lemma C5_root_handler_matches_objects_witness :
  (∃ d w',
     post_step test_heap test_realm sync_bus 2
       (post test_heap test_realm sync_bus 2) (VObj Js.plain) root_world = Ok d w')
  ∧ ∃ w' snap tr,
      post_step test_heap test_realm sync_bus 2
        (post test_heap test_realm sync_bus 2) (VObj Js.plain) root_world = Ok 1 w'
      ∧ (VObj Js.noop, VObj Js.Object) ∈ snap
      ∧ 1 = length snap ∧ 1 ≤ 1
      ∧ trace w' = trace root_world ++ tr
      ∧ delivered sync_bus (VObj Js.plain) snap tr.
Proof.
  destruct (C5_root_handler_matches_objects test_heap test_realm sync_bus 2
              (post test_heap test_realm sync_bus 2) (VObj Js.plain) root_world
              [HandlerRec 0 (VObj Js.noop)] (HandlerRec 0 (VObj Js.noop))
              eq_refl eq_refl (list_elem_of_here _ _))
    as [Hreturns Hshape].
  split; [exact (Hreturns test_heap_quiet I plain_resolves)|].
  eexists.
  assert (Hrun : post_step test_heap test_realm sync_bus 2
                   (post test_heap test_realm sync_bus 2) (VObj Js.plain) root_world
                 = Ok 1 (final (post test_heap test_realm sync_bus 3
                                  (VObj Js.plain) root_world)))
    by reflexivity.
  destruct (Hshape 1 _ Hrun) as (snap & tr & Hc).
  exists snap, tr. split; [exact Hrun | exact Hc].
Defined.

(** C6, counterexample: the first resolution of [new Base('A')] with the
    flag set stores the list [[Base, Object]] in the cache, root included;
    a later call without the flag gets that same list back. *)
Lemma C6_counterexample :
  ∃ w1 w2,
    getTypesFor test_heap test_realm 4 (VObj Js.aBase) true new_world = Ok 0 w1
    ∧ typeCache w1 !! IObj Js.aBase = Some 0
    ∧ array_at w1 0 = [VObj Js.Base; VObj Js.Object]
    ∧ ¬ cache_root_exclusive test_realm w1
    ∧ getTypesFor test_heap test_realm 4 (VObj Js.aBase) false w1 = Ok 0 w2
    ∧ array_at w2 0 = [VObj Js.Base; VObj Js.Object].
Proof.
  eexists _, _. split; [reflexivity|].
  split; [reflexivity|]. split; [reflexivity|].
  split; [|split; reflexivity].
  intros Hex. apply (Hex (IObj Js.aBase) 0); [reflexivity|].
  apply list_elem_of_lookup. by exists 1.
Qed.

(** C6, amended: for an object that is cached, or whose constructor chain
    the loop finishes, [getTypesFor] returns.  A cache hit changes neither
    the cache nor any existing array; when the root is requested and the
    cached list lacks it, the result is a new array, the cached list with
    the root appended, and it is not stored.  A cache miss stores the list
    it computes, which ends with the root exactly when the flag of that
    call is set. *)
Theorem C6_cache_discipline H R fuel i flag w :
  is_object_event H (VRef i) = true →
  is_Some (typeCache w !! i) ∨ resolves H R fuel (VRef i) →
  ∃ r w',
    getTypesFor H R fuel (VRef i) flag w = Ok r w'
    ∧ match typeCache w !! i with
      | Some cached =>
          typeCache w' = typeCache w
          ∧ (∀ r0, r0 < length (arrays w) → arrays w' !! r0 = arrays w !! r0)
          ∧ if flag && negb (includes (VObj (r_Object R)) (array_at w cached))
            then r = length (arrays w)
                 ∧ arrays w'
                   = arrays w ++ [array_at w cached ++ [VObj (r_Object R)]]
            else r = cached ∧ arrays w' = arrays w
      | None =>
          ∃ chain,
            ctor_chain H R (first_ctor H R (VRef i)) chain
            ∧ r = length (arrays w)
            ∧ typeCache w' = <[i := r]> (typeCache w)
            ∧ arrays w' = arrays w
                          ++ [chain ++ if flag then [VObj (r_Object R)] else []]
      end.
Proof.
  intros E Hres. destruct (typeCache w !! i) as [cached|] eqn:C.
  - rewrite (getTypesFor_hit _ _ _ _ _ _ _ E C).
    destruct (_ && _); eexists _, _; (split; [done|]); simpl;
      repeat split; try done.
    intros r0 Hr0. by rewrite lookup_app_l.
  - destruct Hres as [[? ?] | [? | (chain & Hch & Hlen)]]; [done | congruence |].
    rewrite (getTypesFor_miss _ _ _ _ _ _ E C) (walk_complete _ _ _ _ Hch) //.
    eexists _, _. split; [done|]. exists chain. simpl. repeat split; [done|].
    destruct flag; by rewrite ?app_nil_r.
Qed.

Lemma C6_cache_discipline_witness :
  ∃ w1 r w',
    w1 = after (getTypesFor test_heap test_realm 4 (VObj Js.aBase) false)
    ∧ typeCache w1 !! IObj Js.aBase = Some 0
    ∧ arrays w1 = [[VObj Js.Base]]
    ∧ getTypesFor test_heap test_realm 4 (VObj Js.aBase) true w1 = Ok r w'
    ∧ typeCache w' = typeCache w1
    ∧ r = 1
    ∧ arrays w' = [[VObj Js.Base]; [VObj Js.Base; VObj Js.Object]].
Proof.
  destruct (C6_cache_discipline test_heap test_realm 4 (IObj Js.aBase) true
              (after (getTypesFor test_heap test_realm 4 (VObj Js.aBase) false))
              eq_refl (or_introl (ex_intro _ 0 eq_refl)))
    as (r & w' & Hrun & Hcache & _ & Hr & Harr).
  exists (after (getTypesFor test_heap test_realm 4 (VObj Js.aBase) false)), r, w'.
  split; [reflexivity|]. split; [reflexivity|]. split; [reflexivity|].
  split; [exact Hrun|]. split; [exact Hcache|].
  split; [exact Hr | exact Harr].
Defined.

(** C7, counterexample: [getTypesFor] throws a [TypeError] on the object
    [{ constructor: 5 }]: the loop pushes [5], reads [(5).prototype], which
    is [undefined], and hands it to [Object.getPrototypeOf]. *)
Lemma C7_counterexample :
  is_object_event test_heap (VObj Js.odd) = true
  ∧ getTypesFor test_heap test_realm 8 (VObj Js.odd) false new_world
    = Throw (ExnTypeError "Cannot convert undefined or null to object") new_world.
Proof. split; reflexivity. Qed.

(** With a constructor chain that runs in a circle the loop never ends:
    no amount of fuel produces a list. *)
Lemma getTypesFor_circular fuel flag :
  getTypesFor test_heap test_realm fuel (VObj Js.aLoop) flag new_world = Diverge.
Proof.
  rewrite getTypesFor_miss; [done | done |].
  change (first_ctor test_heap test_realm (VObj Js.aLoop)) with (VObj Js.Loop).
  assert (walk test_heap test_realm fuel (VObj Js.Loop) = WDiverge) as ->; [|done].
  induction fuel as [|n IH]; [done|].
  change (walk test_heap test_realm (S n) (VObj Js.Loop))
    with (match walk test_heap test_realm n (VObj Js.Loop) with
          | WOk out => WOk (VObj Js.Loop :: out)
          | r => r
          end).
  by rewrite IH.
Qed.

(** C7, amended: [getTypesFor] returns a list, without raising an error,
    for every input that is not an object (null, missing, primitives,
    functions), for which the list is empty; for every object that is
    already in the cache; and for every object whose constructor chain is
    well formed and has at most [fuel] members. *)
Theorem C7_getTypesFor_returns H R fuel event flag w :
  is_object_event H event = false
  ∨ (∃ i, event = VRef i ∧ is_Some (typeCache w !! i))
  ∨ (∃ l, ctor_chain H R (first_ctor H R event) l ∧ length l ≤ fuel) →
  ∃ r w',
    getTypesFor H R fuel event flag w = Ok r w'
    ∧ (is_object_event H event = false → array_at w' r = []).
Proof.
  destruct (is_object_event H event) eqn:E.
  - destruct (is_object_event_ref _ _ E) as [i ->].
    destruct (typeCache w !! i) as [cached|] eqn:C.
    + intros _. rewrite (getTypesFor_hit _ _ _ _ _ _ _ E C).
      destruct (_ && _); by eexists _, _.
    + intros [? | [(j & [= <-] & [? ?]) | (l & Hl & Hf)]]; [done | congruence |].
      rewrite (getTypesFor_miss _ _ _ _ _ _ E C) (walk_complete _ _ _ _ Hl) //.
      by eexists _, _.
  - intros _. rewrite getTypesFor_unsupported //.
    eexists _, _. split; [done|]. intros _.
    by rewrite array_at_alloc bool_decide_eq_true_2.
Qed.

Lemma C7_getTypesFor_returns_witness :
  ∃ r w',
    getTypesFor test_heap test_realm 2 (VObj Js.aSub) true new_world = Ok r w'
    ∧ (is_object_event test_heap (VObj Js.aSub) = false → array_at w' r = []).
Proof.
  apply (C7_getTypesFor_returns test_heap test_realm 2 (VObj Js.aSub) true new_world).
  right; right. exists [VObj Js.Sub; VObj Js.Base]. split; [|simpl; lia].
  apply (walk_sound test_heap test_realm 2). reflexivity.
Defined.

(** C8: on the deferred bus, whenever [post] returns, its count is the
    size of the snapshot, which is what the synchronous bus returns from the
    same state, and the calls it made are one submission to the executor
    per pair of the snapshot, in snapshot order.  With an executor that
    queues its tasks, [post] runs none of them, and, the snapshot not being
    empty (or the event being a [DeadEvent]), it returns with exactly those
    tasks added to the queue. *)
Theorem C8_deferred_post H R B ex fuel self_post event w types w1 :
  kind B = AsyncBus ex →
  is_nullish event = false →
  getTypesFor H R fuel event (reg_has (VObj (r_Object R)) (registry w)) w
  = Ok types w1 →
  let snap := snapshot (registry w) (array_at w1 types) in
  (∀ d w',
     post_step H R B fuel self_post event w = Ok d w' →
     d = length snap
     ∧ ∃ tr rest, trace w' = trace w ++ tr ++ rest
                  ∧ Forall2 (submission event ex) snap tr
                  ∧ Forall (λ t, is_post t = true) rest)
  ∧ (ex = ExecQueue →
     snap ≠ [] ∨ instanceof_DeadEvent H R event = true →
     post_step H R B fuel self_post event w
     = Ok (length snap)
         (set_trace (trace w ++ ((λ t, TSubmit t [] None) <$> tasks_of event snap))
            (set_queue (queue w ++ tasks_of event snap) w1)))
  ∧ (∀ Bs sp d w',
       kind Bs = SyncBus →
       post_step H R Bs fuel sp event w = Ok d w' → d = length snap).
Proof.
  intros K N G snap.
  destruct (getTypesFor_frame _ _ _ _ _ _ _ _ G) as (_ & _ & _ & Hq & Ht & _).
  split; [|split].
  - intros d w' (types' & w1' & tr & rest & G' & -> & E & D & Hrest)%post_step_Ok;
      [|done].
    rewrite G in G'. injection G' as <- <-. split; [done|].
    exists tr, rest. split; [done|]. split; [by eapply delivered_async|].
    apply rest_is_post. destruct Hrest as [-> | (_ & _ & Hr)]; auto.
  - intros -> Hne. rewrite post_step_eq // G /= deliver_all_queue // Hq Ht.
    apply dead_step_skip. destruct Hne as [Hne | ->]; [|by rewrite andb_false_r].
    fold snap. by destruct snap.
  - intros Bs sp d w' _ (types' & w1' & _ & _ & G' & -> & _)%post_step_Ok; [|done].
    rewrite G in G'. by injection G' as <- <-.
Qed.

Lemma C8_deferred_post_witness :
  ∃ w1,
    getTypesFor test_heap test_realm 2 (VObj Js.aSub)
      (reg_has (VObj (r_Object test_realm)) (registry poly_world)) poly_world
    = Ok 0 w1
    ∧ post_step test_heap test_realm queued_bus 2
        (post test_heap test_realm queued_bus 2) (VObj Js.aSub) poly_world
      = Ok 2
          (set_trace
             [TSubmit (Task (VObj Js.failing) (VObj Js.Sub) (VObj Js.aSub)) [] None;
              TSubmit (Task (VObj Js.noop) (VObj Js.Base) (VObj Js.aSub)) [] None]
             (set_queue
                [Task (VObj Js.failing) (VObj Js.Sub) (VObj Js.aSub);
                 Task (VObj Js.noop) (VObj Js.Base) (VObj Js.aSub)] w1))
    ∧ post_step test_heap test_realm sync_bus 2
        (post test_heap test_realm sync_bus 2) (VObj Js.aSub) poly_world
      = Ok 2 (final (post test_heap test_realm sync_bus 3 (VObj Js.aSub) poly_world)).
Proof.
  eexists. split; [reflexivity|]. split; [|reflexivity].
  refine (proj1 (proj2 (C8_deferred_post test_heap test_realm queued_bus ExecQueue
                          2 (post test_heap test_realm queued_bus 2) (VObj Js.aSub)
                          poly_world 0 _ eq_refl eq_refl eq_refl)) eq_refl _).
  left. intros Hs. vm_compute in Hs. discriminate Hs.
Defined.

(** C9, counterexample: a deferred bus whose executor runs the task on the
    spot, [new AsyncEventBus(task => task(), reporter)].  The handler
    throws, the exception handler throws in turn, and that error comes out
    of [post], not out of a task run later: nothing was queued. *)
Lemma C9_counterexample :
  kind loud_inline_bus = AsyncBus ExecInline
  ∧ ∃ w',
      post test_heap test_realm loud_inline_bus 3 (VObj Js.aBase) failing_world
      = Throw (ExnValue (VStr "reporter failed")) w'
      ∧ queue w' = []
      ∧ trace w'
        = [TSubmit (Task (VObj Js.failing) (VObj Js.Base) (VObj Js.aBase))
             [THandler (VObj Js.failing) (VObj Js.Base) (VObj Js.aBase) []
                (Some (ExnValue (VStr "fail")));
              TReport (ExnValue (VStr "fail"))
                (ExnCtx (VObj Js.aBase) (VObj Js.Base) (VObj Js.failing)
                   (VObj Js.theBus))
                [] (Some (ExnValue (VStr "reporter failed")))]
             (Some (ExnValue (VStr "reporter failed")))].
Proof. split; [reflexivity|]. eexists. repeat split; reflexivity. Qed.

(** C9, amended: when a handler throws and the exception handler, called
    with that error, throws in turn, the second error leaves the delivery.
    On the synchronous bus it leaves [post].  On the deferred bus it leaves
    the task when the task is run: with an executor that keeps the task for
    later, [post], which only queued the task, has returned normally; with
    an executor that runs the task inside its own call, the error leaves
    the executor and [post] with it. *)
Theorem C9_reporter_failure_escapes
    H R B fuel self_post fn ty event w e1 w1 e2 w2 :
  framed (λ inner out, THandler fn ty event inner (thrown out))
    (invoke H self_post fn event) w = Throw e1 w1 →
  report B self_post e1 (ctx_for B event fn ty) w1 = Throw e2 w2 →
  run_task H B self_post (Task fn ty event) w = Throw e2 w2
  ∧ (kind B = SyncBus →
     ∀ w0 types w0' before later,
       is_nullish event = false →
       getTypesFor H R fuel event (reg_has (VObj (r_Object R)) (registry w0)) w0
       = Ok types w0' →
       snapshot (registry w0) (array_at w0' types) = before ++ (fn, ty) :: later →
       deliver_all H B self_post before event w0' = Ok tt w →
       post_step H R B fuel self_post event w0 = Throw e2 w2)
  ∧ (kind B = AsyncBus ExecQueue →
     ∀ w0 types w0',
       is_nullish event = false →
       getTypesFor H R fuel event (reg_has (VObj (r_Object R)) (registry w0)) w0
       = Ok types w0' →
       (fn, ty) ∈ snapshot (registry w0) (array_at w0' types) →
       ∃ w0'',
         post_step H R B fuel self_post event w0
         = Ok (length (snapshot (registry w0) (array_at w0' types))) w0''
         ∧ Task fn ty event ∈ queue w0'')
  ∧ (kind B = AsyncBus ExecInline →
     ∀ w0 types w0' before later wpre,
       is_nullish event = false →
       getTypesFor H R fuel event (reg_has (VObj (r_Object R)) (registry w0)) w0
       = Ok types w0' →
       snapshot (registry w0) (array_at w0' types) = before ++ (fn, ty) :: later →
       deliver_all H B self_post before event w0' = Ok tt wpre →
       w = set_trace [] wpre →
       post_step H R B fuel self_post event w0
       = Throw e2
           (set_trace
              (trace wpre ++ [TSubmit (Task fn ty event) (trace w2) (Some e2)])
              w2)).
Proof.
  intros Hh Hr.
  assert (Hd : base_deliver H B self_post fn ty event w = Throw e2 w2).
  { unfold base_deliver, try_catch. by rewrite Hh. }
  assert (Hall : ∀ before later w0' wpre r,
            deliver_all H B self_post before event w0' = Ok tt wpre →
            deliver H B self_post fn ty event wpre = r →
            (∀ u wr, r ≠ Ok u wr) →
            deliver_all H B self_post (before ++ (fn, ty) :: later) event w0'
            = match r with
              | Throw e wr => Throw e wr
              | _ => Diverge
              end).
  { intros before later w0' wpre r Hb Hdel Hno. revert w0' Hb.
    induction before as [|[fn' ty'] before IH]; intros w0'; simpl.
    - intros [= ->]. unfold mbind, M_bind. rewrite Hdel.
      destruct r as [u wr| |]; [by destruct (Hno u wr) | done | done].
    - intros (? & wm & Hm & Hb)%bind_Ok. unfold mbind, M_bind in *.
      rewrite Hm. by apply IH. }
  split; [exact Hd | split; [|split]].
  - intros K w0 types w0' before later N G Hs Hb.
    rewrite post_step_eq // G /= Hs.
    rewrite (Hall before later w0' w (Throw e2 w2) Hb); [|done|done].
    unfold deliver. by rewrite K.
  - intros K w0 types w0' N G Hin.
    destruct (getTypesFor_frame _ _ _ _ _ _ _ _ G) as (_ & _ & _ & Hq & Ht & _).
    eexists. rewrite post_step_eq // G /= deliver_all_queue //.
    rewrite dead_step_skip.
    { destruct (snapshot _ _); [by apply elem_of_nil in Hin | done]. }
    split; [done|]. simpl. apply elem_of_app. right.
    apply list_elem_of_fmap. by exists (fn, ty).
  - intros K w0 types w0' before later wpre N G Hs Hb Hw.
    rewrite post_step_eq // G /= Hs.
    rewrite (Hall before later w0' wpre
               (Throw e2 (set_trace
                            (trace wpre
                               ++ [TSubmit (Task fn ty event) (trace w2) (Some e2)])
                            w2)) Hb); [|done|done].
    unfold deliver, run_executor, framed. rewrite K. simpl.
    by rewrite -Hw Hd.
Qed.

Lemma C9_reporter_failure_escapes_witness :
  (∃ w2,
     run_task test_heap loud_bus (post test_heap test_realm loud_bus 2)
       (Task (VObj Js.failing) (VObj Js.Base) (VObj Js.aBase)) failing_world
     = Throw (ExnValue (VStr "reporter failed")) w2
     ∧ trace w2
       = [THandler (VObj Js.failing) (VObj Js.Base) (VObj Js.aBase) []
            (Some (ExnValue (VStr "fail")));
          TReport (ExnValue (VStr "fail"))
            (ExnCtx (VObj Js.aBase) (VObj Js.Base) (VObj Js.failing)
               (VObj Js.theBus))
            [] (Some (ExnValue (VStr "reporter failed")))])
  ∧ (∃ w2,
       post_step test_heap test_realm loud_bus 2
         (post test_heap test_realm loud_bus 2) (VObj Js.aBase) failing_world
       = Throw (ExnValue (VStr "reporter failed")) w2)
  ∧ (∃ w2,
       post_step test_heap test_realm loud_queued_bus 2
         (post test_heap test_realm loud_queued_bus 2) (VObj Js.aBase)
         failing_world
       = Ok 1 w2
       ∧ Task (VObj Js.failing) (VObj Js.Base) (VObj Js.aBase) ∈ queue w2)
  ∧ (∃ w2,
       post_step test_heap test_realm loud_inline_bus 2
         (post test_heap test_realm loud_inline_bus 2) (VObj Js.aBase)
         failing_world
       = Throw (ExnValue (VStr "reporter failed")) w2
       ∧ queue w2 = []).
Proof.
  split; [|split; [|split]].
  - eexists. split.
    + refine (proj1 (C9_reporter_failure_escapes test_heap test_realm loud_bus 2
                       (post test_heap test_realm loud_bus 2)
                       (VObj Js.failing) (VObj Js.Base) (VObj Js.aBase)
                       failing_world
                       (ExnValue (VStr "fail")) _
                       (ExnValue (VStr "reporter failed")) _ _ _)); reflexivity.
    + reflexivity.
  - eexists.
    refine (proj1 (proj2 (C9_reporter_failure_escapes test_heap test_realm loud_bus
                            2 (post test_heap test_realm loud_bus 2)
                            (VObj Js.failing) (VObj Js.Base) (VObj Js.aBase) _
                            (ExnValue (VStr "fail")) _
                            (ExnValue (VStr "reporter failed")) _ _ _))
              eq_refl failing_world 0 _ [] [] eq_refl _ _ _); reflexivity.
  - destruct (proj1 (proj2 (proj2 (C9_reporter_failure_escapes test_heap test_realm
                              loud_queued_bus 2
                              (post test_heap test_realm loud_queued_bus 2)
                              (VObj Js.failing) (VObj Js.Base) (VObj Js.aBase)
                              failing_world
                              (ExnValue (VStr "fail")) _
                              (ExnValue (VStr "reporter failed")) _
                              eq_refl eq_refl)))
                eq_refl failing_world 0 _ eq_refl eq_refl (list_elem_of_here _ _))
      as (w2 & Hrun & Hq).
    exists w2. split; [exact Hrun | exact Hq].
  - eexists. split.
    + refine (proj2 (proj2 (proj2 (C9_reporter_failure_escapes test_heap test_realm
                              loud_inline_bus 2
                              (post test_heap test_realm loud_inline_bus 2)
                              (VObj Js.failing) (VObj Js.Base) (VObj Js.aBase) _
                              (ExnValue (VStr "fail")) _
                              (ExnValue (VStr "reporter failed")) _ _ _)))
                eq_refl failing_world 0 _ [] [] _ eq_refl _ _ _ eq_refl);
        reflexivity.
    + reflexivity.
Defined.

(** The run of a throwing handler under an exception handler that throws:
    out of [post] on the synchronous bus; on the deferred bus [post]
    returns and the first queued task throws when it is run. *)
Example reporter_failure_runs :
  (∃ w',
     post test_heap test_realm loud_bus 3 (VObj Js.aBase) failing_world
     = Throw (ExnValue (VStr "reporter failed")) w')
  ∧ (∃ w' w'',
       post test_heap test_realm loud_queued_bus 3 (VObj Js.aBase) failing_world
       = Ok 1 w'
       ∧ queue w' = [Task (VObj Js.failing) (VObj Js.Base) (VObj Js.aBase)]
       ∧ run_task test_heap loud_queued_bus
           (post test_heap test_realm loud_queued_bus 3)
           (Task (VObj Js.failing) (VObj Js.Base) (VObj Js.aBase)) w'
         = Throw (ExnValue (VStr "reporter failed")) w'').
Proof. split; [eexists | eexists _, _; repeat split]; reflexivity. Qed.

(** C10, counterexample: a function whose prototype chain holds
    [DeadEvent.prototype] is not of object type and is an instance of
    [DeadEvent]: posting it returns 0 and posts no [DeadEvent], although a
    [DeadEvent] handler is subscribed. *)
Lemma C10_counterexample :
  typeof_object test_heap (VObj Js.deadFn) = false
  ∧ is_nullish (VObj Js.deadFn) = false
  ∧ ∃ w',
      post test_heap test_realm sync_bus 3 (VObj Js.deadFn) dead_listener_world
      = Ok 0 w'
      ∧ trace w' = [] ∧ dead w' = [].
Proof. repeat split. eexists. repeat split; reflexivity. Qed.

(** C10, amended: a posted value that is not null, not of object type, and
    (when it is a function) not an instance of [DeadEvent], is delivered to
    no handler whatever is registered: [post] wraps it in one [DeadEvent],
    posts that once, and returns 0 as soon as that post returns; the post
    of the wrapper posts no further dead event. *)
Theorem C10_primitives_go_dead H R B n event w :
  is_nullish event = false →
  typeof_object H event = false →
  instanceof_DeadEvent H R event = false →
  let wrapper := VDead (length (dead w)) in
  let w_posted :=
    set_trace []
      (set_dead (dead w ++ [(VObj (self B), event)])
         (set_arrays (arrays w ++ [[]]) w)) in
  post H R B (S n) event w
  = match post H R B n wrapper w_posted with
    | Ok d w2 =>
        Ok 0 (set_trace (trace w ++ [TPost wrapper (trace w2) (inr d)]) w2)
    | Throw e w2 =>
        Throw e (set_trace (trace w ++ [TPost wrapper (trace w2) (inl e)]) w2)
    | Diverge => Diverge
    end
  ∧ ∀ d w2, post H R B n wrapper w_posted = Ok d w2 →
            Forall (λ t, is_post t = false) (trace w2).
Proof.
  intros N T I wrapper w_posted.
  assert (E : is_object_event H event = false).
  { unfold is_object_event. by rewrite T andb_false_r. }
  pose proof (getTypesFor_unsupported H R n event
                (reg_has (VObj (r_Object R)) (registry w)) w E) as G.
  assert (Hs : snapshot (registry w)
                 (array_at (set_arrays (arrays w ++ [[]]) w) (length (arrays w)))
               = []).
  { by rewrite array_at_alloc bool_decide_eq_true_2. }
  pose proof (post_step_unhandled H R B n (post H R B n) event w _ _ N G Hs) as P.
  change (post_step H R B n (post H R B n) event w)
    with (post H R B (S n) event w) in P.
  rewrite P dead_step_wrap //. split; [done|].
  intros d w2 Hw2. by eapply wrapper_post_flat.
Qed.

Lemma C10_primitives_go_dead_witness :
  ∃ w2,
    post test_heap test_realm sync_bus 2 (VDead 0)
      (set_trace []
         (set_dead (dead root_world ++ [(VObj Js.theBus, VNum 42)])
            (set_arrays (arrays root_world ++ [[]]) root_world)))
    = Ok 1 w2
    ∧ post test_heap test_realm sync_bus 3 (VNum 42) root_world
      = Ok 0 (set_trace
                (trace root_world ++ [TPost (VDead 0) (trace w2) (inr 1)]) w2)
    ∧ Forall (λ t, is_post t = false) (trace w2).
Proof.
  eexists. split; [reflexivity|].
  pose proof (C10_primitives_go_dead test_heap test_realm sync_bus 2 (VNum 42)
                root_world eq_refl eq_refl eq_refl) as [Hc Hflat].
  split; [exact Hc | exact (Hflat 1 _ eq_refl)].
Defined.

(** * Subscription management, and what else the bus does *)

(** X1: the registry is well formed on a new bus and stays so through
    every call, whatever the handlers and the exception handler do and
    however a call ends: a type is a key at most once, no handler set is
    empty (so the size tests in [post] and [getActiveEventTypes] never
    find one), and no set holds a record twice. *)
Theorem registry_well_formed H R B fuel :
  reg_wf new_world
  ∧ (∀ type handler, preserves reg_wf (subscribe type handler))
  ∧ (∀ sub, preserves reg_wf (unsubscribe sub))
  ∧ (∀ type, preserves reg_wf (unsubscribeAll type))
  ∧ preserves reg_wf clear
  ∧ (∀ event, preserves reg_wf (post H R B fuel event))
  ∧ (∀ t, preserves reg_wf (run_task H B (post H R B fuel) t)).
Proof.
  split; [apply reg_wf_new|].
  split; [apply reg_wf_subscribe|].
  split; [apply reg_wf_unsubscribe|].
  split; [apply reg_wf_unsubscribeAll|].
  split; [apply reg_wf_clear|].
  split; [apply reg_wf_post|].
  intros t. apply kept_run_task.
  - apply reg_wf_frame.
  - apply reg_wf_subscribe.
  - apply reg_wf_unsubscribe.
  - apply reg_wf_unsubscribeAll.
  - apply reg_wf_clear.
Qed.

(** X2: [subscribe] puts one new record at the end of the handlers of its
    type, also when the same function is subscribed there already; the
    count of the type goes up by one and no other type changes. *)
Theorem subscribe_appends type handler w :
  reg_wf w →
  ∃ w',
    subscribe type handler w = Ok (type, next_rec w) w'
    ∧ handlers_of w' type
      = handlers_of w type ++ [HandlerRec (next_rec w) handler]
    ∧ getSubscriptionCount type w' = Ok (S (length (handlers_of w type))) w'
    ∧ ∀ other, other ≠ type → handlers_of w' other = handlers_of w other.
Proof.
  intros Hw. eexists. split; [by apply subscribe_eq|].
  assert (E : ∀ x, handlers_of (set_next_rec x (set_registry
                (reg_set type
                   (handlers_of w type ++ [HandlerRec (next_rec w) handler])
                   (registry w)) w)) type
              = handlers_of w type ++ [HandlerRec (next_rec w) handler]).
  { intros x. unfold handlers_of at 1. simpl. by rewrite reg_get_set_eq. }
  split; [apply E|].
  split; [by rewrite getSubscriptionCount_eq E length_app /= Nat.add_1_r|].
  intros other N. unfold handlers_of. simpl. by rewrite reg_get_set_ne.
Qed.

Lemma subscribe_appends_witness :
  reg_wf poly_world
  ∧ ∃ w',
      subscribe (VObj Js.Base) (VObj Js.noop) poly_world
      = Ok (VObj Js.Base, 2) w'
      ∧ handlers_of w' (VObj Js.Base)
        = [HandlerRec 0 (VObj Js.noop); HandlerRec 2 (VObj Js.noop)]
      ∧ getSubscriptionCount (VObj Js.Base) w' = Ok 2 w'
      ∧ ∀ other, other ≠ VObj Js.Base →
                 handlers_of w' other = handlers_of poly_world other.
Proof.
  split; [apply poly_world_wf|].
  exact (subscribe_appends (VObj Js.Base) (VObj Js.noop) poly_world
           poly_world_wf).
Defined.

(** X3: calling the [unsubscribe] of a subscription right after it was
    made undoes it: the registry is what it was before [subscribe], with
    the entry of the type gone again if [subscribe] had to create it. *)
Theorem unsubscribe_undoes_subscribe type handler w :
  reg_wf w →
  ∃ sub w1,
    subscribe type handler w = Ok sub w1
    ∧ unsubscribe sub w1 = Ok tt (set_next_rec (S (next_rec w)) w)
    ∧ registry (set_next_rec (S (next_rec w)) w) = registry w.
Proof.
  intros Hw. pose proof (subscribe_unsubscribe type handler w Hw) as E.
  unfold mbind, M_bind in E.
  destruct (subscribe type handler w) as [sub w1| |]; [|done|done].
  by exists sub, w1.
Qed.

Lemma unsubscribe_undoes_subscribe_witness :
  reg_wf poly_world
  ∧ ∃ sub w1,
      subscribe (VObj Js.DeadEvent) (VObj Js.other) poly_world = Ok sub w1
      ∧ unsubscribe sub w1 = Ok tt (set_next_rec 3 poly_world)
      ∧ registry (set_next_rec 3 poly_world) = registry poly_world.
Proof.
  split; [apply poly_world_wf|].
  exact (unsubscribe_undoes_subscribe (VObj Js.DeadEvent) (VObj Js.other)
           poly_world poly_world_wf).
Defined.

(** X4: [unsubscribe] may be called any number of times: from the second
    call on it changes nothing, in any state of the bus. *)
Theorem unsubscribe_idempotent sub w :
  (unsubscribe sub ;; unsubscribe sub) w = unsubscribe sub w.
Proof.
  unfold mbind, M_bind.
  destruct (unsubscribe sub w) as [[] w'| |] eqn:U; [|done|done].
  by apply unsubscribe_twice in U.
Qed.

(** X5: [unsubscribe] removes the record of its subscription and nothing
    else: the other handlers of the type stay, in their order, the count
    goes down by one, no other type changes, and the type stops being a
    key exactly when that was its last handler. *)
Theorem unsubscribe_removes_one type rec w :
  reg_wf w →
  rec ∈ handlers_of w type →
  ∃ w',
    unsubscribe (type, rec_id rec) w = Ok tt w'
    ∧ handlers_of w' type
      = filter (λ r, rec_id r ≠ rec_id rec) (handlers_of w type)
    ∧ (rec ∉ handlers_of w' type)
    ∧ S (length (handlers_of w' type)) = length (handlers_of w type)
    ∧ reg_has type (registry w')
      = negb (length (handlers_of w' type) =? 0)
    ∧ ∀ other, other ≠ type → handlers_of w' other = handlers_of w other.
Proof.
  intros Hw Hin. pose proof (handlers_of_elem _ _ _ Hin) as G.
  destruct Hw as [_ Hw].
  destruct (Hw _ _ (reg_get_elem _ _ _ G)) as (_ & Hn & _).
  eexists. split; [by apply unsubscribe_eq|].
  assert (E : handlers_of (set_registry
                match set_delete (rec_id rec) (handlers_of w type) with
                | [] => reg_delete type (registry w)
                | rest => reg_set type rest (registry w)
                end w) type
              = set_delete (rec_id rec) (handlers_of w type)).
  { unfold handlers_of at 1. simpl.
    destruct (set_delete _ _); [by rewrite reg_get_delete_eq|].
    by rewrite reg_get_set_eq. }
  rewrite E. split; [done|].
  split.
  { intros [N _]%list_elem_of_filter. done. }
  split; [by apply set_delete_length|].
  split.
  - unfold reg_has. simpl.
    destruct (set_delete _ _) as [|r rest]; simpl.
    + rewrite reg_get_delete_eq. by apply bool_decide_eq_false_2, is_Some_None.
    + rewrite reg_get_set_eq. by apply bool_decide_eq_true_2.
  - intros other N. unfold handlers_of. simpl.
    destruct (set_delete _ _);
      [by rewrite reg_get_delete_ne | by rewrite reg_get_set_ne].
Qed.

Lemma unsubscribe_removes_one_witness :
  reg_wf poly_world
  ∧ HandlerRec 1 (VObj Js.failing) ∈ handlers_of poly_world (VObj Js.Sub)
  ∧ ∃ w',
      unsubscribe (VObj Js.Sub, 1) poly_world = Ok tt w'
      ∧ handlers_of w' (VObj Js.Sub) = []
      ∧ reg_has (VObj Js.Sub) (registry w') = false
      ∧ handlers_of w' (VObj Js.Base) = [HandlerRec 0 (VObj Js.noop)].
Proof.
  split; [apply poly_world_wf|].
  assert (Hin : HandlerRec 1 (VObj Js.failing)
                ∈ handlers_of poly_world (VObj Js.Sub)) by by left.
  split; [done|].
  destruct (unsubscribe_removes_one (VObj Js.Sub)
              (HandlerRec 1 (VObj Js.failing)) poly_world poly_world_wf Hin)
    as (w' & U & E & _ & _ & K & O).
  exists w'. split; [done|]. split; [done|].
  split; [by rewrite K E|]. by rewrite O.
Defined.

(** X6: the [unsubscribe] of a subscription whose record is no longer in
    the registry (it was unsubscribed before, or removed by
    [unsubscribeAll] or [clear]) changes nothing, also when its type has
    handlers again. *)
Theorem unsubscribe_stale type rid w :
  reg_wf w →
  rid ∉ rec_id <$> handlers_of w type →
  unsubscribe (type, rid) w = Ok tt w.
Proof.
  intros [_ Hw] Hn. unfold handlers_of in Hn.
  destruct (reg_get type (registry w)) as [set|] eqn:G; simpl in Hn.
  - rewrite (unsubscribe_eq _ _ _ _ G) set_delete_absent //.
    destruct (Hw _ _ (reg_get_elem _ _ _ G)) as (Hne & _).
    destruct set; [done|]. by rewrite reg_set_same // set_registry_same.
  - unfold unsubscribe. simpl. by rewrite G.
Qed.

Lemma unsubscribe_stale_witness :
  reg_wf poly_world
  ∧ (0 ∉ rec_id <$> handlers_of poly_world (VObj Js.Sub))
  ∧ unsubscribe (VObj Js.Sub, 0) poly_world = Ok tt poly_world.
Proof.
  assert (Hn : 0 ∉ rec_id <$> handlers_of poly_world (VObj Js.Sub)).
  { by intros [=]%list_elem_of_singleton. }
  split; [apply poly_world_wf|]. split; [done|].
  exact (unsubscribe_stale (VObj Js.Sub) 0 poly_world poly_world_wf Hn).
Defined.

(** X7: [unsubscribeAll] returns the number of handlers the type had (0
    for a type that is not a key), after which the type has no handler
    and is no key, the other types are as before, and a second call
    returns 0 and changes nothing. *)
Theorem unsubscribeAll_removes_type type w :
  ∃ w',
    unsubscribeAll type w = Ok (length (handlers_of w type)) w'
    ∧ getSubscriptionCount type w' = Ok 0 w'
    ∧ reg_has type (registry w') = false
    ∧ (∀ other, other ≠ type → handlers_of w' other = handlers_of w other)
    ∧ unsubscribeAll type w' = Ok 0 w'.
Proof.
  eexists. split.
  { unfold unsubscribeAll, handlers_of. by destruct (reg_get _ _). }
  assert (E : ∀ x, handlers_of (set_registry (reg_delete type x) w) type = []).
  { intros x. unfold handlers_of. simpl. by rewrite reg_get_delete_eq. }
  split; [by rewrite getSubscriptionCount_eq E|].
  split.
  { unfold reg_has. simpl. rewrite reg_get_delete_eq.
    by apply bool_decide_eq_false_2, is_Some_None. }
  split.
  { intros other N. unfold handlers_of. simpl. by rewrite reg_get_delete_ne. }
  unfold unsubscribeAll. simpl.
  by rewrite reg_get_delete_eq (reg_delete_absent _ _ (reg_get_delete_eq _ _)).
Qed.

(** X8: [getActiveEventTypes] lists the keys of the registry, each once
    and in the order they were first subscribed, and leaves the bus as it
    is; a type is listed exactly when it has a handler. *)
Theorem getActiveEventTypes_keys w :
  reg_wf w →
  ∃ types,
    getActiveEventTypes w = Ok types w
    ∧ types = fst <$> registry w
    ∧ NoDup types
    ∧ ∀ type, type ∈ types ↔ handlers_of w type ≠ [].
Proof.
  intros Hw. exists (fst <$> registry w).
  split; [by apply active_types_wf|]. split; [done|].
  destruct Hw as [Hk Hw]. split; [done|].
  intros type. split.
  - intros ((ty & set) & -> & Hin)%list_elem_of_fmap. simpl.
    unfold handlers_of. rewrite (elem_reg_get _ _ _ Hk Hin). simpl.
    by destruct (Hw _ _ Hin).
  - intros Hne. destruct (reg_get type (registry w)) as [set|] eqn:G.
    + apply reg_get_elem in G. apply list_elem_of_fmap. by exists (type, set).
    + unfold handlers_of in Hne. by rewrite G in Hne.
Qed.

Lemma getActiveEventTypes_keys_witness :
  reg_wf poly_world
  ∧ ∃ types,
      getActiveEventTypes poly_world = Ok types poly_world
      ∧ types = [VObj Js.Base; VObj Js.Sub]
      ∧ NoDup types
      ∧ ∀ type, type ∈ types ↔ handlers_of poly_world type ≠ [].
Proof.
  split; [apply poly_world_wf|].
  exact (getActiveEventTypes_keys poly_world poly_world_wf).
Defined.

(** X9: [clear] returns the handlers of all types together, which is the
    sum of [getSubscriptionCount] over [getActiveEventTypes]; it leaves a
    bus with no key and an empty type cache, on which a second [clear]
    returns 0. *)
Theorem clear_total w :
  reg_wf w →
  ∃ types w',
    getActiveEventTypes w = Ok types w
    ∧ clear w
      = Ok (sum_list ((λ type, length (handlers_of w type)) <$> types)) w'
    ∧ registry w' = []
    ∧ typeCache w' = ∅
    ∧ getActiveEventTypes w' = Ok [] w'
    ∧ clear w' = Ok 0 w'.
Proof.
  intros Hw. exists (fst <$> registry w). eexists.
  split; [by apply active_types_wf|].
  split; [by rewrite clear_eq counts_wf|].
  repeat split.
Qed.

Lemma clear_total_witness :
  reg_wf poly_world
  ∧ ∃ types w',
      getActiveEventTypes poly_world = Ok types poly_world
      ∧ clear poly_world = Ok 2 w'
      ∧ registry w' = []
      ∧ typeCache w' = ∅
      ∧ getActiveEventTypes w' = Ok [] w'
      ∧ clear w' = Ok 0 w'.
Proof.
  split; [apply poly_world_wf|].
  destruct (clear_total poly_world poly_world_wf)
    as (types & w' & A & C & rest).
  exists types, w'. split; [done|]. split; [|done].
  rewrite C. injection A as <-. reflexivity.
Defined.

(** X11: [post(null)] and [post(undefined)] return 0 at once: nothing is
    resolved, no handler is called, and no [DeadEvent] is made. *)
Theorem post_nullish H R B fuel event w :
  is_nullish event = true →
  post H R B (S fuel) event w = Ok 0 w.
Proof. intros N. simpl. unfold post_step. by rewrite N. Qed.

Lemma post_nullish_witness :
  is_nullish VNull = true
  ∧ post test_heap test_realm sync_bus 1 VNull root_world = Ok 0 root_world
  ∧ post test_heap test_realm sync_bus 1 VUndefined root_world
    = Ok 0 root_world.
Proof.
  split; [done|]. split.
  - exact (post_nullish test_heap test_realm sync_bus 0 VNull root_world
             eq_refl).
  - reflexivity.
Defined.

(** X12: for a new instance of a class, the first call of [getTypesFor]
    returns the class and the classes it derives from, from the most
    specific one to the base class, followed by [Object] exactly when the
    flag is set; the list is the one the cache then holds. *)
Theorem getTypesFor_hierarchy H R fuel i c cs flag w :
  instance_of H R i c →
  hierarchy H R c cs →
  typeCache w !! i = None →
  length cs ≤ fuel →
  ∃ r w',
    getTypesFor H R fuel (VRef i) flag w = Ok r w'
    ∧ array_at w' r = cs ++ (if flag then [VObj (r_Object R)] else [])
    ∧ typeCache w' !! i = Some r.
Proof.
  intros I Hh C Hf.
  pose proof (instance_is_object _ _ _ _ I) as E.
  pose proof (instance_chain _ _ _ _ _ I Hh) as Hc.
  rewrite (getTypesFor_miss _ _ _ _ _ _ E C) (walk_complete _ _ _ _ Hc) //.
  eexists _, _. split; [done|]. simpl. split.
  - rewrite array_at_set_typeCache array_at_alloc bool_decide_eq_true_2 //.
    destruct flag; [done | by rewrite app_nil_r].
  - by rewrite lookup_insert_eq.
Qed.

Lemma getTypesFor_hierarchy_witness :
  instance_of test_heap test_realm (IObj Js.aSub) (VObj Js.Sub)
  ∧ hierarchy test_heap test_realm (VObj Js.Sub) [VObj Js.Sub; VObj Js.Base]
  ∧ typeCache new_world !! IObj Js.aSub = None
  ∧ ∃ r w',
      getTypesFor test_heap test_realm 2 (VObj Js.aSub) true new_world = Ok r w'
      ∧ array_at w' r = [VObj Js.Sub; VObj Js.Base; VObj Js.Object]
      ∧ typeCache w' !! IObj Js.aSub = Some r.
Proof.
  split; [apply aSub_instance_of_Sub|]. split; [apply Sub_hierarchy|].
  split; [done|].
  exact (getTypesFor_hierarchy test_heap test_realm 2 (IObj Js.aSub)
           (VObj Js.Sub) [VObj Js.Sub; VObj Js.Base] true new_world
           aSub_instance_of_Sub Sub_hierarchy eq_refl (le_n 2)).
Defined.

(** X13: a call of [getTypesFor] that returned, repeated with the same
    flag, returns a list with the same members and leaves the cache as it
    is.  When the first call had to compute the list, the second one
    returns that very array and changes nothing at all. *)
Theorem getTypesFor_again H R fuel fuel' event flag w r w1 :
  getTypesFor H R fuel event flag w = Ok r w1 →
  ∃ r' w2,
    getTypesFor H R fuel' event flag w1 = Ok r' w2
    ∧ array_at w2 r' = array_at w1 r
    ∧ typeCache w2 = typeCache w1
    ∧ ∀ i, event = VRef i → is_object_event H event = true →
           typeCache w !! i = None → r' = r ∧ w2 = w1.
Proof.
  intros G. destruct (is_object_event H event) eqn:E.
  - destruct (is_object_event_ref _ _ E) as [i ->].
    destruct (typeCache w !! i) as [cached|] eqn:C.
    + rewrite (getTypesFor_hit _ _ _ _ _ _ _ E C) in G.
      destruct (flag && negb (includes (VObj (r_Object R)) (array_at w cached)))
        eqn:F; injection G as <- <-.
      * apply andb_prop in F as [-> F%negb_true_iff].
        set (copy := array_at w cached ++ [VObj (r_Object R)]).
        set (w1 := set_arrays (arrays w ++ [copy]) w).
        assert (C' : typeCache w1 !! i = Some cached) by done.
        assert (A : array_at w1 (length (arrays w)) = copy).
        { unfold w1. by rewrite array_at_alloc bool_decide_eq_true_2. }
        rewrite (getTypesFor_hit _ _ _ _ _ _ _ E C') A.
        destruct (decide (cached = length (arrays w))) as [-> | Hne].
        -- rewrite A. unfold includes at 1.
           rewrite bool_decide_eq_true_2; [apply elem_of_app; right; by left|].
           eexists _, _. split; [done|]. split; [done|].
           split; [done | congruence].
        -- assert (A' : array_at w1 cached = array_at w cached).
           { unfold w1. by rewrite array_at_alloc bool_decide_eq_false_2. }
           rewrite A' F. simpl.
           eexists _, _. split; [done|].
           split; [by rewrite array_at_alloc bool_decide_eq_true_2|].
           split; [done | congruence].
      * rewrite (getTypesFor_hit _ _ _ _ _ _ _ E C) F.
        eexists _, _. split; [done|]. split; [done|].
        split; [done | congruence].
    + rewrite (getTypesFor_miss _ _ _ _ _ _ E C) in G.
      destruct (walk _ _ _ _) as [out| |] eqn:W; [|done|done].
      injection G as <- <-.
      set (w1 := set_typeCache _ _).
      assert (C' : typeCache w1 !! i = Some (length (arrays w)))
        by apply lookup_insert_eq.
      rewrite (getTypesFor_hit _ _ _ _ _ _ _ E C').
      assert (A : array_at w1 (length (arrays w))
                  = if flag then out ++ [VObj (r_Object R)] else out).
      { unfold w1.
        by rewrite array_at_set_typeCache array_at_alloc bool_decide_eq_true_2. }
      assert (F : flag && negb (includes (VObj (r_Object R))
                                  (array_at w1 (length (arrays w)))) = false).
      { rewrite A. destruct flag; [|done]. simpl.
        apply negb_false_iff, bool_decide_eq_true_2, elem_of_app.
        right. by left. }
      rewrite F. by eexists _, _.
  - rewrite getTypesFor_unsupported // in G. injection G as <- <-.
    rewrite getTypesFor_unsupported //.
    eexists _, _. split; [done|].
    split; [by rewrite !array_at_alloc !bool_decide_eq_true_2|].
    split; [done|]. by intros i _ ?.
Qed.

Lemma getTypesFor_again_witness :
  ∃ r w1,
    getTypesFor test_heap test_realm 2 (VObj Js.aSub) false new_world = Ok r w1
    ∧ getTypesFor test_heap test_realm 0 (VObj Js.aSub) false w1 = Ok r w1
    ∧ array_at w1 r = [VObj Js.Sub; VObj Js.Base].
Proof.
  eexists _, _. split; [reflexivity|].
  destruct (getTypesFor_again test_heap test_realm 2 0 (VObj Js.aSub) false
              new_world _ _ eq_refl)
    as (r' & w2 & G & _ & _ & Same).
  destruct (Same (IObj Js.aSub) eq_refl eq_refl eq_refl) as [-> ->].
  split; [exact G | reflexivity].
Defined.

(** X14: [clearCache] makes the resolver forget: the next call of
    [getTypesFor] for an object walks the constructor chain again and
    returns it with [Object] at the end exactly when the flag of that call
    is set, whatever list was cached for the object before. *)
Theorem clearCache_forgets H R fuel i flag chain w :
  is_object_event H (VRef i) = true →
  ctor_chain H R (first_ctor H R (VRef i)) chain →
  length chain ≤ fuel →
  ∃ r w',
    (clearCache ;; getTypesFor H R fuel (VRef i) flag) w = Ok r w'
    ∧ array_at w' r = chain ++ (if flag then [VObj (r_Object R)] else [])
    ∧ typeCache w' = {[ i := r ]}.
Proof.
  intros E Hc Hf. unfold mbind, M_bind, clearCache, modify.
  rewrite (getTypesFor_miss _ _ _ _ _ _ E); [apply lookup_empty|].
  rewrite (walk_complete _ _ _ _ Hc) //.
  eexists _, _. split; [done|]. simpl. split.
  - rewrite array_at_set_typeCache array_at_alloc bool_decide_eq_true_2 //.
    destruct flag; [done | by rewrite app_nil_r].
  - by rewrite insert_empty.
Qed.

Lemma clearCache_forgets_witness :
  ∃ w,
    getTypesFor test_heap test_realm 4 (VObj Js.aBase) true new_world = Ok 0 w
    ∧ array_at w 0 = [VObj Js.Base; VObj Js.Object]
    ∧ ∃ r w',
        (clearCache ;; getTypesFor test_heap test_realm 4 (VObj Js.aBase) false) w
        = Ok r w'
        ∧ array_at w' r = [VObj Js.Base]
        ∧ typeCache w' = {[ IObj Js.aBase := r ]}.
Proof.
  eexists. split; [reflexivity|]. split; [reflexivity|].
  apply (clearCache_forgets test_heap test_realm 4 (IObj Js.aBase) false
           [VObj Js.Base]); [reflexivity | | simpl; lia].
  apply (walk_sound test_heap test_realm 4). reflexivity.
Defined.

(** X15: the count [post] returns for an instance of a class is the sum
    of [getSubscriptionCount] over the class, the classes it derives from
    and [Object], whether the list of types comes from the cache or not.
    With handlers that do not post and an exception handler that does not
    throw, [post] returns. *)
Theorem post_counts_hierarchy H R B fuel self_post i c cs w :
  cache_ok H R w →
  instance_of H R i c →
  hierarchy H R c cs →
  (quiet_heap H → quiet_reporter false B → length cs ≤ fuel →
   (∀ k, ends false (self_post (VDead k))) →
   ∃ d w', post_step H R B fuel self_post (VRef i) w = Ok d w')
  ∧ ∀ d w',
      post_step H R B fuel self_post (VRef i) w = Ok d w' →
      d = sum_list ((λ type, length (handlers_of w type))
                      <$> (cs ++ [VObj (r_Object R)])).
Proof.
  intros Hok I Hh. split; [|intros d w'; by apply (post_step_count _ _ _ _ _ _ c)].
  intros Hq Hr Hf Hd.
  pose proof (instance_chain _ _ _ _ _ I Hh) as Hc.
  pose proof (ends_post_step H R B self_post Hq false fuel (VRef i) Hr
                (or_intror (ex_intro _ cs (conj Hc Hf))) (λ _, Hd) w) as P.
  destruct (post_step _ _ _ _ _ _ w) as [d w'| |]; [eauto | done | done].
Qed.

Lemma post_counts_hierarchy_witness :
  cache_ok test_heap test_realm poly_world
  ∧ instance_of test_heap test_realm (IObj Js.aSub) (VObj Js.Sub)
  ∧ hierarchy test_heap test_realm (VObj Js.Sub) [VObj Js.Sub; VObj Js.Base]
  ∧ ∃ w',
      post_step test_heap test_realm sync_bus 2
        (post test_heap test_realm sync_bus 2) (VObj Js.aSub) poly_world
      = Ok 2 w'
      ∧ 2 = sum_list ((λ type, length (handlers_of poly_world type))
                        <$> [VObj Js.Sub; VObj Js.Base; VObj Js.Object]).
Proof.
  split; [apply poly_world_ok|]. split; [apply aSub_instance_of_Sub|].
  split; [apply Sub_hierarchy|].
  eexists. split; [reflexivity|].
  exact (proj2 (post_counts_hierarchy test_heap test_realm sync_bus 2
                  (post test_heap test_realm sync_bus 2) (IObj Js.aSub)
                  (VObj Js.Sub) [VObj Js.Sub; VObj Js.Base] poly_world
                  poly_world_ok aSub_instance_of_Sub Sub_hierarchy)
           2 _ eq_refl).
Defined.

(** X16: after [clear], a posted event finds nobody.  [post] of an event
    that is not null and not a [DeadEvent] returns 0, makes exactly one
    [DeadEvent] for it, with the bus as its source, and posts that once,
    to nobody; the registry stays empty. *)
Theorem post_after_clear H R B fuel event w :
  is_nullish event = false →
  instanceof_DeadEvent H R event = false →
  resolves H R fuel event →
  resolves H R fuel (VDead 0) →
  ∃ w',
    (clear ;; post H R B (S (S fuel)) event) w = Ok 0 w'
    ∧ registry w' = []
    ∧ dead w' = dead w ++ [(VObj (self B), event)]
    ∧ trace w' = trace w ++ [TPost (VDead (length (dead w))) [] (inr 0)].
Proof.
  intros N I Hr Hd. unfold mbind at 1. unfold M_bind. rewrite clear_eq.
  set (wc := set_typeCache ∅ (set_registry [] w)).
  assert (Hs : ∀ types, snapshot [] types = []) by (intros; by apply snapshot_nil).
  cbn [post].
  pose proof (ends_getTypesFor H R (S fuel) event
                (reg_has (VObj (r_Object R)) (registry wc))
                (resolves_more _ _ _ _ Hr) wc) as G.
  destruct (getTypesFor _ _ _ _ _ wc) as [types w1| |] eqn:G1; [|done|done].
  rewrite (post_step_unhandled _ _ _ _ _ _ _ _ _ N G1); [apply Hs|].
  rewrite dead_step_wrap //.
  destruct (getTypesFor_frame _ _ _ _ _ _ _ _ G1)
    as (Hreg & _ & Hdead & _ & Htr & _).
  set (w1' := set_trace [] (set_dead (dead w1 ++ [(VObj (self B), event)]) w1)).
  pose proof (ends_getTypesFor H R fuel (VDead (length (dead w1)))
                (reg_has (VObj (r_Object R)) (registry w1')) Hd w1') as G'.
  destruct (getTypesFor _ _ _ _ _ w1') as [types2 w2| |] eqn:G2; [|done|done].
  destruct (getTypesFor_frame _ _ _ _ _ _ _ _ G2)
    as (Hreg2 & _ & Hdead2 & _ & Htr2 & _).
  assert (Hnil : registry w1' = []) by by rewrite /w1' /= Hreg.
  assert (N' : is_nullish (VDead (length (dead w1))) = false) by done.
  rewrite (post_step_unhandled _ _ _ _ _ _ _ _ _ N' G2);
    [rewrite Hnil; apply Hs|].
  rewrite dead_step_skip; [by rewrite instanceof_DeadEvent_dead|].
  eexists. split; [done|]. simpl.
  rewrite Hreg2 Hnil Hdead2 Htr2 /= Hdead Htr. done.
Qed.

Lemma post_after_clear_witness :
  is_nullish (VObj Js.aSub) = false
  ∧ instanceof_DeadEvent test_heap test_realm (VObj Js.aSub) = false
  ∧ ∃ w',
      (clear ;; post test_heap test_realm sync_bus 4 (VObj Js.aSub)) poly_world
      = Ok 0 w'
      ∧ registry w' = []
      ∧ dead w' = [(VObj Js.theBus, VObj Js.aSub)]
      ∧ trace w' = [TPost (VDead 0) [] (inr 0)].
Proof.
  split; [done|]. split; [done|].
  exact (post_after_clear test_heap test_realm sync_bus 2 (VObj Js.aSub)
           poly_world eq_refl eq_refl aSub_resolves
           (resolves_more _ _ _ _ (wrapper_resolves 0))).
Defined.

(** X17: the subscription of [useEventSubscription].  However often React
    runs the effect of the hook, its cleanup and the cleanup of the
    unmount effect, and in whatever order, the component holds at most one
    record in the registry: after a cleanup the registry is what it was
    before the component mounted, and after the effect it is that registry
    with the handler added once, at the end of the handlers of its type. *)
Theorem useEventSubscription_holds_one w calls :
  reg_wf w →
  ∃ current w',
    reduce hook_step calls None w = Ok current w'
    ∧ reg_wf w'
    ∧ (∃ w'', subscription_cleanup current w' = Ok None w''
              ∧ registry w'' = registry w)
    ∧ ∀ type handler, ∃ rid w'',
        subscription_effect type handler current w' = Ok (Some (type, rid)) w''
        ∧ handlers_of w'' type = handlers_of w type ++ [HandlerRec rid handler]
        ∧ ∀ other, other ≠ type → handlers_of w'' other = handlers_of w other.
Proof.
  intros Hw.
  assert (Hh : held w None w) by (split; [done | by intros w' [= <-]]).
  destruct (hook_run_held w calls None w Hh) as (current & w' & Run & Hh').
  exists current, w'. split; [done|]. split; [by destruct Hh'|].
  split.
  - destruct (subscription_cleanup_eq current w') as (w'' & C & _).
    exists w''. split; [done|]. destruct Hh' as [_ Hr]. by apply Hr.
  - intros type handler.
    destruct (effect_held w type handler current w' Hh')
      as (rid & w'' & S & E & O & _).
    by exists rid, w''.
Qed.

(** Mount, a change of dependencies, a double cleanup, and unmount. *)
Lemma useEventSubscription_holds_one_witness :
  reg_wf poly_world
  ∧ ∃ current w',
      reduce hook_step
        [RunEffect (VObj Js.Base) (VObj Js.other);
         RunCleanup;
         RunEffect (VObj Js.Base) (VObj Js.noop);
         RunEffect (VObj Js.Sub) (VObj Js.other);
         RunUnmountCleanup;
         RunCleanup]
        None poly_world
      = Ok current w'
      ∧ registry w' = registry poly_world.
Proof.
  split; [apply poly_world_wf|].
  destruct (useEventSubscription_holds_one poly_world
              [RunEffect (VObj Js.Base) (VObj Js.other);
               RunCleanup;
               RunEffect (VObj Js.Base) (VObj Js.noop);
               RunEffect (VObj Js.Sub) (VObj Js.other);
               RunUnmountCleanup;
               RunCleanup] poly_world_wf)
    as (current & w' & Run & _).
  exists current, w'. split; [exact Run|].
  vm_compute in Run. injection Run as _ <-. reflexivity.
Defined.

(** X18: the events [useEventCollection] keeps.  Starting from the empty
    list and updated once per event, the collection holds the latest
    events, newest first, and never more than [maxSize] of them (none for
    a [maxSize] below 1). *)
Theorem useEventCollection_keeps_latest maxSize events :
  foldl (λ currentEvents event, collect_event maxSize event currentEvents)
    [] events
  = take (Z.to_nat maxSize) (reverse events)
  ∧ (length (foldl (λ currentEvents event,
                      collect_event maxSize event currentEvents) [] events)
     ≤ Z.to_nat maxSize).
Proof.
  assert (E : foldl (λ currentEvents event,
                       collect_event maxSize event currentEvents) [] events
              = take (Z.to_nat maxSize) (reverse events)).
  { induction events as [|event events IH] using rev_ind.
    - by rewrite take_nil.
    - by rewrite foldl_snoc IH reverse_snoc collect_event_take. }
  split; [done|]. rewrite E length_take. lia.
Qed.

(** X19: what one more subscription does to the count.  Had [handler]
    been subscribed under [type] before an instance of a class is posted,
    [post] would return one more if [type] is the class, a class it
    derives from, or [Object], and the same number otherwise. *)
Theorem subscribe_adds_one_delivery
    H R B fuel self_post i c cs type handler w sub w1 d w' d1 w1' :
  cache_ok H R w →
  reg_wf w →
  instance_of H R i c →
  hierarchy H R c cs →
  subscribe type handler w = Ok sub w1 →
  post_step H R B fuel self_post (VRef i) w = Ok d w' →
  post_step H R B fuel self_post (VRef i) w1 = Ok d1 w1' →
  d1 = d + (if bool_decide (type ∈ cs ++ [VObj (r_Object R)]) then 1 else 0).
Proof.
  intros Hok Hw I Hh S P P1.
  pose proof (cache_ok_subscribe H R type handler w Hok) as Hok1.
  rewrite S in Hok1.
  rewrite (post_step_count _ _ _ _ _ _ _ _ _ _ _ Hok I Hh P).
  rewrite (post_step_count _ _ _ _ _ _ _ _ _ _ _ Hok1 I Hh P1).
  rewrite subscribe_eq // in S. injection S as _ <-.
  apply sum_counts_one.
  - eapply ctor_chain_root_NoDup, hierarchy_chain, Hh.
  - by rewrite /handlers_of /= reg_get_set_eq length_app /= Nat.add_1_r.
  - intros other N. by rewrite /handlers_of /= reg_get_set_ne.
Qed.

Lemma subscribe_adds_one_delivery_witness :
  ∃ sub w1 w' w1',
    subscribe (VObj Js.Base) (VObj Js.other) poly_world = Ok sub w1
    ∧ post_step test_heap test_realm sync_bus 2
        (post test_heap test_realm sync_bus 2) (VObj Js.aSub) poly_world
      = Ok 2 w'
    ∧ post_step test_heap test_realm sync_bus 2
        (post test_heap test_realm sync_bus 2) (VObj Js.aSub) w1
      = Ok 3 w1'
    ∧ 3 = 2 + (if bool_decide (VObj Js.Base
                                ∈ [VObj Js.Sub; VObj Js.Base]
                                  ++ [VObj (r_Object test_realm)])
               then 1 else 0).
Proof.
  eexists _, _, _, _. split; [reflexivity|].
  split; [reflexivity|]. split; [reflexivity|].
  exact (subscribe_adds_one_delivery test_heap test_realm sync_bus 2
           (post test_heap test_realm sync_bus 2) (IObj Js.aSub) (VObj Js.Sub)
           [VObj Js.Sub; VObj Js.Base] (VObj Js.Base) (VObj Js.other)
           poly_world _ _ 2 _ 3 _
           poly_world_ok poly_world_wf aSub_instance_of_Sub Sub_hierarchy
           eq_refl eq_refl eq_refl).
Defined.

(** X21: a listener for [DeadEvent] hears of every event nobody else
    takes.  With a handler subscribed under [DeadEvent], a post that finds
    no handler for its event returns 0, and the one post of the wrapper it
    makes calls that handler with the wrapper and counts it.  With
    handlers that do not post and an exception handler that does not
    throw, the post returns. *)
Theorem dead_event_reaches_listener
    H R B fuel event w types w1 set rec :
  cache_ok H R w →
  class_at H R (VObj (r_DeadEvent R)) (r_DeadEventProto R) →
  is_nullish event = false →
  instanceof_DeadEvent H R event = false →
  getTypesFor H R (S fuel) event (reg_has (VObj (r_Object R)) (registry w)) w
  = Ok types w1 →
  snapshot (registry w) (array_at w1 types) = [] →
  reg_get (VObj (r_DeadEvent R)) (registry w) = Some set →
  rec ∈ set →
  (quiet_heap H → quiet_reporter false B →
   resolves H R fuel event → resolves H R fuel (VDead 0) →
   ∃ d w', post H R B (S (S fuel)) event w = Ok d w')
  ∧ ∀ d w',
      post H R B (S (S fuel)) event w = Ok d w' →
      d = 0
      ∧ ∃ snap tr,
          trace w'
          = trace w ++ [TPost (VDead (length (dead w))) tr (inr (length snap))]
          ∧ delivered B (VDead (length (dead w))) snap tr
          ∧ (rec_fn rec, VObj (r_DeadEvent R)) ∈ snap.
Proof.
  intros Hok Hcls N I G Hs Hget Hrec. split.
  { intros Hh Hq Hr Hd.
    pose proof (ends_post H R B false fuel event Hh Hq Hr Hd w) as P.
    destruct (post _ _ _ _ _ w) as [d w'| |]; [eauto | done | done]. }
  intros d w'. cbn [post].
  rewrite (post_step_unhandled _ _ _ _ _ _ _ _ _ N G Hs) dead_step_wrap //.
  destruct (getTypesFor_frame _ _ _ _ _ _ _ _ G)
    as (Hreg & _ & Hdead & _ & Htr & _).
  set (wrapper := VDead (length (dead w1))).
  set (w0 := set_trace [] (set_dead (dead w1 ++ [(VObj (self B), event)]) w1)).
  destruct (post_step H R B fuel (post H R B fuel) wrapper w0)
    as [n w2| |] eqn:P; [|done|done].
  intros [= <- <-]. split; [done|].
  assert (Nw : is_nullish wrapper = false) by done.
  apply post_step_Ok in P
    as (types2 & w3 & tr & rest & G2 & -> & Etr & D & Hrest); [|done].
  destruct Hrest as [-> | (_ & Iw & _)];
    [|by rewrite instanceof_DeadEvent_dead in Iw].
  rewrite app_nil_r in Etr. simpl in Etr.
  exists (snapshot (registry w0) (array_at w3 types2)), tr.
  rewrite /= Etr Htr -Hdead. split; [done|]. split; [done|].
  assert (Hi : instance_of H R (IDead (length (dead w1)))
                 (VObj (r_DeadEvent R))).
  { exists (r_DeadEventProto R). split; [done|]. split; [done|]. by split. }
  assert (Hok0 : cache_ok H R w0).
  { apply (cache_ok_grow H R w1 w0 []); [done | by rewrite app_nil_r |].
    pose proof (getTypesFor_preserves H R (S fuel) event
                  (reg_has (VObj (r_Object R)) (registry w)) w Hok) as Pr.
    by rewrite G in Pr. }
  destruct (getTypesFor_chain _ _ _ _ _ _ _ _ Hok0
              (instance_is_object _ _ _ _ Hi) G2) as (chain & Hc & A).
  rewrite (first_ctor_instance _ _ _ _ Hi) in Hc.
  pose proof (ctor_chain_derives _ _ _ _ _ _ Hcls (rtc_refl _ _) Hc) as Hin.
  apply (elem_of_snapshot _ _ _ set); [|by rewrite Hreg|done].
  destruct A as [-> | ->]; [done|]. apply elem_of_app. by left.
Qed.

Lemma dead_event_reaches_listener_witness :
  cache_ok test_heap test_realm dead_listener_world
  ∧ class_at test_heap test_realm (VObj Js.DeadEvent) Js.DeadEventProto
  ∧ ∃ w',
      post test_heap test_realm sync_bus 3 (VObj Js.aSub) dead_listener_world
      = Ok 0 w'
      ∧ ∃ snap tr,
          trace w' = [TPost (VDead 0) tr (inr (length snap))]
          ∧ delivered sync_bus (VDead 0) snap tr
          ∧ (VObj Js.noop, VObj Js.DeadEvent) ∈ snap.
Proof.
  assert (Hok : cache_ok test_heap test_realm dead_listener_world).
  { intros i r. by rewrite lookup_empty. }
  assert (Hcls : class_at test_heap test_realm (VObj Js.DeadEvent)
                   Js.DeadEventProto).
  { repeat split; try reflexivity. eexists; split; reflexivity. }
  split; [done|]. split; [done|].
  eexists. split; [reflexivity|].
  assert (Hin : HandlerRec 0 (VObj Js.noop) ∈ [HandlerRec 0 (VObj Js.noop)])
    by by left.
  destruct (proj2 (dead_event_reaches_listener test_heap test_realm sync_bus 1
                     (VObj Js.aSub) dead_listener_world _ _
                     [HandlerRec 0 (VObj Js.noop)] (HandlerRec 0 (VObj Js.noop))
                     Hok Hcls eq_refl eq_refl eq_refl eq_refl eq_refl Hin)
              0 _ eq_refl) as (_ & snap & tr & E & D & S).
  by exists snap, tr.
Defined.

(** X22: [unsubscribeAll] does what the subscriptions of the type would
    do together: calling the [unsubscribe] of every handler of the type,
    one after the other, ends in the state [unsubscribeAll] leaves, and
    the number it returns is the number of those calls. *)
Theorem unsubscribeAll_is_every_unsubscribe type w :
  reg_wf w →
  ∃ w',
    reduce (λ _ rec, unsubscribe (type, rec_id rec)) (handlers_of w type) tt w
    = Ok tt w'
    ∧ unsubscribeAll type w = Ok (length (handlers_of w type)) w'.
Proof.
  intros [_ Hw].
  exists (set_registry (reg_delete type (registry w)) w). split.
  2: { unfold unsubscribeAll, handlers_of. by destruct (reg_get _ _). }
  assert (Each : ∀ set w0,
            NoDup (rec_id <$> set) → set ≠ [] →
            reg_get type (registry w0) = Some set →
            reduce (λ (_ : unit) rec, unsubscribe (type, rec_id rec)) set tt w0
            = Ok tt (set_registry (reg_delete type (registry w0)) w0)).
  { induction set as [|r rest IH]; intros w0 Hn Hne G; [done|].
    rewrite fmap_cons in Hn. apply NoDup_cons in Hn as [Hr Hn].
    cbn [reduce]. unfold mbind, M_bind. rewrite (unsubscribe_eq _ _ _ _ G).
    assert (D : set_delete (rec_id r) (r :: rest) = rest).
    { unfold set_delete. rewrite filter_cons decide_False; [by intros []|].
      by apply set_delete_absent. }
    rewrite D. destruct rest as [|r' rest']; [done|].
    rewrite IH; [done | done | apply reg_get_set_eq|].
    simpl. by rewrite reg_delete_set. }
  unfold handlers_of.
  destruct (reg_get type (registry w)) as [set|] eqn:G; simpl.
  - destruct (Hw _ _ (reg_get_elem _ _ _ G)) as (Hne & Hn & _).
    by apply Each.
  - by rewrite reg_delete_absent // set_registry_same.
Qed.

Lemma unsubscribeAll_is_every_unsubscribe_witness :
  reg_wf poly_world
  ∧ ∃ w',
      reduce (λ _ rec, unsubscribe (VObj Js.Base, rec_id rec))
        [HandlerRec 0 (VObj Js.noop)] tt poly_world
      = Ok tt w'
      ∧ unsubscribeAll (VObj Js.Base) poly_world = Ok 1 w'.
Proof.
  split; [apply poly_world_wf|].
  exact (unsubscribeAll_is_every_unsubscribe (VObj Js.Base) poly_world
           poly_world_wf).
Defined.

(** X23: no type is resolved twice.  On a bus whose cache holds what the
    resolver put there, the list [getTypesFor] returns has no repetition,
    so that [post] goes through the handlers of a type once; and the cache
    is then again as the resolver keeps it. *)
Theorem getTypesFor_no_repeats H R fuel event flag w r w1 :
  cache_ok H R w →
  getTypesFor H R fuel event flag w = Ok r w1 →
  NoDup (array_at w1 r) ∧ cache_ok H R w1.
Proof.
  intros Hok G. split.
  - destruct (is_object_event H event) eqn:E.
    + destruct (is_object_event_ref _ _ E) as [i ->].
      destruct (getTypesFor_chain _ _ _ _ _ _ _ _ Hok E G)
        as (chain & Hc & [-> | ->]).
      * by eapply ctor_chain_NoDup.
      * by eapply ctor_chain_root_NoDup.
    + rewrite getTypesFor_unsupported // in G. injection G as <- <-.
      rewrite array_at_alloc bool_decide_eq_true_2 //. constructor.
  - pose proof (getTypesFor_preserves H R fuel event flag w Hok) as P.
    by rewrite G in P.
Qed.

Lemma getTypesFor_no_repeats_witness :
  cache_ok test_heap test_realm poly_world_again
  ∧ ∃ r w1,
      getTypesFor test_heap test_realm 2 (VObj Js.aSub) true poly_world_again
      = Ok r w1
      ∧ array_at w1 r = [VObj Js.Sub; VObj Js.Base; VObj Js.Object]
      ∧ NoDup (array_at w1 r)
      ∧ cache_ok test_heap test_realm w1.
Proof.
  split; [apply poly_world_again_ok|].
  eexists _, _. split; [reflexivity|]. split; [reflexivity|].
  exact (getTypesFor_no_repeats test_heap test_realm 2 (VObj Js.aSub) true
           poly_world_again _ _ poly_world_again_ok eq_refl).
Defined.
